(** * Amiga 500 keyboard to USB HID converter (Arduino Leonardo sketch)

    A shallow embedding of the current revision of
    [Amiga500-USB-Keyboard-Leonardo.ino]: the keyboard line decoder
    [handleKeyboard], key dispatch [processKeyCode] with the 'Help' function
    layer, the live and macro HID reports, the macro engine and the EEPROM
    persistence with its Adler-32 checksum.

    Machine integers are [Z] with their wrap-around written out; bytes of the
    AVR memory image are little-endian and structs have no padding. *)

From Stdlib Require Import ZArith Lia List Bool.
Import ListNotations.
Open Scope Z_scope.

(** ** Configuration constants *)

Definition MAX_MACRO_LENGTH : Z := 32.
Definition MACRO_SLOTS : Z := 5.
Definition CONCURENT_MACROS : Z := 2.
Definition MACRO_SAVE_VERSION : Z := 4.
Definition PROGRAMMATIC_KEYS_RELEASE : Z := 2.
Definition EEPROM_START_ADDRESS : nat := 0.
Definition SIZE_OF_EEPROM : Z := 1024.
Definition MIN_HANDSHAKE_WAIT_TIME : Z := 65.

Definition BITMASK_A500CLK : Z := 16.  (* 0b00010000, IO 8 *)
Definition BITMASK_A500SP : Z := 32.   (* 0b00100000, IO 9 *)
Definition BITMASK_A500RES : Z := 64.  (* 0b01000000, IO 10 *)

Definition HID_ID_KEYBOARD : Z := 2.
Definition HID_ID_MULTIMEDIA : Z := 5.
Definition HID_ID_MACROVKEYS : Z := 6.

(** Wrap-around of unsigned C integers. *)
Definition u8 (x : Z) : Z := x mod 256.
Definition u32 (x : Z) : Z := x mod 4294967296.

(** ** The Amiga key codes used by the dispatcher ([enum AmigaKeys]) *)

Definition AMIGA_KEY_R : Z := 0x13.
Definition AMIGA_KEY_NUMPAD_0 : Z := 0x0F.
Definition AMIGA_KEY_M : Z := 0x37.
Definition AMIGA_KEY_SPACE : Z := 0x40.
Definition AMIGA_KEY_BACKSPACE : Z := 0x41.
Definition AMIGA_KEY_RETURN : Z := 0x44.
Definition AMIGA_KEY_DELETE : Z := 0x46.
Definition AMIGA_KEY_ARROW_UP : Z := 0x4C.
Definition AMIGA_KEY_ARROW_DOWN : Z := 0x4D.
Definition AMIGA_KEY_ARROW_RIGHT : Z := 0x4E.
Definition AMIGA_KEY_ARROW_LEFT : Z := 0x4F.
Definition AMIGA_KEY_F1 : Z := 0x50.
Definition AMIGA_KEY_F2 : Z := 0x51.
Definition AMIGA_KEY_F3 : Z := 0x52.
Definition AMIGA_KEY_F4 : Z := 0x53.
Definition AMIGA_KEY_F5 : Z := 0x54.
Definition AMIGA_KEY_F6 : Z := 0x55.
Definition AMIGA_KEY_F7 : Z := 0x56.
Definition AMIGA_KEY_F8 : Z := 0x57.
Definition AMIGA_KEY_F9 : Z := 0x58.
Definition AMIGA_KEY_F10 : Z := 0x59.
Definition AMIGA_KEY_NUMPAD_NUMLOCK_LPAREN : Z := 0x5A.
Definition AMIGA_KEY_NUMPAD_SCRLOCK_RPAREN : Z := 0x5B.
Definition AMIGA_KEY_NUMPAD_ASTERISK_PTRSCR : Z := 0x5D.
Definition AMIGA_KEY_HELP : Z := 0x5F.
Definition AMIGA_KEY_SHIFT_LEFT : Z := 0x60.
Definition AMIGA_KEY_SHIFT_RIGHT : Z := 0x61.
Definition AMIGA_KEY_CAPS_LOCK : Z := 0x62.
Definition AMIGA_KEY_CONTROL_LEFT : Z := 0x63.
Definition AMIGA_KEY_ALT_LEFT : Z := 0x64.
Definition AMIGA_KEY_ALT_RIGHT : Z := 0x65.
Definition AMIGA_KEY_AMIGA_LEFT : Z := 0x66.
Definition AMIGA_KEY_AMIGA_RIGHT : Z := 0x67.
Definition AMIGA_KEY_COUNT : Z := 0x68.

Definition MMKEY_NEXT_TRACK : Z := 1.
Definition MMKEY_PREV_TRACK : Z := 2.
Definition MMKEY_STOP : Z := 4.
Definition MMKEY_PLAY_PAUSE : Z := 8.
Definition MMKEY_MUTE : Z := 16.
Definition MMKEY_VOLUME_UP : Z := 32.
Definition MMKEY_VOLUME_DOWN : Z := 64.

(** [keyTable[AMIGA_KEY_COUNT]]: Amiga key code to HID usage (modifier keys
    hold their modifier bit). *)
Definition keyTable : list Z :=
  [0x35;0x1E;0x1F;0x20;0x21;0x22;0x23;0x24;0x25;0x26;0x27;0x2D;0x2E;0x31;0x00;0x62;
   0x14;0x1A;0x08;0x15;0x17;0x1C;0x18;0x0C;0x12;0x13;0x2F;0x30;0x00;0x59;0x5A;0x5B;
   0x04;0x16;0x07;0x09;0x0A;0x0B;0x0D;0x0E;0x0F;0x33;0x34;0x32;0x00;0x5C;0x5D;0x5E;
   0x64;0x1D;0x1B;0x06;0x19;0x05;0x11;0x10;0x36;0x37;0x38;0x00;0x63;0x5F;0x60;0x61;
   0x2C;0x2A;0x2B;0x58;0x28;0x29;0x4C;0x44;0x45;0x46;0x56;0x00;0x52;0x51;0x4F;0x50;
   0x3A;0x3B;0x3C;0x3D;0x3E;0x3F;0x40;0x41;0x42;0x43;0x53;0x47;0x54;0x55;0x57;0x00;
   0x02;0x20;0x00;0x01;0x04;0x40;0x08;0x10].

(** [specialKeys[]]: keys handled by [processKeyCode] itself. *)
Definition specialKeys : list Z :=
  [AMIGA_KEY_HELP; AMIGA_KEY_CAPS_LOCK; AMIGA_KEY_NUMPAD_NUMLOCK_LPAREN;
   AMIGA_KEY_NUMPAD_SCRLOCK_RPAREN].

Definition isSpecialKey (keyCode : Z) : bool :=
  existsb (fun k => k =? keyCode) specialKeys.

Definition isAmigaModifierKey (keyCode : Z) : bool :=
  (keyCode =? AMIGA_KEY_SHIFT_LEFT) || (keyCode =? AMIGA_KEY_SHIFT_RIGHT) ||
  (keyCode =? AMIGA_KEY_CONTROL_LEFT) || (keyCode =? AMIGA_KEY_ALT_LEFT) ||
  (keyCode =? AMIGA_KEY_ALT_RIGHT) || (keyCode =? AMIGA_KEY_AMIGA_LEFT) ||
  (keyCode =? AMIGA_KEY_AMIGA_RIGHT).

(** ** Small list helpers: C array reads and writes *)

(** [a[i] = x]; arrays here are fixed-size, so [i] is always in range. *)
Fixpoint upd {A} (l : list A) (i : nat) (x : A) : list A :=
  match l, i with
  | [], _ => []
  | _ :: t, O => x :: t
  | y :: t, S i' => y :: upd t i' x
  end.

(** [for (i = 0; i < n; i++) a[i] = f(a[i]);] *)
Fixpoint map_prefix {A} (f : A -> A) (n : nat) (l : list A) : list A :=
  match n, l with
  | O, _ => l
  | _, [] => []
  | S n', x :: t => f x :: map_prefix f n' t
  end.

(** ** HID reports *)

(** [KeyReport] from [Keyboard.h]: a modifier byte and six key slots. *)
Record KeyReport := mkKeyReport { modifiers : Z; keys : list Z }.

Definition emptyReport : KeyReport := mkKeyReport 0 [0;0;0;0;0;0].

Fixpoint zlist_eqb (a b : list Z) : bool :=
  match a, b with
  | [], [] => true
  | x :: a', y :: b' => (x =? y) && zlist_eqb a' b'
  | _, _ => false
  end.

(** [memcmp(&a, &b, sizeof(KeyReport)) == 0] *)
Definition report_eqb (a b : KeyReport) : bool :=
  (modifiers a =? modifiers b) && zlist_eqb (keys a) (keys b).

(** Index of the first empty slot: [for (i = 0; i < 6; i++) if (keys[i] == 0) ... break;] *)
Fixpoint first_free (ks : list Z) : option nat :=
  match ks with
  | [] => None
  | k :: t => if k =? 0 then Some O else option_map S (first_free t)
  end.

(** Reports handed to [HID().SendReport]. *)
Inductive HidOut :=
  | KbdOut (id : Z) (r : KeyReport)
  | MmOut (id : Z) (bits : Z).

(** ** Macro storage *)

(** [struct MacroKeyEvent]: keyCode (1 byte), isPressed (the byte holding the
    [bool]), delay (4 bytes). *)
Record MacroKeyEvent := mkEvent { ev_keyCode : Z; ev_isPressed : Z; ev_delay : Z }.

(** [struct Macro]: [MAX_MACRO_LENGTH] events and a length byte. *)
Record Macro := mkMacro { keyEvents : list MacroKeyEvent; macro_length : Z }.

Record MacroPlayStatus := mkPlay {
  playing : bool; loop : bool; macroIndex : Z; playStartTime : Z }.

Definition zeroEvent : MacroKeyEvent := mkEvent 0 0 0.
Definition zeroMacro : Macro :=
  mkMacro (repeat zeroEvent (Z.to_nat MAX_MACRO_LENGTH)) 0.
Definition zeroMacros : list Macro := repeat zeroMacro (Z.to_nat MACRO_SLOTS).
Definition stoppedPlay : MacroPlayStatus := mkPlay false false 0 0.

(** The globals of the sketch touched by key processing, the macro engine and
    the EEPROM routines.  [hidLog] collects every [HID().SendReport] in order;
    [now] is the value [millis()] returns. *)
Record State := mkState {
  keyReport : KeyReport;
  prevkeyReport : KeyReport;
  macroKeyReport : KeyReport;
  macroPrevkeyReport : KeyReport;
  mmKeys : Z;
  hidLog : list HidOut;
  macros : list Macro;
  macroPlayStatus : list MacroPlayStatus;
  recording : bool;
  recordingSlot : bool;
  macro_looping : bool;
  recordingMacroSlot : Z;
  recordingMacroIndex : Z;
  robotMacroMode : bool;
  functionMode : bool;
  ignoreNextRelease : Z;
  eeprom : list Z;
  now : Z
}.

Definition set_keyReport (v : KeyReport) (s : State) : State :=
  mkState v (s.(prevkeyReport)) (s.(macroKeyReport)) (s.(macroPrevkeyReport)) (s.(mmKeys)) (s.(hidLog)) (s.(macros)) (s.(macroPlayStatus)) (s.(recording)) (s.(recordingSlot)) (s.(macro_looping)) (s.(recordingMacroSlot)) (s.(recordingMacroIndex)) (s.(robotMacroMode)) (s.(functionMode)) (s.(ignoreNextRelease)) (s.(eeprom)) (s.(now)).
Definition set_prevkeyReport (v : KeyReport) (s : State) : State :=
  mkState (s.(keyReport)) v (s.(macroKeyReport)) (s.(macroPrevkeyReport)) (s.(mmKeys)) (s.(hidLog)) (s.(macros)) (s.(macroPlayStatus)) (s.(recording)) (s.(recordingSlot)) (s.(macro_looping)) (s.(recordingMacroSlot)) (s.(recordingMacroIndex)) (s.(robotMacroMode)) (s.(functionMode)) (s.(ignoreNextRelease)) (s.(eeprom)) (s.(now)).
Definition set_macroKeyReport (v : KeyReport) (s : State) : State :=
  mkState (s.(keyReport)) (s.(prevkeyReport)) v (s.(macroPrevkeyReport)) (s.(mmKeys)) (s.(hidLog)) (s.(macros)) (s.(macroPlayStatus)) (s.(recording)) (s.(recordingSlot)) (s.(macro_looping)) (s.(recordingMacroSlot)) (s.(recordingMacroIndex)) (s.(robotMacroMode)) (s.(functionMode)) (s.(ignoreNextRelease)) (s.(eeprom)) (s.(now)).
Definition set_macroPrevkeyReport (v : KeyReport) (s : State) : State :=
  mkState (s.(keyReport)) (s.(prevkeyReport)) (s.(macroKeyReport)) v (s.(mmKeys)) (s.(hidLog)) (s.(macros)) (s.(macroPlayStatus)) (s.(recording)) (s.(recordingSlot)) (s.(macro_looping)) (s.(recordingMacroSlot)) (s.(recordingMacroIndex)) (s.(robotMacroMode)) (s.(functionMode)) (s.(ignoreNextRelease)) (s.(eeprom)) (s.(now)).
Definition set_mmKeys (v : Z) (s : State) : State :=
  mkState (s.(keyReport)) (s.(prevkeyReport)) (s.(macroKeyReport)) (s.(macroPrevkeyReport)) v (s.(hidLog)) (s.(macros)) (s.(macroPlayStatus)) (s.(recording)) (s.(recordingSlot)) (s.(macro_looping)) (s.(recordingMacroSlot)) (s.(recordingMacroIndex)) (s.(robotMacroMode)) (s.(functionMode)) (s.(ignoreNextRelease)) (s.(eeprom)) (s.(now)).
Definition set_hidLog (v : list HidOut) (s : State) : State :=
  mkState (s.(keyReport)) (s.(prevkeyReport)) (s.(macroKeyReport)) (s.(macroPrevkeyReport)) (s.(mmKeys)) v (s.(macros)) (s.(macroPlayStatus)) (s.(recording)) (s.(recordingSlot)) (s.(macro_looping)) (s.(recordingMacroSlot)) (s.(recordingMacroIndex)) (s.(robotMacroMode)) (s.(functionMode)) (s.(ignoreNextRelease)) (s.(eeprom)) (s.(now)).
Definition set_macros (v : list Macro) (s : State) : State :=
  mkState (s.(keyReport)) (s.(prevkeyReport)) (s.(macroKeyReport)) (s.(macroPrevkeyReport)) (s.(mmKeys)) (s.(hidLog)) v (s.(macroPlayStatus)) (s.(recording)) (s.(recordingSlot)) (s.(macro_looping)) (s.(recordingMacroSlot)) (s.(recordingMacroIndex)) (s.(robotMacroMode)) (s.(functionMode)) (s.(ignoreNextRelease)) (s.(eeprom)) (s.(now)).
Definition set_macroPlayStatus (v : list MacroPlayStatus) (s : State) : State :=
  mkState (s.(keyReport)) (s.(prevkeyReport)) (s.(macroKeyReport)) (s.(macroPrevkeyReport)) (s.(mmKeys)) (s.(hidLog)) (s.(macros)) v (s.(recording)) (s.(recordingSlot)) (s.(macro_looping)) (s.(recordingMacroSlot)) (s.(recordingMacroIndex)) (s.(robotMacroMode)) (s.(functionMode)) (s.(ignoreNextRelease)) (s.(eeprom)) (s.(now)).
Definition set_recording (v : bool) (s : State) : State :=
  mkState (s.(keyReport)) (s.(prevkeyReport)) (s.(macroKeyReport)) (s.(macroPrevkeyReport)) (s.(mmKeys)) (s.(hidLog)) (s.(macros)) (s.(macroPlayStatus)) v (s.(recordingSlot)) (s.(macro_looping)) (s.(recordingMacroSlot)) (s.(recordingMacroIndex)) (s.(robotMacroMode)) (s.(functionMode)) (s.(ignoreNextRelease)) (s.(eeprom)) (s.(now)).
Definition set_recordingSlot (v : bool) (s : State) : State :=
  mkState (s.(keyReport)) (s.(prevkeyReport)) (s.(macroKeyReport)) (s.(macroPrevkeyReport)) (s.(mmKeys)) (s.(hidLog)) (s.(macros)) (s.(macroPlayStatus)) (s.(recording)) v (s.(macro_looping)) (s.(recordingMacroSlot)) (s.(recordingMacroIndex)) (s.(robotMacroMode)) (s.(functionMode)) (s.(ignoreNextRelease)) (s.(eeprom)) (s.(now)).
Definition set_macro_looping (v : bool) (s : State) : State :=
  mkState (s.(keyReport)) (s.(prevkeyReport)) (s.(macroKeyReport)) (s.(macroPrevkeyReport)) (s.(mmKeys)) (s.(hidLog)) (s.(macros)) (s.(macroPlayStatus)) (s.(recording)) (s.(recordingSlot)) v (s.(recordingMacroSlot)) (s.(recordingMacroIndex)) (s.(robotMacroMode)) (s.(functionMode)) (s.(ignoreNextRelease)) (s.(eeprom)) (s.(now)).
Definition set_recordingMacroSlot (v : Z) (s : State) : State :=
  mkState (s.(keyReport)) (s.(prevkeyReport)) (s.(macroKeyReport)) (s.(macroPrevkeyReport)) (s.(mmKeys)) (s.(hidLog)) (s.(macros)) (s.(macroPlayStatus)) (s.(recording)) (s.(recordingSlot)) (s.(macro_looping)) v (s.(recordingMacroIndex)) (s.(robotMacroMode)) (s.(functionMode)) (s.(ignoreNextRelease)) (s.(eeprom)) (s.(now)).
Definition set_recordingMacroIndex (v : Z) (s : State) : State :=
  mkState (s.(keyReport)) (s.(prevkeyReport)) (s.(macroKeyReport)) (s.(macroPrevkeyReport)) (s.(mmKeys)) (s.(hidLog)) (s.(macros)) (s.(macroPlayStatus)) (s.(recording)) (s.(recordingSlot)) (s.(macro_looping)) (s.(recordingMacroSlot)) v (s.(robotMacroMode)) (s.(functionMode)) (s.(ignoreNextRelease)) (s.(eeprom)) (s.(now)).
Definition set_robotMacroMode (v : bool) (s : State) : State :=
  mkState (s.(keyReport)) (s.(prevkeyReport)) (s.(macroKeyReport)) (s.(macroPrevkeyReport)) (s.(mmKeys)) (s.(hidLog)) (s.(macros)) (s.(macroPlayStatus)) (s.(recording)) (s.(recordingSlot)) (s.(macro_looping)) (s.(recordingMacroSlot)) (s.(recordingMacroIndex)) v (s.(functionMode)) (s.(ignoreNextRelease)) (s.(eeprom)) (s.(now)).
Definition set_functionMode (v : bool) (s : State) : State :=
  mkState (s.(keyReport)) (s.(prevkeyReport)) (s.(macroKeyReport)) (s.(macroPrevkeyReport)) (s.(mmKeys)) (s.(hidLog)) (s.(macros)) (s.(macroPlayStatus)) (s.(recording)) (s.(recordingSlot)) (s.(macro_looping)) (s.(recordingMacroSlot)) (s.(recordingMacroIndex)) (s.(robotMacroMode)) v (s.(ignoreNextRelease)) (s.(eeprom)) (s.(now)).
Definition set_ignoreNextRelease (v : Z) (s : State) : State :=
  mkState (s.(keyReport)) (s.(prevkeyReport)) (s.(macroKeyReport)) (s.(macroPrevkeyReport)) (s.(mmKeys)) (s.(hidLog)) (s.(macros)) (s.(macroPlayStatus)) (s.(recording)) (s.(recordingSlot)) (s.(macro_looping)) (s.(recordingMacroSlot)) (s.(recordingMacroIndex)) (s.(robotMacroMode)) (s.(functionMode)) v (s.(eeprom)) (s.(now)).
Definition set_eeprom (v : list Z) (s : State) : State :=
  mkState (s.(keyReport)) (s.(prevkeyReport)) (s.(macroKeyReport)) (s.(macroPrevkeyReport)) (s.(mmKeys)) (s.(hidLog)) (s.(macros)) (s.(macroPlayStatus)) (s.(recording)) (s.(recordingSlot)) (s.(macro_looping)) (s.(recordingMacroSlot)) (s.(recordingMacroIndex)) (s.(robotMacroMode)) (s.(functionMode)) (s.(ignoreNextRelease)) v (s.(now)).
Definition set_now (v : Z) (s : State) : State :=
  mkState (s.(keyReport)) (s.(prevkeyReport)) (s.(macroKeyReport)) (s.(macroPrevkeyReport)) (s.(mmKeys)) (s.(hidLog)) (s.(macros)) (s.(macroPlayStatus)) (s.(recording)) (s.(recordingSlot)) (s.(macro_looping)) (s.(recordingMacroSlot)) (s.(recordingMacroIndex)) (s.(robotMacroMode)) (s.(functionMode)) (s.(ignoreNextRelease)) (s.(eeprom)) v.

(** ** A state monad with failure

    A computation reads and writes the globals; [None] is an out-of-bounds
    read of [keyTable], the one array read the sketch guards only by the
    range check in [processKeyCode]. *)

Definition M (A : Type) : Type := State -> option (A * State).

Definition ret {A} (a : A) : M A := fun s => Some (a, s).
Definition bind {A B} (m : M A) (f : A -> M B) : M B :=
  fun s => match m s with Some (a, s') => f a s' | None => None end.
Definition get : M State := fun s => Some (s, s).
Definition put (s : State) : M unit := fun _ => Some (tt, s).
Definition modify (f : State -> State) : M unit := fun s => Some (tt, f s).

Notation "x <- m ;; k" := (bind m (fun x => k))
  (at level 61, m at next level, right associativity).
Notation "m ;;; k" := (bind m (fun _ => k))
  (at level 61, right associativity).

(** [delay(ms)]: only its effect on [millis()] is visible. *)
Definition delay (ms : Z) : M unit := modify (fun s => set_now (u32 (now s + ms)) s).

(** ** Live keyboard report *)

Definition sendReport : M unit :=
  modify (fun s =>
    if report_eqb (keyReport s) (prevkeyReport s) then s
    else set_prevkeyReport (keyReport s)
           (set_hidLog (hidLog s ++ [KbdOut HID_ID_KEYBOARD (keyReport s)]) s)).

Definition resetReportMacro : M unit := modify (set_macroKeyReport emptyReport).

Definition sendReportMacro : M unit :=
  modify (fun s =>
    if report_eqb (macroKeyReport s) (macroPrevkeyReport s) then s
    else set_macroPrevkeyReport (macroKeyReport s)
           (set_hidLog (hidLog s ++ [KbdOut HID_ID_MACROVKEYS (macroKeyReport s)]) s)).

Definition releaseAllMacro : M unit := resetReportMacro ;;; sendReportMacro.

(** First-fit press and release-all-matching on the six key slots. *)
Definition press_slot (ks : list Z) (h : Z) : list Z :=
  match first_free ks with Some i => upd ks i h | None => ks end.

Definition release_slots (ks : list Z) (h : Z) : list Z :=
  map (fun x => if x =? h then 0 else x) ks.

(** [keystroke(keyCode, modifiers)]: a programmatic press and release in the
    first free slot; nothing is sent when all six slots are taken. *)
Definition keystroke (keyCode mods : Z) : M unit :=
  s <- get ;;
  let originalModifiers := modifiers (keyReport s) in
  match first_free (keys (keyReport s)) with
  | None => ret tt
  | Some i =>
      put (set_keyReport (mkKeyReport mods (upd (keys (keyReport s)) i keyCode)) s) ;;;
      sendReport ;;;
      delay PROGRAMMATIC_KEYS_RELEASE ;;;
      modify (fun s' => set_keyReport
                 (mkKeyReport originalModifiers (upd (keys (keyReport s')) i 0)) s') ;;;
      sendReport
  end.

Definition sendMultimediaKey (keyBit : Z) : M unit :=
  modify (fun s => let m := Z.lor (mmKeys s) keyBit in
                   set_hidLog (hidLog s ++ [MmOut HID_ID_MULTIMEDIA m]) (set_mmKeys m s)).

Definition releaseMultimediaKey (keyBit : Z) : M unit :=
  modify (fun s => let m := Z.land (mmKeys s) (Z.lnot keyBit) in
                   set_hidLog (hidLog s ++ [MmOut HID_ID_MULTIMEDIA m]) (set_mmKeys m s)).

Definition multimediaKeystroke (keyCode : Z) : M unit :=
  sendMultimediaKey keyCode ;;; delay PROGRAMMATIC_KEYS_RELEASE ;;; releaseMultimediaKey keyCode.

(** ** EEPROM persistence *)

(** Little-endian bytes of an [n]-byte unsigned value, and back. *)
Fixpoint le_bytes (n : nat) (v : Z) : list Z :=
  match n with O => [] | S n' => v mod 256 :: le_bytes n' (v / 256) end.

Fixpoint le_value (bs : list Z) : Z :=
  match bs with [] => 0 | b :: t => b + 256 * le_value t end.

(** The memory image of the [macros] array, as [adler32] and [EEPROM.put] see it. *)
Definition event_bytes (e : MacroKeyEvent) : list Z :=
  [ev_keyCode e; ev_isPressed e] ++ le_bytes 4 (ev_delay e).

Definition macro_bytes (m : Macro) : list Z :=
  concat (map event_bytes (keyEvents m)) ++ [macro_length m].

Definition macros_image (ms : list Macro) : list Z := concat (map macro_bytes ms).

(** [sizeof(MacroKeyEvent)], [sizeof(macros)], [sizeof(size_t)] on the AVR. *)
Definition SIZEOF_EVENT : nat := 6.
Definition SIZEOF_MACROS : Z := MACRO_SLOTS * (MAX_MACRO_LENGTH * 6 + 1).
Definition SIZEOF_SIZE_T : nat := 2.

Definition MOD_ADLER : Z := 65521.

Fixpoint adler_loop (A B : Z) (data : list Z) : Z * Z :=
  match data with
  | [] => (A, B)
  | d :: t => let A' := (A + d) mod MOD_ADLER in
              adler_loop A' ((B + A') mod MOD_ADLER) t
  end.

(** [adler32(macros, len)]: [(B << 16) | A] on [uint32_t]. *)
Definition adler32 (data : list Z) : Z :=
  let '(A, B) := adler_loop 1 0 data in Z.lor (u32 (Z.shiftl B 16)) A.

(** The EEPROM: [EEPROM.put] writes the bytes of a value from an address,
    [EEPROM.get] reads them back. *)
Fixpoint eeprom_put (a : nat) (bs : list Z) (e : list Z) : list Z :=
  match bs with [] => e | b :: t => eeprom_put (S a) t (upd e a b) end.

Definition eeprom_get (a n : nat) (e : list Z) : list Z := firstn n (skipn a e).

Fixpoint put_events (evs : list MacroKeyEvent) (a : nat) (e : list Z) : list Z * nat :=
  match evs with
  | [] => (e, a)
  | ev :: t => put_events t (a + SIZEOF_EVENT)%nat (eeprom_put a (event_bytes ev) e)
  end.

Fixpoint put_slots (ms : list Macro) (a : nat) (e : list Z) : list Z * nat :=
  match ms with
  | [] => (e, a)
  | m :: t =>
      let '(e1, a1) := put_events (keyEvents m) a e in
      put_slots t (S a1) (eeprom_put a1 [macro_length m] e1)
  end.

Definition cleanMacros : M unit := modify (set_macros zeroMacros).

Definition saveMacrosToEEPROM : M unit :=
  s <- get ;;
  if SIZEOF_MACROS + Z.of_nat SIZEOF_SIZE_T + 1 + 4 >? SIZE_OF_EEPROM then ret tt
  else
    let a0 := EEPROM_START_ADDRESS in
    let e1 := eeprom_put a0 [MACRO_SAVE_VERSION] (eeprom s) in
    let e2 := eeprom_put (S a0) (le_bytes SIZEOF_SIZE_T SIZEOF_MACROS) e1 in
    let '(e3, a3) := put_slots (macros s) (S a0 + SIZEOF_SIZE_T)%nat e2 in
    let checksum := adler32 (macros_image (macros s)) in
    put (set_eeprom (eeprom_put a3 (le_bytes 4 checksum) e3) s).

Definition get_event (a : nat) (e : list Z) : MacroKeyEvent :=
  match eeprom_get a SIZEOF_EVENT e with
  | k :: p :: d => mkEvent k p (le_value d)
  | _ => zeroEvent
  end.

Fixpoint get_events (n : nat) (a : nat) (e : list Z) : list MacroKeyEvent * nat :=
  match n with
  | O => ([], a)
  | S n' => let '(evs, a') := get_events n' (a + SIZEOF_EVENT)%nat e in
            (get_event a e :: evs, a')
  end.

Fixpoint get_slots (n : nat) (a : nat) (e : list Z) : list Macro * nat :=
  match n with
  | O => ([], a)
  | S n' =>
      let '(evs, a1) := get_events (Z.to_nat MAX_MACRO_LENGTH) a e in
      let len := le_value (eeprom_get a1 1 e) in
      let '(ms, a2) := get_slots n' (S a1) e in
      (mkMacro evs len :: ms, a2)
  end.

Definition loadMacrosFromEEPROM : M bool :=
  s <- get ;;
  let e := eeprom s in
  let a0 := EEPROM_START_ADDRESS in
  let save_version := le_value (eeprom_get a0 1 e) in
  let size_of_macros := le_value (eeprom_get (S a0) SIZEOF_SIZE_T e) in
  if negb (save_version =? MACRO_SAVE_VERSION) then cleanMacros ;;; ret false
  else if negb (size_of_macros =? SIZEOF_MACROS) then cleanMacros ;;; ret false
  else
    let '(ms, a) := get_slots (Z.to_nat MACRO_SLOTS) (S a0 + SIZEOF_SIZE_T)%nat e in
    put (set_macros ms s) ;;;
    let storedChecksum := le_value (eeprom_get a 4 e) in
    let calculatedChecksum := adler32 (macros_image ms) in
    if negb (storedChecksum =? calculatedChecksum) then cleanMacros ;;; ret false
    else ret true.

(** ** Macro engine *)

Definition nMacrosPlaying (s : State) : Z :=
  Z.of_nat (length (filter playing (firstn (Z.to_nat MACRO_SLOTS) (macroPlayStatus s)))).

Definition stopAllMacros : M unit :=
  modify (fun s => set_macroPlayStatus
    (map (fun p => if playing p then stoppedPlay else p) (macroPlayStatus s)) s) ;;;
  releaseAllMacro.

Definition playMacroSlot (slot : Z) : M unit :=
  s <- get ;;
  let i := Z.to_nat slot in
  let ps := nth i (macroPlayStatus s) stoppedPlay in
  if negb (recording s) && negb (playing ps) && (nMacrosPlaying s <? CONCURENT_MACROS) then
    put (set_macroPlayStatus
           (upd (macroPlayStatus s) i (mkPlay true (macro_looping s) 0 (now s))) s)
  else
    (* toggle playing *)
    put (set_macroPlayStatus (upd (macroPlayStatus s) i stoppedPlay) s) ;;;
    releaseAllMacro.

Definition startRecording : M unit :=
  s <- get ;;
  if recording s then ret tt
  else stopAllMacros ;;;
       modify (fun s' => set_recording true (set_recordingSlot false
                 (set_recordingMacroSlot 0 (set_recordingMacroIndex 0 s')))).

Definition stopRecording : M unit :=
  s <- get ;;
  if negb (recording s) then ret tt
  else
    let slot := Z.to_nat (recordingMacroSlot s) in
    let m := nth slot (macros s) zeroMacro in
    let firstDelay := ev_delay (nth 0 (keyEvents m) zeroEvent) in
    let evs := map_prefix (fun ev => mkEvent (ev_keyCode ev) (ev_isPressed ev)
                                       (u32 (ev_delay ev - firstDelay)))
                          (Z.to_nat (macro_length m)) (keyEvents m) in
    put (set_functionMode false
           (set_macros (upd (macros s) slot (mkMacro evs (macro_length m)))
              (set_recordingSlot false (set_recording false s)))) ;;;
    saveMacrosToEEPROM.

Definition resetMacros : M unit := stopAllMacros ;;; cleanMacros ;;; saveMacrosToEEPROM.

Definition record_key (keycode : Z) (isPressed : bool) : M unit :=
  s <- get ;;
  if recording s && recordingSlot s && (recordingMacroIndex s <? MAX_MACRO_LENGTH) then
    let slot := Z.to_nat (recordingMacroSlot s) in
    let m := nth slot (macros s) zeroMacro in
    let ev := mkEvent keycode (if isPressed then 1 else 0) (now s) in
    let idx := u8 (recordingMacroIndex s + 1) in
    let m' := mkMacro (upd (keyEvents m) (Z.to_nat (recordingMacroIndex s)) ev) idx in
    put (set_macros (upd (macros s) slot m') (set_recordingMacroIndex idx s)) ;;;
    (if idx >=? MAX_MACRO_LENGTH then stopRecording else ret tt)
  else ret tt.

(** [uint8_t slot = keyCode - AMIGA_KEY_F6;] clamped to the last slot. *)
Definition macroSlotFromKeyCode (keyCode : Z) : Z :=
  let slot := u8 (keyCode - AMIGA_KEY_F6) in
  if slot >=? MACRO_SLOTS then MACRO_SLOTS - 1 else slot.

(** ** Key presses and releases on the live report *)

(** [keyTable[keyCode]]. *)
Definition keyTable_at (k : Z) : M Z :=
  fun s => if (0 <=? k) && (k <? Z.of_nat (length keyTable))
           then Some (nth (Z.to_nat k) keyTable 0, s) else None.

Definition keyPress (keyCode : Z) : M unit :=
  record_key keyCode true ;;;
  hidCode <- keyTable_at keyCode ;;
  modify (fun s =>
    let r := keyReport s in
    if isAmigaModifierKey keyCode
    then set_keyReport (mkKeyReport (Z.lor (modifiers r) hidCode) (keys r)) s
    else set_keyReport (mkKeyReport (modifiers r) (press_slot (keys r) hidCode)) s) ;;;
  sendReport.

Definition keyRelease (keyCode : Z) : M unit :=
  record_key keyCode false ;;;
  hidCode <- keyTable_at keyCode ;;
  modify (fun s =>
    let r := keyReport s in
    if isAmigaModifierKey keyCode
    then set_keyReport (mkKeyReport (Z.land (modifiers r) (Z.lnot hidCode)) (keys r)) s
    else set_keyReport (mkKeyReport (modifiers r) (release_slots (keys r) hidCode)) s) ;;;
  sendReport.

(** ** The 'Help' function layer *)

Definition handleFunctionModeKey (keyCode : Z) : M unit :=
  modify (set_ignoreNextRelease keyCode) ;;;
  if keyCode =? AMIGA_KEY_F1 then keystroke 0x44 0
  else if keyCode =? AMIGA_KEY_F2 then keystroke 0x45 0
  else if keyCode =? AMIGA_KEY_NUMPAD_ASTERISK_PTRSCR then keystroke 0x46 0
  else if keyCode =? AMIGA_KEY_NUMPAD_0 then keystroke 0x49 0
  else if keyCode =? AMIGA_KEY_F3 then startRecording
  else if keyCode =? AMIGA_KEY_F4 then stopRecording
  else if keyCode =? AMIGA_KEY_F5 then modify (fun s => set_macro_looping (negb (macro_looping s)) s)
  else if keyCode =? AMIGA_KEY_BACKSPACE then stopAllMacros
  else if keyCode =? AMIGA_KEY_DELETE then resetMacros
  else if keyCode =? AMIGA_KEY_R then modify (fun s => set_robotMacroMode (negb (robotMacroMode s)) s)
  else if (keyCode =? AMIGA_KEY_F6) || (keyCode =? AMIGA_KEY_F7) || (keyCode =? AMIGA_KEY_F8)
          || (keyCode =? AMIGA_KEY_F9) || (keyCode =? AMIGA_KEY_F10)
       then playMacroSlot (macroSlotFromKeyCode keyCode)
  else if keyCode =? AMIGA_KEY_ARROW_UP then multimediaKeystroke MMKEY_VOLUME_UP
  else if keyCode =? AMIGA_KEY_ARROW_DOWN then multimediaKeystroke MMKEY_VOLUME_DOWN
  else if keyCode =? AMIGA_KEY_ARROW_RIGHT then multimediaKeystroke MMKEY_NEXT_TRACK
  else if keyCode =? AMIGA_KEY_ARROW_LEFT then multimediaKeystroke MMKEY_PREV_TRACK
  else if keyCode =? AMIGA_KEY_RETURN then multimediaKeystroke MMKEY_PLAY_PAUSE
  else if keyCode =? AMIGA_KEY_SPACE then multimediaKeystroke MMKEY_STOP
  else if keyCode =? AMIGA_KEY_M then multimediaKeystroke MMKEY_MUTE
  else ret tt.

(** ** Key dispatch *)

Definition processKeyCode (keyCode : Z) (isPressed : bool) : M unit :=
  if negb (keyCode <? AMIGA_KEY_COUNT) then ret tt
  else
  s <- get ;;
  if (ignoreNextRelease s >? 0) && (ignoreNextRelease s =? keyCode) && negb isPressed
  then put (set_ignoreNextRelease 0 s)
  else if keyCode =? AMIGA_KEY_HELP then put (set_functionMode isPressed s)
  else if isPressed && (keyCode =? AMIGA_KEY_CAPS_LOCK) then keystroke 0x39 0
  else if isPressed && (keyCode =? AMIGA_KEY_NUMPAD_NUMLOCK_LPAREN) then keystroke 0x53 0
  else if isPressed && (keyCode =? AMIGA_KEY_NUMPAD_SCRLOCK_RPAREN) then keystroke 0x47 0
  else if isPressed && functionMode s then handleFunctionModeKey keyCode
  else if isPressed && recording s && negb (recordingSlot s) then
    (if (AMIGA_KEY_F6 <=? keyCode) && (keyCode <=? AMIGA_KEY_F10) then
       let slot := macroSlotFromKeyCode keyCode in
       modify (fun s' => set_recordingSlot true (set_recordingMacroIndex 0
                 (set_macros (upd (macros s') (Z.to_nat slot) zeroMacro)
                    (set_recordingMacroSlot slot s'))))
     else ret tt) ;;;
    modify (set_ignoreNextRelease keyCode)
  else if isPressed then (if negb (isSpecialKey keyCode) then keyPress keyCode else ret tt)
  else (if negb (isSpecialKey keyCode) then keyRelease keyCode else ret tt).

(** ** The keyboard line decoder ([handleKeyboard]) *)

Inductive KeyboardState := SYNCH_HI | SYNCH_LO | HANDSHAKE | READ | WAIT_LO | WAIT_RES.

Definition is_WAIT_RES (k : KeyboardState) : bool :=
  match k with WAIT_RES => true | _ => false end.

(** The [static] locals of [handleKeyboard]; [spOutput] is the SP bit of
    [DDRB] (the handshake drives the line low while it is set). *)
Record Decoder := mkDecoder {
  keyboardState : KeyboardState;
  handshakeTimer : Z;
  currentKeyCode : Z;
  bitIndex : Z;
  spOutput : bool }.

(** What one poll hands on to the rest of the sketch. *)
Inductive KbAction :=
  | NoAction
  | ResetChord
  | KeyMessage (keyCode : Z) (isKeyDown : bool).

(** One poll on a [PINB] snapshot and the [micros()] value. *)
Definition kb_step (d : Decoder) (pinb micros : Z) : Decoder * KbAction :=
  let res_low := Z.land pinb BITMASK_A500RES =? 0 in
  let clk_high := negb (Z.land pinb BITMASK_A500CLK =? 0) in
  let sp_high := negb (Z.land pinb BITMASK_A500SP =? 0) in
  let st := keyboardState d in
  let goto k := mkDecoder k (handshakeTimer d) (currentKeyCode d) (bitIndex d) (spOutput d) in
  if res_low && negb (is_WAIT_RES st) then (goto WAIT_RES, ResetChord)
  else match st with
  | WAIT_RES => if negb res_low then (goto SYNCH_HI, NoAction) else (d, NoAction)
  | SYNCH_HI => if negb clk_high then (goto SYNCH_LO, NoAction) else (d, NoAction)
  | SYNCH_LO => if clk_high then (goto HANDSHAKE, NoAction) else (d, NoAction)
  | HANDSHAKE =>
      if handshakeTimer d =? 0 then
        (mkDecoder HANDSHAKE micros (currentKeyCode d) (bitIndex d) true, NoAction)
      else if u32 (micros - handshakeTimer d) >? MIN_HANDSHAKE_WAIT_TIME then
        (mkDecoder WAIT_LO 0 0 7 false, NoAction)
      else (d, NoAction)
  | READ =>
      if clk_high then
        if negb (bitIndex d =? 0) then
          let bi := u8 (bitIndex d - 1) in
          let bit := if sp_high then 0 else 1 in
          (mkDecoder WAIT_LO (handshakeTimer d)
             (u8 (Z.lor (currentKeyCode d) (Z.shiftl bit bi))) bi (spOutput d), NoAction)
        else
          (mkDecoder HANDSHAKE (handshakeTimer d) (currentKeyCode d) 255 (spOutput d),
           KeyMessage (currentKeyCode d) sp_high)
      else (d, NoAction)
  | WAIT_LO => if negb clk_high then (goto READ, NoAction) else (d, NoAction)
  end.

Definition handleKeyboard (d : Decoder) (pinb micros : Z) : M Decoder :=
  let '(d', a) := kb_step d pinb micros in
  match a with
  | NoAction => ret d'
  | ResetChord => keystroke 0x4C 0x05 ;;; modify (set_functionMode false) ;;; ret d'
  | KeyMessage k down => processKeyCode k down ;;; ret d'
  end.

(** ** Runs of the decoder and of the dispatcher *)

(** Poll the decoder over a list of [(PINB, micros())] samples; the actions
    other than [NoAction] are collected in order. *)
Fixpoint kb_run (d : Decoder) (polls : list (Z * Z)) : Decoder * list KbAction :=
  match polls with
  | [] => (d, [])
  | (pinb, us) :: t =>
      let '(d1, a) := kb_step d pinb us in
      let '(d2, acts) := kb_run d1 t in
      (d2, match a with NoAction => acts | _ => a :: acts end)
  end.

(** Feed decoded key events to [processKeyCode], one after the other. *)
Fixpoint run_events (evs : list (Z * bool)) : M unit :=
  match evs with
  | [] => ret tt
  | (k, p) :: t => processKeyCode k p ;;; run_events t
  end.

(** [PINB] with the reset line released, the clock and data lines as given. *)
Definition pin (clk sp : bool) : Z :=
  BITMASK_A500RES + (if clk then BITMASK_A500CLK else 0) + (if sp then BITMASK_A500SP else 0).

(** One transmitted bit: the keyboard drives the data line with the inverted
    bit, pulls the clock low and releases it. *)
Definition bit_polls (v : bool) : list (Z * Z) :=
  [(pin false (negb v), 0); (pin true (negb v), 0)].

(** The bits of a key message in transmission order: bits 6 to 0 of the key
    code, then the up/down flag (1 for a release). *)
Definition message_bits (k : Z) (isPressed : bool) : list bool :=
  map (Z.testbit k) [6; 5; 4; 3; 2; 1; 0] ++ [negb isPressed].

Definition wire_polls (k : Z) (isPressed : bool) : list (Z * Z) :=
  flat_map bit_polls (message_bits k isPressed).

(** The two polls of the handshake pulse, at [micros()] = t1 and t2. *)
Definition handshake_polls (t1 t2 : Z) : list (Z * Z) :=
  [(pin true true, t1); (pin true true, t2)].

(** The globals right after [setup()] resets the reports, with an erased
    (all [0xFF]) EEPROM whose load has cleared the macros. *)
Definition boot_state : State :=
  mkState emptyReport (mkKeyReport 255 (repeat 255 6%nat)) emptyReport
          (mkKeyReport 255 (repeat 255 6%nat)) 0 [] zeroMacros
          (repeat stoppedPlay (Z.to_nat MACRO_SLOTS)) false false false 0 0 false false 0
          (repeat 255 (Z.to_nat SIZE_OF_EEPROM)) 0.

(** The decoder as it stands when a handshake is about to start. *)
Definition decoder_at_handshake : Decoder := mkDecoder HANDSHAKE 0 0 255 false.

(** HID usage of an Amiga key, [keyTable[k]]. *)
Definition hid_of (k : Z) : Z := nth (Z.to_nat k) keyTable 0.

(** The live report after [keyPress] / [keyRelease] of [k] (from the code). *)
Definition press_report (r : KeyReport) (k : Z) : KeyReport :=
  if isAmigaModifierKey k then mkKeyReport (Z.lor (modifiers r) (hid_of k)) (keys r)
  else mkKeyReport (modifiers r) (press_slot (keys r) (hid_of k)).

Definition release_report (r : KeyReport) (k : Z) : KeyReport :=
  if isAmigaModifierKey k then mkKeyReport (Z.land (modifiers r) (Z.lnot (hid_of k))) (keys r)
  else mkKeyReport (modifiers r) (release_slots (keys r) (hid_of k)).

(** k's HID code is not held in the report: its modifier bits are clear, or
    (other keys) its code occupies no slot. *)
Definition not_held (r : KeyReport) (k : Z) : Prop :=
  if isAmigaModifierKey k then Z.land (modifiers r) (hid_of k) = 0
  else hid_of k = 0 \/ ~ In (hid_of k) (keys r).

(** The non-empty key slots. *)
Definition nonzero_keys (ks : list Z) : list Z := filter (fun x => negb (x =? 0)) ks.

(** Reports reachable from the all-zero report by [keyPress] and [keyRelease]
    calls where no key is pressed while its HID code already sits in a slot. *)
Inductive guarded_reach : State -> Prop :=
  | gr_init s : keyReport s = emptyReport -> guarded_reach s
  | gr_press s k s' :
      guarded_reach s -> 0 <= k < AMIGA_KEY_COUNT ->
      (isAmigaModifierKey k = true \/ hid_of k = 0 \/ ~ In (hid_of k) (keys (keyReport s))) ->
      keyPress k s = Some (tt, s') -> guarded_reach s'
  | gr_release s k s' :
      guarded_reach s -> 0 <= k < AMIGA_KEY_COUNT ->
      keyRelease k s = Some (tt, s') -> guarded_reach s'.

(** ** Concrete inputs *)

(** The keys the 'Help' layer of [handleFunctionModeKey] acts on. *)
Definition function_layer_codes : list Z :=
  [AMIGA_KEY_F1; AMIGA_KEY_F2; AMIGA_KEY_NUMPAD_ASTERISK_PTRSCR; AMIGA_KEY_NUMPAD_0;
   AMIGA_KEY_F3; AMIGA_KEY_F4; AMIGA_KEY_F5; AMIGA_KEY_BACKSPACE; AMIGA_KEY_DELETE;
   AMIGA_KEY_R; AMIGA_KEY_F6; AMIGA_KEY_F7; AMIGA_KEY_F8; AMIGA_KEY_F9; AMIGA_KEY_F10;
   AMIGA_KEY_ARROW_UP; AMIGA_KEY_ARROW_DOWN; AMIGA_KEY_ARROW_RIGHT; AMIGA_KEY_ARROW_LEFT;
   AMIGA_KEY_RETURN; AMIGA_KEY_SPACE; AMIGA_KEY_M].

(** The state after key A (0x20) is pressed on a freshly booted sketch. *)
Definition after_press_A : State :=
  match keyPress 0x20 boot_state with Some (_, s) => s | None => boot_state end.

(** Two slots playing and a macro key held in the macro report. *)
Definition playing_slot : MacroPlayStatus := mkPlay true false 0 0.

Definition two_playing_state : State :=
  set_macroKeyReport (mkKeyReport 0 [4;0;0;0;0;0])
    (set_macroPlayStatus [playing_slot; playing_slot; stoppedPlay; stoppedPlay; stoppedPlay]
       boot_state).


(** All six key slots taken and macro slot 0 playing. *)
Definition full_report : KeyReport := mkKeyReport 0 [4;5;6;7;8;9].

Definition full_report_state : State :=
  set_keyReport full_report (set_prevkeyReport full_report
    (set_macroPlayStatus [playing_slot; stoppedPlay; stoppedPlay; stoppedPlay; stoppedPlay]
       boot_state)).

(** A booted sketch whose previous report has been sent once. *)
Definition synced_boot_state : State := set_prevkeyReport emptyReport boot_state.

(** ** Reading the EEPROM image back *)

(** [EEPROM.get] of one [MacroKeyEvent] from its six bytes. *)
Definition decode_event (bs : list Z) : MacroKeyEvent :=
  match bs with k :: p :: d => mkEvent k p (le_value d) | _ => zeroEvent end.

Fixpoint decode_events (n : nat) (l : list Z) : list MacroKeyEvent :=
  match n with
  | O => []
  | S n' => decode_event (firstn SIZEOF_EVENT l) :: decode_events n' (skipn SIZEOF_EVENT l)
  end.

(** [n] slots of [MAX_MACRO_LENGTH] events and a length byte each. *)
Fixpoint decode_slots (n : nat) (l : list Z) : list Macro :=
  match n with
  | O => []
  | S n' => mkMacro (decode_events 32 l) (le_value (firstn 1 (skipn 192 l)))
              :: decode_slots n' (skipn 193 l)
  end.

(** What [saveMacrosToEEPROM] writes from address 0: the version byte, the
    two-byte size, the macros and the four-byte checksum (972 bytes). *)
Definition eeprom_image (ms : list Macro) : list Z :=
  [MACRO_SAVE_VERSION] ++ le_bytes SIZEOF_SIZE_T SIZEOF_MACROS ++ macros_image ms
    ++ le_bytes 4 (adler32 (macros_image ms)).

(** The values the C types allow: [uint8_t] fields, a [uint32_t] delay, and
    five slots of [MAX_MACRO_LENGTH] events. *)
Definition is_byte (b : Z) : bool := (0 <=? b) && (b <? 256).

Definition wf_event (ev : MacroKeyEvent) : bool :=
  is_byte (ev_keyCode ev) && is_byte (ev_isPressed ev)
  && (0 <=? ev_delay ev) && (ev_delay ev <? 4294967296).

Definition wf_macro (m : Macro) : bool :=
  (length (keyEvents m) =? 32)%nat && forallb wf_event (keyEvents m)
  && is_byte (macro_length m).

Definition wf_macros (ms : list Macro) : bool :=
  (length ms =? 5)%nat && forallb wf_macro ms.

Definition zsum (l : list Z) : Z := fold_right Z.add 0 l.

(** A booted sketch with one recorded event (A pressed) in slot 0. *)
Definition sample_macros : list Macro :=
  upd zeroMacros 0 (mkMacro (upd (keyEvents zeroMacro) 0 (mkEvent 0x20 1 0)) 1).

Definition sample_state : State := set_macros sample_macros boot_state.

(** ** The macro virtual keyboard and macro playback *)

Definition MACRO_DELAY : Z := 20.

(** [keyPressMacro] / [keyReleaseMacro]: the live-report edits, on
    [macroKeyReport], sent with [sendReportMacro]. *)
Definition keyPressMacro (keyCode : Z) : M unit :=
  hidCode <- keyTable_at keyCode ;;
  modify (fun s =>
    let r := macroKeyReport s in
    if isAmigaModifierKey keyCode
    then set_macroKeyReport (mkKeyReport (Z.lor (modifiers r) hidCode) (keys r)) s
    else set_macroKeyReport (mkKeyReport (modifiers r) (press_slot (keys r) hidCode)) s) ;;;
  sendReportMacro.

Definition keyReleaseMacro (keyCode : Z) : M unit :=
  hidCode <- keyTable_at keyCode ;;
  modify (fun s =>
    let r := macroKeyReport s in
    if isAmigaModifierKey keyCode
    then set_macroKeyReport (mkKeyReport (Z.land (modifiers r) (Z.lnot hidCode)) (keys r)) s
    else set_macroKeyReport (mkKeyReport (modifiers r) (release_slots (keys r) hidCode)) s) ;;;
  sendReportMacro.

Definition isMacroPlaying (s : State) : bool :=
  existsb playing (firstn (Z.to_nat MACRO_SLOTS) (macroPlayStatus s)).

(** [macros[slot].keyEvents[i]]; an index past the [MAX_MACRO_LENGTH]
    events leaves the array ([None]). *)
Definition event_at (slot : nat) (i : Z) : M MacroKeyEvent :=
  fun s => match nth_error (keyEvents (nth slot (macros s) zeroMacro)) (Z.to_nat i) with
           | Some ev => Some (ev, s)
           | None => None
           end.

Definition status_of (slot : nat) (s : State) : MacroPlayStatus :=
  nth slot (macroPlayStatus s) stoppedPlay.

Definition set_status (slot : nat) (p : MacroPlayStatus) (s : State) : State :=
  set_macroPlayStatus (upd (macroPlayStatus s) slot p) s.

(** The [while] loop of [playMacro] for one slot.  [macroIndex] is a
    [uint8_t] that grows by one per iteration and stays below the length byte,
    so [PLAY_FUEL] iterations always reach the loop exit. *)
Definition PLAY_FUEL : nat := 256.

Fixpoint play_events (fuel slot : nat) (currentTime nextDelay : Z) : M unit :=
  match fuel with
  | O => ret tt
  | S fuel' =>
      s <- get ;;
      let ps := status_of slot s in
      if (macroIndex ps <? macro_length (nth slot (macros s) zeroMacro))
         && (nextDelay <=? u32 (currentTime - playStartTime ps)) then
        ev <- event_at slot (macroIndex ps) ;;
        (if negb (ev_isPressed ev =? 0) then keyPressMacro (ev_keyCode ev)
         else keyReleaseMacro (ev_keyCode ev)) ;;;
        s1 <- get ;;
        let ps1 := status_of slot s1 in
        let idx := u8 (macroIndex ps1 + 1) in
        put (set_status slot (mkPlay (playing ps1) (loop ps1) idx (playStartTime ps1)) s1) ;;;
        s2 <- get ;;
        if idx <? macro_length (nth slot (macros s2) zeroMacro) then
          if robotMacroMode s2 then play_events fuel' slot currentTime (idx * MACRO_DELAY)
          else ev' <- event_at slot idx ;; play_events fuel' slot currentTime (ev_delay ev')
        else play_events fuel' slot currentTime nextDelay
      else ret tt
  end.

(** One slot of the [for] loop of [playMacro]. *)
Definition play_slot (slot : nat) (currentTime : Z) : M unit :=
  s <- get ;;
  let ps := status_of slot s in
  if playing ps then
    ev <- event_at slot (macroIndex ps) ;;
    let nextDelay := if robotMacroMode s then macroIndex ps * MACRO_DELAY else ev_delay ev in
    play_events PLAY_FUEL slot currentTime nextDelay ;;;
    s1 <- get ;;
    let ps1 := status_of slot s1 in
    if macroIndex ps1 >=? macro_length (nth slot (macros s1) zeroMacro) then
      if loop ps1 then put (set_status slot (mkPlay (playing ps1) (loop ps1) 0 (now s1)) s1)
      else put (set_status slot (mkPlay false (loop ps1) 0 0) s1)
    else ret tt
  else ret tt.

Fixpoint play_slots (slots : list nat) (currentTime : Z) : M unit :=
  match slots with
  | [] => ret tt
  | i :: t => play_slot i currentTime ;;; play_slots t currentTime
  end.

(** [playMacro()]; its [static uint32_t lastMacroTime] is passed in and
    returned. *)
Definition playMacro (lastMacroTime : Z) : M Z :=
  s <- get ;;
  if recording s then ret lastMacroTime
  else
    let currentTime := now s in
    if u32 (now s - lastMacroTime) >=? MACRO_DELAY then
      play_slots (seq 0 (Z.to_nat MACRO_SLOTS)) currentTime ;;;
      s' <- get ;;
      ret (now s')
    else ret lastMacroTime.

(** ** [setup()], [loop()] and the unused [releaseAll()] *)

(** A report with every byte [0xFF] ([memset(&r, 0xFF, sizeof(KeyReport))]). *)
Definition ffReport : KeyReport := mkKeyReport 255 (repeat 255 6%nat).

Definition setup : M unit :=
  loadMacrosFromEEPROM ;;;
  modify (fun s => set_macroPrevkeyReport ffReport (set_macroKeyReport emptyReport
                     (set_prevkeyReport ffReport (set_keyReport emptyReport s)))).

(** One pass of [loop()] (joysticks disabled): the decoder's statics and
    [lastMacroTime] are threaded through. *)
Definition sketch_loop (d : Decoder) (lastMacroTime pinb micros : Z) : M (Decoder * Z) :=
  d' <- handleKeyboard d pinb micros ;;
  lm <- playMacro lastMacroTime ;;
  ret (d', lm).

Definition resetReport : M unit := modify (set_keyReport emptyReport).

Definition releaseAll : M unit := resetReport ;;; sendReport.

(** The decoder's statics at power-up. *)
Definition initial_decoder : Decoder := mkDecoder SYNCH_HI 0 0 0 false.

(** ** Vocabulary for the statements about macro playback *)

(** The effect of one macro event on the macro report, as [playMacro]
    dispatches it to [keyPressMacro] or [keyReleaseMacro]. *)
Definition apply_event (r : KeyReport) (ev : MacroKeyEvent) : KeyReport :=
  if negb (ev_isPressed ev =? 0) then press_report r (ev_keyCode ev)
  else release_report r (ev_keyCode ev).

(** The time from the start of playback at which event [j] is due: its
    recorded delay, or [j * MACRO_DELAY] in robot mode. *)
Definition threshold (robot : bool) (evs : list MacroKeyEvent) (j : nat) : Z :=
  if robot then Z.of_nat j * MACRO_DELAY else ev_delay (nth j evs zeroEvent).

(** Reports of the macro virtual keyboard. *)
Definition macro_out (o : HidOut) : Prop := exists r, o = KbdOut HID_ID_MACROVKEYS r.

(** What playback may change: the macro report and its last sent copy and
    the play status (a slot may stop, never start); the HID log only grows,
    by macro-keyboard reports. *)
Definition macro_frame (s s' : State) : Prop :=
  keyReport s' = keyReport s /\ prevkeyReport s' = prevkeyReport s /\ mmKeys s' = mmKeys s /\
  macros s' = macros s /\ eeprom s' = eeprom s /\ recording s' = recording s /\
  robotMacroMode s' = robotMacroMode s /\ now s' = now s /\
  length (macroPlayStatus s') = length (macroPlayStatus s) /\
  (forall i, playing (status_of i s') = true -> playing (status_of i s) = true) /\
  exists out, hidLog s' = hidLog s ++ out /\ Forall macro_out out.

(** Every run of [m] from [s] stays within [macro_frame]. *)
Definition pres_at {A} (s : State) (m : M A) : Prop :=
  forall a s', m s = Some (a, s') -> macro_frame s s'.

(** ** Vocabulary for the further properties *)

(** The number of playing slots among the first [n] statuses. *)
Definition count_playing (n : nat) (l : list MacroPlayStatus) : nat :=
  length (filter playing (firstn n l)).

(** The ranges the decoder keeps while assembling a key code. *)
Definition decoder_inv (d : Decoder) : Prop :=
  match keyboardState d with
  | READ | WAIT_LO => 0 <= bitIndex d <= 7 /\ 0 <= currentKeyCode d < 128
  | _ => True
  end.

(** A decoded key message carries a 7-bit code. *)
Definition code7 (a : KbAction) : Prop :=
  match a with KeyMessage k _ => 0 <= k < 128 | _ => True end.

(** [stopRecording]'s rewrite of one event's delay relative to the first. *)
Definition rebase (d0 : Z) (ev : MacroKeyEvent) : MacroKeyEvent :=
  mkEvent (ev_keyCode ev) (ev_isPressed ev) (u32 (ev_delay ev - d0)).

(** The event [record_key] stores for a key at [millis()] [t]. *)
Definition recorded_event (e : Z * bool * Z) : MacroKeyEvent :=
  let '(k, p, t) := e in mkEvent k (if p then 1 else 0) t.

(** Key events reaching [record_key], each at the [millis()] value given with it. *)
Fixpoint record_run (evs : list (Z * bool * Z)) : M unit :=
  match evs with
  | [] => ret tt
  | (k, p, t) :: r => modify (set_now t) ;;; record_key k p ;;; record_run r
  end.

(** Slot 0 of [sample_state] playing once, started at time 0, at time 100. *)
Definition sample_playing_state : State :=
  set_now 100 (set_macroPlayStatus (upd (macroPlayStatus sample_state) 0 (mkPlay true false 0 0))
                 sample_state).

(** A booted sketch recording into slot 0 from index 0. *)
Definition recording_state : State := set_recording true (set_recordingSlot true boot_state).

(** A booted sketch whose EEPROM holds the image of [sample_macros]. *)
Definition saved_state : State :=
  set_eeprom (eeprom_image sample_macros ++ skipn 972 (eeprom boot_state)) boot_state.

(** * Proofs *)

(** ** Computations that cannot fail *)

Definition total {A} (m : M A) : Prop := forall s, exists a s', m s = Some (a, s').

Lemma total_ret {A} (a : A) : total (ret a).
Proof. intros s. exists a, s. reflexivity. Qed.

Lemma total_get : total get.
Proof. intros s. exists s, s. reflexivity. Qed.

Lemma total_put s0 : total (put s0).
Proof. intros s. exists tt, s0. reflexivity. Qed.

Lemma total_modify f : total (modify f).
Proof. intros s. exists tt, (f s). reflexivity. Qed.

Lemma total_bind {A B} (m : M A) (f : A -> M B) :
  total m -> (forall a, total (f a)) -> total (bind m f).
Proof.
  intros Hm Hf s. destruct (Hm s) as (a & s1 & E).
  destruct (Hf a s1) as (b & s2 & E2). exists b, s2.
  unfold bind. rewrite E. exact E2.
Qed.

Create HintDb total.
#[export] Hint Resolve total_ret total_get total_put total_modify : total.

Ltac total_step :=
  match goal with
  | |- total (bind _ _) => apply total_bind; [ | intros ?]
  | |- total (if ?b then _ else _) => destruct b
  | |- total (match ?x with _ => _ end) => destruct x
  | |- total _ => solve [eauto with total]
  end.

Ltac prove_total := repeat total_step.

Lemma total_sendReport : total sendReport.
Proof. unfold sendReport. prove_total. Qed.
#[export] Hint Resolve total_sendReport : total.

Lemma total_delay ms : total (delay ms).
Proof. unfold delay. prove_total. Qed.
#[export] Hint Resolve total_delay : total.

Lemma total_releaseAllMacro : total releaseAllMacro.
Proof. unfold releaseAllMacro, resetReportMacro, sendReportMacro. prove_total. Qed.
#[export] Hint Resolve total_releaseAllMacro : total.

Lemma total_keystroke k m : total (keystroke k m).
Proof. unfold keystroke. prove_total. Qed.
#[export] Hint Resolve total_keystroke : total.

Lemma total_multimediaKeystroke k : total (multimediaKeystroke k).
Proof. unfold multimediaKeystroke, sendMultimediaKey, releaseMultimediaKey. prove_total. Qed.
#[export] Hint Resolve total_multimediaKeystroke : total.

Lemma total_saveMacrosToEEPROM : total saveMacrosToEEPROM.
Proof. unfold saveMacrosToEEPROM. prove_total. Qed.
#[export] Hint Resolve total_saveMacrosToEEPROM : total.

Lemma total_stopAllMacros : total stopAllMacros.
Proof. unfold stopAllMacros. prove_total. Qed.
#[export] Hint Resolve total_stopAllMacros : total.

Lemma total_playMacroSlot n : total (playMacroSlot n).
Proof. unfold playMacroSlot. prove_total. Qed.
#[export] Hint Resolve total_playMacroSlot : total.

Lemma total_startRecording : total startRecording.
Proof. unfold startRecording. prove_total. Qed.
#[export] Hint Resolve total_startRecording : total.

Lemma total_stopRecording : total stopRecording.
Proof. unfold stopRecording. prove_total. Qed.
#[export] Hint Resolve total_stopRecording : total.

Lemma total_resetMacros : total resetMacros.
Proof. unfold resetMacros, cleanMacros. prove_total. Qed.
#[export] Hint Resolve total_resetMacros : total.

Lemma total_record_key k p : total (record_key k p).
Proof. unfold record_key. prove_total. Qed.
#[export] Hint Resolve total_record_key : total.

Lemma total_handleFunctionModeKey k : total (handleFunctionModeKey k).
Proof. unfold handleFunctionModeKey. prove_total. Qed.
#[export] Hint Resolve total_handleFunctionModeKey : total.

Lemma total_keyTable_at k : 0 <= k < AMIGA_KEY_COUNT -> total (keyTable_at k).
Proof.
  intros Hk s. unfold keyTable_at.
  replace ((0 <=? k) && (k <? Z.of_nat (length keyTable))) with true; [eexists; eexists; reflexivity|].
  symmetry. apply andb_true_intro. cbn [length keyTable Z.of_nat]. unfold AMIGA_KEY_COUNT in Hk.
  split; [apply Z.leb_le | apply Z.ltb_lt]; simpl; lia.
Qed.

Lemma total_keyPress k : 0 <= k < AMIGA_KEY_COUNT -> total (keyPress k).
Proof.
  intros Hk. unfold keyPress. apply total_bind; [prove_total | intros _].
  apply total_bind; [apply total_keyTable_at; exact Hk | intros h]. prove_total.
Qed.

Lemma total_keyRelease k : 0 <= k < AMIGA_KEY_COUNT -> total (keyRelease k).
Proof.
  intros Hk. unfold keyRelease. apply total_bind; [prove_total | intros _].
  apply total_bind; [apply total_keyTable_at; exact Hk | intros h]. prove_total.
Qed.

Lemma total_processKeyCode k p : 0 <= k -> total (processKeyCode k p).
Proof.
  intros Hk. unfold processKeyCode.
  destruct (k <? AMIGA_KEY_COUNT) eqn:Hlt; simpl negb; cbv iota; [|prove_total].
  apply Z.ltb_lt in Hlt.
  apply total_bind; [prove_total | intros s].
  repeat match goal with
  | |- total (if ?b then _ else _) => destruct b
  end; try prove_total.
  - apply total_keyPress; lia.
  - apply total_keyRelease; lia.
Qed.

(** ** The decoder *)

Lemma kb_run_handshake d t1 t2 rest :
  keyboardState d = HANDSHAKE -> handshakeTimer d = 0 ->
  0 < t1 -> MIN_HANDSHAKE_WAIT_TIME < u32 (t2 - t1) ->
  kb_run d (handshake_polls t1 t2 ++ rest) = kb_run (mkDecoder WAIT_LO 0 0 7 false) rest.
Proof.
  destruct d as [st tm cur bi sp]; simpl. intros -> -> Ht1 Ht2.
  unfold handshake_polls. simpl app. cbn [kb_run].
  unfold kb_step at 1. simpl.
  unfold kb_step at 1. simpl.
  replace (t1 =? 0) with false by (symmetry; apply Z.eqb_neq; lia).
  replace (u32 (t2 - t1) >? MIN_HANDSHAKE_WAIT_TIME) with true
    by (symmetry; apply Z.gtb_lt; lia).
  destruct (kb_run (mkDecoder WAIT_LO 0 0 7 false) rest). reflexivity.
Qed.

Lemma kb_run_message_7bit k f :
  0 <= k < 128 ->
  kb_run (mkDecoder WAIT_LO 0 0 7 false) (wire_polls k f) =
  (mkDecoder HANDSHAKE 0 k 255 false, [KeyMessage k f]).
Proof.
  intros Hk. rewrite <- (Z2Nat.id k) by lia.
  assert (Hn : (Z.to_nat k < 128)%nat) by lia.
  revert Hn. generalize (Z.to_nat k). clear k Hk. intros n Hn.
  do 128 (destruct n as [|n]; [destruct f; reflexivity|]).
  lia.
Qed.

(** ** The live report under keyPress and keyRelease *)

Ltac brute_frame :=
  repeat match goal with
  | |- context [if ?b then _ else _] => destruct b
  | |- context [match ?x with _ => _ end] => destruct x
  end; intros H; inversion H; reflexivity.

Lemma record_key_keyReport k p s a s' :
  record_key k p s = Some (a, s') -> keyReport s' = keyReport s.
Proof.
  unfold record_key, stopRecording, saveMacrosToEEPROM, bind, get, put, ret.
  cbn -[put_slots]. brute_frame.
Qed.

Lemma sendReport_keyReport s a s' :
  sendReport s = Some (a, s') -> keyReport s' = keyReport s.
Proof. unfold sendReport, modify. brute_frame. Qed.

Lemma keyTable_at_in k s :
  0 <= k < AMIGA_KEY_COUNT -> keyTable_at k s = Some (hid_of k, s).
Proof.
  intros Hk. unfold keyTable_at, hid_of.
  replace ((0 <=? k) && (k <? Z.of_nat (length keyTable))) with true; [reflexivity|].
  symmetry. apply andb_true_intro. unfold AMIGA_KEY_COUNT in Hk.
  split; [apply Z.leb_le | apply Z.ltb_lt]; simpl; lia.
Qed.

Lemma keyPress_report k s :
  0 <= k < AMIGA_KEY_COUNT ->
  exists s', keyPress k s = Some (tt, s') /\ keyReport s' = press_report (keyReport s) k.
Proof.
  intros Hk. destruct (total_record_key k true s) as ([] & s1 & E1).
  pose proof (record_key_keyReport _ _ _ _ _ E1) as R1.
  set (s2 := if isAmigaModifierKey k
             then set_keyReport (mkKeyReport (Z.lor (modifiers (keyReport s1)) (hid_of k))
                                  (keys (keyReport s1))) s1
             else set_keyReport (mkKeyReport (modifiers (keyReport s1))
                                  (press_slot (keys (keyReport s1)) (hid_of k))) s1).
  destruct (total_sendReport s2) as ([] & s3 & E3).
  exists s3. split.
  - unfold keyPress, bind at 1. rewrite E1. unfold bind at 1. rewrite keyTable_at_in by exact Hk.
    unfold bind, modify. exact E3.
  - rewrite (sendReport_keyReport _ _ _ E3). unfold s2, press_report. rewrite R1.
    destruct (isAmigaModifierKey k); reflexivity.
Qed.

Lemma keyRelease_report k s :
  0 <= k < AMIGA_KEY_COUNT ->
  exists s', keyRelease k s = Some (tt, s') /\ keyReport s' = release_report (keyReport s) k.
Proof.
  intros Hk. destruct (total_record_key k false s) as ([] & s1 & E1).
  pose proof (record_key_keyReport _ _ _ _ _ E1) as R1.
  set (s2 := if isAmigaModifierKey k
             then set_keyReport (mkKeyReport (Z.land (modifiers (keyReport s1)) (Z.lnot (hid_of k)))
                                  (keys (keyReport s1))) s1
             else set_keyReport (mkKeyReport (modifiers (keyReport s1))
                                  (release_slots (keys (keyReport s1)) (hid_of k))) s1).
  destruct (total_sendReport s2) as ([] & s3 & E3).
  exists s3. split.
  - unfold keyRelease, bind at 1. rewrite E1. unfold bind at 1. rewrite keyTable_at_in by exact Hk.
    unfold bind, modify. exact E3.
  - rewrite (sendReport_keyReport _ _ _ E3). unfold s2, release_report. rewrite R1.
    destruct (isAmigaModifierKey k); reflexivity.
Qed.

Lemma press_slot_cons x t h :
  x <> 0 -> press_slot (x :: t) h = x :: press_slot t h.
Proof.
  intros Hx. unfold press_slot. simpl.
  replace (x =? 0) with false by (symmetry; apply Z.eqb_neq; exact Hx).
  destruct (first_free t); reflexivity.
Qed.

Lemma press_slot_zero x t h : x = 0 -> press_slot (x :: t) h = h :: t.
Proof. intros ->. reflexivity. Qed.

Lemma release_slots_notin ks h : ~ In h ks -> release_slots ks h = ks.
Proof.
  induction ks as [|x t IH]; intros Hn; [reflexivity|]. simpl.
  replace (x =? h) with false by (symmetry; apply Z.eqb_neq; intros ->; apply Hn; left; reflexivity).
  f_equal. apply IH. intros Hi. apply Hn. right. exact Hi.
Qed.

Lemma release_slots_zero ks : release_slots ks 0 = ks.
Proof.
  induction ks as [|x t IH]; [reflexivity|]. simpl. rewrite IH.
  destruct (Z.eqb_spec x 0); subst; reflexivity.
Qed.

Lemma release_press_slot ks h :
  h = 0 \/ ~ In h ks -> release_slots (press_slot ks h) h = ks.
Proof.
  induction ks as [|x t IH]; intros Hh; [reflexivity|].
  destruct (Z.eqb_spec x 0) as [Hx|Hx].
  - rewrite press_slot_zero by exact Hx. simpl. rewrite Z.eqb_refl. subst x. f_equal.
    destruct Hh as [->|Hn]; [apply release_slots_zero|].
    apply release_slots_notin. intros Hi. apply Hn. right. exact Hi.
  - rewrite press_slot_cons by exact Hx. simpl.
    replace (x =? h) with false.
    + f_equal. apply IH. destruct Hh as [->|Hn]; [left; reflexivity|].
      right. intros Hi. apply Hn. right. exact Hi.
    + symmetry. apply Z.eqb_neq. intros ->. destruct Hh as [->|Hn]; [contradiction|].
      apply Hn. left. reflexivity.
Qed.

Lemma lor_land_lnot m h : Z.land m h = 0 -> Z.land (Z.lor m h) (Z.lnot h) = m.
Proof.
  intros H. apply Z.bits_inj'. intros n Hn.
  rewrite Z.land_spec, Z.lor_spec, Z.lnot_spec by exact Hn.
  assert (Hb : Z.testbit (Z.land m h) n = false) by (rewrite H; apply Z.bits_0).
  rewrite Z.land_spec in Hb.
  destruct (Z.testbit m n), (Z.testbit h n); simpl in *; congruence.
Qed.

Lemma release_press_report r k :
  not_held r k -> release_report (press_report r k) k = r.
Proof.
  unfold not_held, release_report, press_report. destruct r as [m ks]. simpl.
  destruct (isAmigaModifierKey k); simpl; intros H.
  - rewrite lor_land_lnot by exact H. reflexivity.
  - rewrite release_press_slot by exact H. reflexivity.
Qed.

Lemma press_slot_zero_code ks : press_slot ks 0 = ks.
Proof.
  induction ks as [|x t IH]; [reflexivity|].
  destruct (Z.eqb_spec x 0) as [Hx|Hx].
  - rewrite press_slot_zero by exact Hx. subst. reflexivity.
  - rewrite press_slot_cons by exact Hx. rewrite IH. reflexivity.
Qed.

Lemma in_press_slot y ks h : In y (press_slot ks h) -> y = h \/ In y ks.
Proof.
  induction ks as [|x t IH]; [simpl; tauto|].
  destruct (Z.eqb_spec x 0) as [Hx|Hx].
  - rewrite press_slot_zero by exact Hx. simpl. intros [<-|Hi]; [left; reflexivity|].
    right; right; exact Hi.
  - rewrite press_slot_cons by exact Hx. simpl. intros [<-|Hi]; [right; left; reflexivity|].
    destruct (IH Hi) as [E|E]; [left; exact E | right; right; exact E].
Qed.

Lemma in_nonzero_keys y ks : In y (nonzero_keys ks) <-> In y ks /\ y <> 0.
Proof.
  unfold nonzero_keys. rewrite filter_In.
  destruct (Z.eqb_spec y 0); simpl; intuition congruence.
Qed.

Lemma nodup_press_slot ks h :
  h <> 0 -> ~ In h ks -> NoDup (nonzero_keys ks) -> NoDup (nonzero_keys (press_slot ks h)).
Proof.
  induction ks as [|x t IH]; intros Hh Hn Hd; [exact Hd|].
  destruct (Z.eqb_spec x 0) as [Hx|Hx].
  - rewrite press_slot_zero by exact Hx. subst x.
    unfold nonzero_keys in *. simpl in *.
    replace (h =? 0) with false by (symmetry; apply Z.eqb_neq; exact Hh). simpl.
    constructor; [|exact Hd].
    intros Hi. apply (in_nonzero_keys h t) in Hi. apply Hn. right. apply Hi.
  - rewrite press_slot_cons by exact Hx.
    unfold nonzero_keys in *. simpl in *.
    replace (x =? 0) with false in * by (symmetry; apply Z.eqb_neq; exact Hx). simpl in *.
    inversion Hd as [|? ? Hnx Hdt]; subst.
    constructor.
    + intros Hi. apply (in_nonzero_keys x) in Hi. destruct Hi as [Hi _].
      destruct (in_press_slot _ _ _ Hi) as [E|E].
      * apply Hn. left. exact E.
      * apply Hnx. apply in_nonzero_keys. split; assumption.
    + apply IH; [exact Hh | intros Hi; apply Hn; right; exact Hi | exact Hdt].
Qed.

Lemma in_release_slots y ks h : In y (release_slots ks h) -> y = 0 \/ In y ks.
Proof.
  unfold release_slots. rewrite in_map_iff. intros (x & <- & Hx).
  destruct (x =? h); [left; reflexivity | right; exact Hx].
Qed.

Lemma nodup_release_slots ks h :
  NoDup (nonzero_keys ks) -> NoDup (nonzero_keys (release_slots ks h)).
Proof.
  induction ks as [|x t IH]; intros Hd; [exact Hd|].
  cbn [release_slots map]. fold (release_slots t h).
  assert (Hdt : NoDup (nonzero_keys t)).
  { unfold nonzero_keys in *. simpl in Hd. destruct (negb (x =? 0)); [inversion Hd; assumption | exact Hd]. }
  destruct (x =? h).
  - unfold nonzero_keys at 1. simpl. apply IH. exact Hdt.
  - unfold nonzero_keys at 1. simpl. destruct (Z.eqb_spec x 0) as [Hx|Hx]; simpl.
    + apply IH. exact Hdt.
    + constructor; [|apply IH; exact Hdt].
      intros Hi. apply in_nonzero_keys in Hi. destruct Hi as [Hi _].
      destruct (in_release_slots _ _ _ Hi) as [E|E]; [contradiction|].
      unfold nonzero_keys in Hd. simpl in Hd.
      replace (x =? 0) with false in Hd by (symmetry; apply Z.eqb_neq; exact Hx).
      inversion Hd as [|? ? Hnx _]. apply Hnx. apply in_nonzero_keys. split; assumption.
Qed.

Lemma guarded_reach_nodup s : guarded_reach s -> NoDup (nonzero_keys (keys (keyReport s))).
Proof.
  induction 1 as [s Hs | s k s' Hr IH Hk Hg E | s k s' Hr IH Hk E].
  - rewrite Hs. constructor.
  - destruct (keyPress_report k s Hk) as (s1 & E1 & R1).
    rewrite E in E1. injection E1 as <-. rewrite R1. unfold press_report.
    destruct (isAmigaModifierKey k) eqn:Hm; [exact IH|]. simpl.
    destruct Hg as [Hg|[Hg|Hg]]; [discriminate | rewrite Hg, press_slot_zero_code; exact IH|].
    destruct (Z.eqb_spec (hid_of k) 0) as [Hz|Hz].
    + rewrite Hz, press_slot_zero_code. exact IH.
    + apply nodup_press_slot; assumption.
  - destruct (keyRelease_report k s Hk) as (s1 & E1 & R1).
    rewrite E in E1. injection E1 as <-. rewrite R1. unfold release_report.
    destruct (isAmigaModifierKey k); [exact IH|]. simpl. apply nodup_release_slots. exact IH.
Qed.

Lemma nth_upd_same {A} (l : list A) i x d : (i < length l)%nat -> nth i (upd l i x) d = x.
Proof.
  revert i; induction l as [|y t IH]; intros i Hi; [simpl in Hi; lia|].
  destruct i; [reflexivity|]. simpl. apply IH. simpl in Hi. lia.
Qed.

Lemma nth_upd_other {A} (l : list A) i j x d : i <> j -> nth i (upd l j x) d = nth i l d.
Proof.
  revert i j; induction l as [|y t IH]; intros i j Hij; [reflexivity|].
  destruct i, j; simpl; try reflexivity; [congruence|]. apply IH. congruence.
Qed.

Lemma nth_upd_default {A} (l : list A) i x d : (length l <= i)%nat -> nth i (upd l i x) d = d.
Proof.
  revert i; induction l as [|y t IH]; intros i Hi; [destruct i; reflexivity|].
  destruct i; simpl in Hi; [lia|]. simpl. apply IH. lia.
Qed.

Lemma playMacroSlot_full_branch n s :
  nMacrosPlaying s = CONCURENT_MACROS ->
  playMacroSlot n s =
    sendReportMacro (set_macroKeyReport emptyReport
      (set_macroPlayStatus (upd (macroPlayStatus s) (Z.to_nat n) stoppedPlay) s)).
Proof.
  intros Hc. unfold playMacroSlot, bind, get, put.
  rewrite Hc. rewrite andb_false_r. reflexivity.
Qed.

Lemma handleFunctionModeKey_ignoreNextRelease c s a s' :
  handleFunctionModeKey c s = Some (a, s') -> ignoreNextRelease s' = c.
Proof.
  unfold handleFunctionModeKey, keystroke, startRecording, stopRecording, stopAllMacros,
    resetMacros, playMacroSlot, multimediaKeystroke, sendMultimediaKey, releaseMultimediaKey,
    releaseAllMacro, resetReportMacro, sendReportMacro, sendReport, delay, cleanMacros,
    saveMacrosToEEPROM, bind, get, put, ret, modify.
  cbn -[put_slots].
  brute_frame.
Qed.

Lemma zlist_eqb_true_iff a b : zlist_eqb a b = true <-> a = b.
Proof.
  revert b; induction a as [|x a IH]; intros [|y b]; simpl; try (split; congruence).
  rewrite andb_true_iff, Z.eqb_eq, IH. split; [intros [-> ->]; reflexivity|].
  intros H; injection H as -> ->. split; reflexivity.
Qed.

Lemma report_eqb_true_iff a b : report_eqb a b = true <-> a = b.
Proof.
  destruct a as [ma ka], b as [mb kb]. unfold report_eqb. simpl.
  rewrite andb_true_iff, Z.eqb_eq, zlist_eqb_true_iff.
  split; [intros [-> ->]; reflexivity | intros H; injection H as -> ->; split; reflexivity].
Qed.

Lemma report_eqb_false a b : a <> b -> report_eqb a b = false.
Proof.
  intros H. destruct (report_eqb a b) eqn:E; [|reflexivity].
  apply report_eqb_true_iff in E. contradiction.
Qed.

Lemma first_free_spec ks i :
  first_free ks = Some i -> (i < length ks)%nat /\ nth i ks 0 = 0.
Proof.
  revert i; induction ks as [|x t IH]; intros i; simpl; [discriminate|].
  destruct (Z.eqb_spec x 0) as [Hx|Hx].
  - intros H; injection H as <-. split; [lia | exact Hx].
  - destruct (first_free t) as [j|]; simpl; [|discriminate].
    intros H; injection H as <-. destruct (IH j eq_refl). split; [lia | assumption].
Qed.

Lemma upd_upd_same {A} (l : list A) i x y : upd (upd l i x) i y = upd l i y.
Proof.
  revert i; induction l as [|z t IH]; intros i; [reflexivity|].
  destruct i; simpl; [reflexivity | rewrite IH; reflexivity].
Qed.

Lemma upd_nth_same {A} (l : list A) i d : upd l i (nth i l d) = l.
Proof.
  revert i; induction l as [|z t IH]; intros i; [reflexivity|].
  destruct i; simpl; [reflexivity | rewrite IH; reflexivity].
Qed.

Lemma reset_branch d pinb micros :
  is_WAIT_RES (keyboardState d) = false ->
  Z.land pinb BITMASK_A500RES = 0 ->
  kb_step d pinb micros =
    (mkDecoder WAIT_RES (handshakeTimer d) (currentKeyCode d) (bitIndex d) (spOutput d),
     ResetChord).
Proof.
  intros Hw Hr. unfold kb_step. rewrite Hw, Hr. reflexivity.
Qed.

(** ** The EEPROM image *)

Lemma length_event_bytes ev : length (event_bytes ev) = 6%nat.
Proof. reflexivity. Qed.

Lemma length_events_bytes evs :
  length (concat (map event_bytes evs)) = (6 * length evs)%nat.
Proof.
  induction evs as [|ev t IH]; [reflexivity|].
  cbn [map concat length]. rewrite length_app, IH, length_event_bytes. lia.
Qed.

Lemma eeprom_put_app a l1 l2 e :
  eeprom_put a (l1 ++ l2) e = eeprom_put (a + length l1) l2 (eeprom_put a l1 e).
Proof.
  revert a e; induction l1 as [|b t IH]; intros a e.
  - simpl. rewrite Nat.add_0_r. reflexivity.
  - simpl. rewrite IH. f_equal. lia.
Qed.

Lemma put_events_eq evs a e :
  put_events evs a e = (eeprom_put a (concat (map event_bytes evs)) e, (a + 6 * length evs)%nat).
Proof.
  revert a e; induction evs as [|ev t IH]; intros a e.
  - simpl. rewrite Nat.add_0_r. reflexivity.
  - cbn [put_events map concat]. rewrite IH, eeprom_put_app, length_event_bytes.
    unfold SIZEOF_EVENT. simpl length. f_equal. lia.
Qed.

Lemma put_slots_eq ms a e :
  put_slots ms a e = (eeprom_put a (macros_image ms) e, (a + length (macros_image ms))%nat).
Proof.
  revert a e; induction ms as [|m t IH]; intros a e.
  - simpl. rewrite Nat.add_0_r. reflexivity.
  - simpl put_slots. rewrite put_events_eq, IH.
    unfold macros_image. cbn [map concat]. unfold macro_bytes.
    rewrite <- app_assoc, eeprom_put_app, eeprom_put_app, length_events_bytes.
    fold (macros_image t). rewrite !length_app, length_events_bytes. simpl length.
    f_equal; [f_equal; lia | lia].
Qed.

Lemma length_upd {A} (l : list A) i x : length (upd l i x) = length l.
Proof.
  revert i; induction l as [|y t IH]; intros i; [reflexivity|].
  destruct i; simpl; [reflexivity | rewrite IH; reflexivity].
Qed.

Lemma upd_split {A} (l : list A) i x :
  (i < length l)%nat -> upd l i x = firstn i l ++ x :: skipn (S i) l.
Proof.
  revert i; induction l as [|y t IH]; intros i Hi; [simpl in Hi; lia|].
  destruct i; [reflexivity|]. simpl in *. rewrite IH by lia. reflexivity.
Qed.

Lemma upd_app_l {A} (l1 l2 : list A) i x :
  (i < length l1)%nat -> upd (l1 ++ l2) i x = upd l1 i x ++ l2.
Proof.
  revert i; induction l1 as [|y t IH]; intros i Hi; [simpl in Hi; lia|].
  destruct i; [reflexivity|]. simpl in *. rewrite IH by lia. reflexivity.
Qed.

Lemma upd_app_r {A} (l1 l2 : list A) i x :
  upd (l1 ++ l2) (length l1 + i) x = l1 ++ upd l2 i x.
Proof. induction l1 as [|y t IH]; [reflexivity|]. simpl. rewrite IH. reflexivity. Qed.

Lemma firstn_app_l {A} (l1 l2 : list A) n : length l1 = n -> firstn n (l1 ++ l2) = l1.
Proof. intros <-. rewrite <- (Nat.add_0_r (length l1)), firstn_app_2, app_nil_r. reflexivity. Qed.

Lemma skipn_app_l {A} (l1 l2 : list A) n : length l1 = n -> skipn n (l1 ++ l2) = l2.
Proof. intros <-. induction l1 as [|y t IH]; [reflexivity|]. exact IH. Qed.

Lemma skipn_app_add {A} (l1 l2 : list A) n : skipn (length l1 + n) (l1 ++ l2) = skipn n l2.
Proof. induction l1 as [|y t IH]; [reflexivity|]. exact IH. Qed.

Lemma eeprom_put_eq a bs e :
  (a + length bs <= length e)%nat ->
  eeprom_put a bs e = firstn a e ++ bs ++ skipn (a + length bs) e.
Proof.
  revert a e; induction bs as [|b t IH]; intros a e Hl.
  - simpl. rewrite Nat.add_0_r, firstn_skipn. reflexivity.
  - simpl in Hl. simpl eeprom_put. rewrite IH by (rewrite length_upd; simpl; lia).
    rewrite upd_split by lia.
    assert (Hf : length (firstn a e) = a) by (rewrite length_firstn; lia).
    set (l1 := firstn a e) in *. set (X := skipn (S a) e).
    assert (E1 : firstn (S a) (l1 ++ b :: X) = l1 ++ [b]).
    { rewrite <- Hf. replace (S (length l1)) with (length l1 + 1)%nat by lia.
      rewrite firstn_app_2. reflexivity. }
    assert (E2 : skipn (S a + length t) (l1 ++ b :: X) = skipn (length t) X).
    { rewrite <- Hf. replace (S (length l1) + length t)%nat with (length l1 + S (length t))%nat
        by lia.
      rewrite skipn_app_add. reflexivity. }
    rewrite E1, E2. unfold X. rewrite skipn_skipn, <- app_assoc. simpl.
    replace (length t + S a)%nat with (a + S (length t))%nat by lia. reflexivity.
Qed.

(** Little-endian bytes. *)

Lemma le_value_le_bytes n v : 0 <= v < 256 ^ Z.of_nat n -> le_value (le_bytes n v) = v.
Proof.
  revert v; induction n as [|n IH]; intros v Hv.
  - simpl in *. lia.
  - rewrite Nat2Z.inj_succ, Z.pow_succ_r in Hv by lia. cbn [le_bytes le_value].
    rewrite IH.
    + pose proof (Z.div_mod v 256 ltac:(lia)). lia.
    + split; [apply Z.div_pos; lia | apply Z.div_lt_upper_bound; lia].
Qed.

Lemma le_bytes_le_value bs :
  Forall (fun b => 0 <= b < 256) bs -> le_bytes (length bs) (le_value bs) = bs.
Proof.
  induction 1 as [|b t Hb Ht IH]; [reflexivity|].
  cbn [length le_bytes le_value]. replace (b + 256 * le_value t) with (b + le_value t * 256) by ring.
  rewrite Z_mod_plus_full, Z.div_add, Z.mod_small, Z.div_small, Z.add_0_l by lia.
  rewrite IH. reflexivity.
Qed.

Lemma le_bytes_bytes n v : Forall (fun b => 0 <= b < 256) (le_bytes n v).
Proof.
  revert v; induction n as [|n IH]; intros v; constructor; [|apply IH].
  apply Z.mod_pos_bound. lia.
Qed.

Lemma le_value_inj bs1 bs2 :
  Forall (fun b => 0 <= b < 256) bs1 -> Forall (fun b => 0 <= b < 256) bs2 ->
  length bs1 = length bs2 -> le_value bs1 = le_value bs2 -> bs1 = bs2.
Proof.
  intros H1. revert bs2. induction H1 as [|b1 t1 Hb1 Ht1 IH]; intros bs2 H2 Hl He.
  - destruct bs2; [reflexivity | discriminate].
  - destruct H2 as [|b2 t2 Hb2 Ht2]; [discriminate|].
    cbn [length le_value] in Hl, He.
    assert (Hv : le_value t1 = le_value t2) by lia.
    assert (Hb : b1 = b2) by lia.
    rewrite Hb, (IH t2 Ht2 ltac:(lia) Hv). reflexivity.
Qed.

Lemma le_bytes_length n v : length (le_bytes n v) = n.
Proof. revert v; induction n as [|n IH]; intros v; simpl; [reflexivity | rewrite IH; reflexivity]. Qed.

(** Reading events and slots. *)

Lemma get_events_eq n a e :
  get_events n a e = (decode_events n (skipn a e), (a + 6 * n)%nat).
Proof.
  revert a; induction n as [|n IH]; intros a.
  - simpl. rewrite Nat.add_0_r. reflexivity.
  - cbn [get_events decode_events]. rewrite IH. unfold SIZEOF_EVENT.
    rewrite skipn_skipn, (Nat.add_comm 6 a).
    replace (a + 6 + 6 * n)%nat with (a + 6 * S n)%nat by lia. reflexivity.
Qed.

Lemma get_slots_eq n a e :
  get_slots n a e = (decode_slots n (skipn a e), (a + 193 * n)%nat).
Proof.
  revert a; induction n as [|n IH]; intros a.
  - simpl. rewrite Nat.add_0_r. reflexivity.
  - cbn [get_slots decode_slots]. rewrite get_events_eq. change (Z.to_nat MAX_MACRO_LENGTH) with 32%nat.
    rewrite IH. unfold eeprom_get.
    rewrite !skipn_skipn. rewrite (Nat.add_comm 192 a), (Nat.add_comm 193 a).
    replace (S (a + 6 * 32)) with (a + 193)%nat by lia.
    replace (a + 6 * 32)%nat with (a + 192)%nat by lia.
    replace (a + 193 + 193 * n)%nat with (a + 193 * S n)%nat by lia. reflexivity.
Qed.

(** Well-formed macros, as propositions. *)

Lemma is_byte_spec b : is_byte b = true <-> 0 <= b < 256.
Proof. unfold is_byte. rewrite andb_true_iff, Z.leb_le, Z.ltb_lt. reflexivity. Qed.

Lemma wf_event_spec ev : wf_event ev = true ->
  0 <= ev_keyCode ev < 256 /\ 0 <= ev_isPressed ev < 256 /\ 0 <= ev_delay ev < 4294967296.
Proof.
  unfold wf_event. rewrite !andb_true_iff, !is_byte_spec, Z.leb_le, Z.ltb_lt. tauto.
Qed.

Lemma wf_macro_spec m : wf_macro m = true ->
  length (keyEvents m) = 32%nat /\ Forall (fun ev => wf_event ev = true) (keyEvents m) /\
  0 <= macro_length m < 256.
Proof.
  unfold wf_macro. rewrite !andb_true_iff, Nat.eqb_eq, forallb_forall, is_byte_spec, Forall_forall.
  tauto.
Qed.

Lemma wf_macros_spec ms : wf_macros ms = true ->
  length ms = 5%nat /\ Forall (fun m => wf_macro m = true) ms.
Proof.
  unfold wf_macros. rewrite andb_true_iff, Nat.eqb_eq, forallb_forall, Forall_forall. tauto.
Qed.

Lemma macros_image_cons m t :
  macros_image (m :: t) =
  concat (map event_bytes (keyEvents m)) ++ [macro_length m] ++ macros_image t.
Proof. unfold macros_image, macro_bytes. cbn [map concat]. rewrite <- app_assoc. reflexivity. Qed.

Lemma length_macros_image ms :
  Forall (fun m => wf_macro m = true) ms -> length (macros_image ms) = (193 * length ms)%nat.
Proof.
  induction 1 as [|m t Hm Ht IH]; [reflexivity|].
  apply wf_macro_spec in Hm. destruct Hm as (Hl & _ & _).
  rewrite macros_image_cons, !length_app, length_events_bytes, Hl, IH. simpl length. lia.
Qed.

Lemma macros_image_bytes ms :
  Forall (fun m => wf_macro m = true) ms -> Forall (fun b => 0 <= b < 256) (macros_image ms).
Proof.
  induction 1 as [|m t Hm Ht IH]; [constructor|].
  apply wf_macro_spec in Hm. destruct Hm as (_ & He & Hlen).
  rewrite macros_image_cons. rewrite app_assoc.
  apply Forall_app. split; [apply Forall_app; split|exact IH].
  - induction He as [|ev evs Hev _ IHe]; [constructor|].
    cbn [map concat]. apply Forall_app. split; [|exact IHe].
    apply wf_event_spec in Hev. destruct Hev as (H1 & H2 & _).
    constructor; [exact H1|]. constructor; [exact H2|]. apply le_bytes_bytes.
  - constructor; [exact Hlen | constructor].
Qed.

Lemma decode_event_bytes ev : wf_event ev = true -> decode_event (event_bytes ev) = ev.
Proof.
  intros H. apply wf_event_spec in H. destruct ev as [k p d]. simpl in H.
  change (decode_event (event_bytes (mkEvent k p d))) with (mkEvent k p (le_value (le_bytes 4 d))).
  rewrite le_value_le_bytes by (simpl; lia).
  reflexivity.
Qed.

Lemma decode_events_image evs rest :
  Forall (fun ev => wf_event ev = true) evs ->
  decode_events (length evs) (concat (map event_bytes evs) ++ rest) = evs.
Proof.
  induction 1 as [|ev t Hev Ht IH]; [reflexivity|].
  cbn [length decode_events map concat]. rewrite <- app_assoc. unfold SIZEOF_EVENT.
  rewrite firstn_app_l, skipn_app_l by apply length_event_bytes.
  rewrite decode_event_bytes by exact Hev. rewrite IH. reflexivity.
Qed.

Lemma decode_slots_image ms rest :
  Forall (fun m => wf_macro m = true) ms ->
  decode_slots (length ms) (macros_image ms ++ rest) = ms.
Proof.
  induction 1 as [|m t Hm Ht IH]; [reflexivity|].
  apply wf_macro_spec in Hm. destruct Hm as (Hl & He & Hlen).
  rewrite macros_image_cons. cbn [length decode_slots]. rewrite <- !app_assoc.
  assert (Hc : length (concat (map event_bytes (keyEvents m))) = 192%nat)
    by (rewrite length_events_bytes, Hl; reflexivity).
  rewrite <- Hl at 1. rewrite decode_events_image by exact He.
  rewrite skipn_app_l by exact Hc. simpl firstn.
  rewrite app_assoc, skipn_app_l by (rewrite length_app, Hc; reflexivity).
  rewrite IH. destruct m as [evs len]. simpl. rewrite Z.add_0_r. reflexivity.
Qed.

Lemma event_bytes_decode b0 b1 b2 b3 b4 b5 :
  0 <= b2 < 256 -> 0 <= b3 < 256 -> 0 <= b4 < 256 -> 0 <= b5 < 256 ->
  event_bytes (decode_event [b0; b1; b2; b3; b4; b5]) = [b0; b1; b2; b3; b4; b5].
Proof.
  intros. change (event_bytes (decode_event [b0; b1; b2; b3; b4; b5]))
    with ([b0; b1] ++ le_bytes (length [b2; b3; b4; b5]) (le_value [b2; b3; b4; b5])).
  rewrite le_bytes_le_value by (repeat (apply Forall_cons; [assumption|]); apply Forall_nil).
  reflexivity.
Qed.

Lemma image_decode_events n bs rest :
  Forall (fun b => 0 <= b < 256) bs -> length bs = (6 * n)%nat ->
  concat (map event_bytes (decode_events n (bs ++ rest))) = bs.
Proof.
  revert bs; induction n as [|n IH]; intros bs Hb Hl.
  - destruct bs; [reflexivity | simpl in Hl; lia].
  - destruct bs as [|b0 [|b1 [|b2 [|b3 [|b4 [|b5 bs]]]]]]; simpl in Hl; try lia.
    apply Forall_cons_iff in Hb. destruct Hb as [Hy0 Hb].
    apply Forall_cons_iff in Hb. destruct Hb as [Hy1 Hb].
    apply Forall_cons_iff in Hb. destruct Hb as [Hy2 Hb].
    apply Forall_cons_iff in Hb. destruct Hb as [Hy3 Hb].
    apply Forall_cons_iff in Hb. destruct Hb as [Hy4 Hb].
    apply Forall_cons_iff in Hb. destruct Hb as [Hy5 Hb].
    cbn [decode_events map concat]. unfold SIZEOF_EVENT. cbn [app firstn skipn].
    rewrite event_bytes_decode by assumption. rewrite IH by (assumption || lia). reflexivity.
Qed.

Lemma image_decode_slots n bs rest :
  Forall (fun b => 0 <= b < 256) bs -> length bs = (193 * n)%nat ->
  macros_image (decode_slots n (bs ++ rest)) = bs.
Proof.
  revert bs; induction n as [|n IH]; intros bs Hb Hl.
  - destruct bs; [reflexivity | simpl in Hl; lia].
  - assert (Hc : length (firstn 192 bs) = 192%nat) by (rewrite length_firstn; lia).
    assert (Hx : length (skipn 192 bs) = S (193 * n)) by (rewrite length_skipn; lia).
    rewrite <- (firstn_skipn 192 bs) in Hb |- *.
    set (c := firstn 192 bs) in *. set (x := skipn 192 bs) in *. clearbody c x.
    destruct x as [|b xs]; [simpl in Hx; lia|].
    apply Forall_app in Hb. destruct Hb as [Hbc Hbx]. inversion Hbx as [|? ? Hb0 Hbxs]; subst.
    cbn [decode_slots]. rewrite macros_image_cons. cbn [keyEvents macro_length].
    rewrite <- !app_assoc. cbn [app].
    rewrite image_decode_events by (assumption || lia).
    rewrite skipn_app_l by exact Hc. cbn [firstn le_value]. rewrite Z.mul_0_r, Z.add_0_r.
    replace 193%nat with (length c + 1)%nat by (rewrite Hc; reflexivity).
    rewrite skipn_app_add. cbn [skipn].
    rewrite IH by (assumption || simpl in Hx; lia). reflexivity.
Qed.

(** Adler-32: [(B << 16) | A] is [65536 * B + A] on 32 bits, and [A] is one
    plus the byte sum modulo 65521. *)

Lemma adler_A_range A B data :
  0 <= A < MOD_ADLER -> 0 <= fst (adler_loop A B data) < MOD_ADLER.
Proof.
  revert A B; induction data as [|d t IH]; intros A B HA; [exact HA|].
  simpl. apply IH. apply Z.mod_pos_bound. unfold MOD_ADLER. lia.
Qed.

Lemma adler_A_sum A B d t :
  fst (adler_loop A B (d :: t)) = (A + zsum (d :: t)) mod MOD_ADLER.
Proof.
  revert A B d; induction t as [|d' t IH]; intros A B d.
  - simpl. rewrite Z.add_0_r. reflexivity.
  - transitivity (fst (adler_loop ((A + d) mod MOD_ADLER)
                     ((B + (A + d) mod MOD_ADLER) mod MOD_ADLER) (d' :: t)));
      [reflexivity|].
    rewrite IH. unfold zsum. cbn [fold_right].
    rewrite Z.add_mod_idemp_l by (unfold MOD_ADLER; lia). f_equal. ring.
Qed.

Lemma lor_low16 q a : 0 <= a < 65536 -> Z.lor (65536 * q) a = 65536 * q + a.
Proof.
  intros Ha. symmetry.
  assert (Hl : Z.land (65536 * q) a = 0).
  { apply Z.bits_inj'. intros i Hi. rewrite Z.land_spec, Z.bits_0.
    replace (65536 * q) with (q * 2 ^ 16) by ring.
    destruct (Z.lt_ge_cases i 16) as [Hlt|Hge].
    - rewrite Z.mul_pow2_bits_low by exact Hlt. reflexivity.
    - rewrite <- (Z.mod_small a (2 ^ 16)) by (simpl; lia).
      rewrite Z.mod_pow2_bits_high by lia. apply andb_false_r. }
  rewrite Z.add_nocarry_lxor by exact Hl. apply Z.lxor_lor. exact Hl.
Qed.

Lemma adler32_split data :
  adler32 data = 65536 * (snd (adler_loop 1 0 data) mod 65536) + fst (adler_loop 1 0 data).
Proof.
  pose proof (adler_A_range 1 0 data ltac:(unfold MOD_ADLER; lia)) as HA.
  unfold adler32. destruct (adler_loop 1 0 data) as [A B]. cbn [fst snd] in *.
  unfold u32. rewrite Z.shiftl_mul_pow2 by lia.
  replace (B * 2 ^ 16) with (65536 * B) by ring.
  replace 4294967296 with (65536 * 65536) by reflexivity.
  rewrite Z.mul_mod_distr_l by lia. apply lor_low16. unfold MOD_ADLER in HA. lia.
Qed.

Lemma adler32_range data : 0 <= adler32 data < 4294967296.
Proof.
  rewrite adler32_split.
  pose proof (adler_A_range 1 0 data ltac:(unfold MOD_ADLER; lia)) as HA.
  pose proof (Z.mod_pos_bound (snd (adler_loop 1 0 data)) 65536 ltac:(lia)).
  unfold MOD_ADLER in HA. lia.
Qed.

Lemma adler32_low data : adler32 data mod 65536 = fst (adler_loop 1 0 data).
Proof.
  rewrite adler32_split.
  pose proof (adler_A_range 1 0 data ltac:(unfold MOD_ADLER; lia)) as HA.
  unfold MOD_ADLER in HA.
  rewrite Z.add_comm, Z.mul_comm, Z_mod_plus_full, Z.mod_small by lia. reflexivity.
Qed.

Lemma zsum_upd l i v :
  (i < length l)%nat -> zsum (upd l i v) = zsum l - nth i l 0 + v.
Proof.
  revert i; induction l as [|x t IH]; intros i Hi; [simpl in Hi; lia|].
  destruct i; unfold zsum in *; cbn [upd fold_right nth].
  - lia.
  - rewrite IH by (simpl in Hi; lia). lia.
Qed.

(** A single changed byte changes the checksum. *)
Lemma adler32_upd l i v :
  (i < length l)%nat -> 0 <= v < 256 -> 0 <= nth i l 0 < 256 -> v <> nth i l 0 ->
  adler32 (upd l i v) <> adler32 l.
Proof.
  intros Hi Hv Ho Hne He.
  apply (f_equal (fun x => x mod 65536)) in He. rewrite !adler32_low in He.
  destruct l as [|d t]; [simpl in Hi; lia|].
  destruct (upd (d :: t) i v) as [|d' t'] eqn:Eu; [destruct i; discriminate|].
  rewrite !adler_A_sum in He. rewrite <- Eu, zsum_upd in He by exact Hi.
  set (S0 := zsum (d :: t)) in *. set (o := nth i (d :: t) 0) in *.
  unfold MOD_ADLER in He.
  pose proof (Z.div_mod (1 + (S0 - o + v)) 65521 ltac:(lia)).
  pose proof (Z.div_mod (1 + S0) 65521 ltac:(lia)).
  lia.
Qed.

(** Saving and loading. *)

Lemma loadMacrosFromEEPROM_image s ms rest :
  wf_macros ms = true -> eeprom s = eeprom_image ms ++ rest ->
  loadMacrosFromEEPROM s = Some (true, set_macros ms s).
Proof.
  intros Hw He. apply wf_macros_spec in Hw. destruct Hw as [H5 Hm].
  pose proof (length_macros_image _ Hm) as Li. rewrite H5 in Li.
  set (img := macros_image ms) in *. set (ck := le_bytes 4 (adler32 img)).
  assert (Ei : eeprom_image ms ++ rest = 4 :: 197 :: 3 :: (img ++ (ck ++ rest)))
    by (unfold eeprom_image; rewrite <- !app_assoc; reflexivity).
  unfold loadMacrosFromEEPROM, bind, get, put, ret. rewrite He, Ei.
  cbv zeta.
  change (negb (le_value (eeprom_get EEPROM_START_ADDRESS 1 (4 :: 197 :: 3 :: img ++ ck ++ rest))
            =? MACRO_SAVE_VERSION)) with false.
  change (negb (le_value (eeprom_get (S EEPROM_START_ADDRESS) SIZEOF_SIZE_T
            (4 :: 197 :: 3 :: img ++ ck ++ rest)) =? SIZEOF_MACROS)) with false.
  rewrite get_slots_eq.
  change (skipn (S EEPROM_START_ADDRESS + SIZEOF_SIZE_T) (4 :: 197 :: 3 :: img ++ ck ++ rest))
    with (img ++ ck ++ rest).
  assert (E4 : decode_slots (Z.to_nat MACRO_SLOTS) (img ++ ck ++ rest) = ms).
  { change (Z.to_nat MACRO_SLOTS) with 5%nat. rewrite <- H5. apply decode_slots_image. exact Hm. }
  assert (E5 : eeprom_get (S EEPROM_START_ADDRESS + SIZEOF_SIZE_T + 193 * Z.to_nat MACRO_SLOTS) 4
                 (4 :: 197 :: 3 :: img ++ ck ++ rest) = ck).
  { unfold eeprom_get. change (S EEPROM_START_ADDRESS + SIZEOF_SIZE_T + 193 * Z.to_nat MACRO_SLOTS)%nat
      with (3 + 193 * 5)%nat. rewrite <- Li. cbn [skipn Nat.add].
    rewrite skipn_app_l by reflexivity. apply firstn_app_l. apply le_bytes_length. }
  rewrite E4. cbv beta iota. rewrite E5. unfold ck. rewrite le_value_le_bytes.
  - rewrite Z.eqb_refl. reflexivity.
  - pose proof (adler32_range img). simpl. lia.
Qed.

Lemma length_eeprom_image ms :
  wf_macros ms = true -> length (eeprom_image ms) = 972%nat.
Proof.
  intros Hw. apply wf_macros_spec in Hw. destruct Hw as [H5 Hm].
  pose proof (length_macros_image _ Hm) as Li. rewrite H5 in Li.
  unfold eeprom_image. rewrite !length_app, Li, !le_bytes_length. reflexivity.
Qed.

Lemma saveMacrosToEEPROM_image s :
  wf_macros (macros s) = true -> length (eeprom s) = 1024%nat ->
  saveMacrosToEEPROM s =
    Some (tt, set_eeprom (eeprom_image (macros s) ++ skipn 972 (eeprom s)) s).
Proof.
  intros Hw Hl. pose proof (length_eeprom_image _ Hw) as Lim.
  unfold saveMacrosToEEPROM, bind, get, put, ret.
  change (SIZEOF_MACROS + Z.of_nat SIZEOF_SIZE_T + 1 + 4 >? SIZE_OF_EEPROM) with false.
  cbv beta iota zeta. rewrite put_slots_eq. cbv beta iota.
  do 3 f_equal.
  transitivity (eeprom_put 0 (eeprom_image (macros s)) (eeprom s)).
  - unfold eeprom_image. rewrite !eeprom_put_app. reflexivity.
  - rewrite eeprom_put_eq by lia. rewrite Lim. reflexivity.
Qed.

Lemma eeprom_image_cons ms :
  eeprom_image ms =
  4 :: 197 :: 3 :: (macros_image ms ++ le_bytes 4 (adler32 (macros_image ms))).
Proof. reflexivity. Qed.

Lemma Forall_upd {A} (P : A -> Prop) l i x : Forall P l -> P x -> Forall P (upd l i x).
Proof.
  intros Hl Hx. revert i. induction Hl as [|y t Hy Ht IH]; intros i; [constructor|].
  destruct i; simpl; constructor; auto.
Qed.

Lemma load_mismatch_clears s :
  le_value (eeprom_get 0 1 (eeprom s)) <> MACRO_SAVE_VERSION \/
  le_value (eeprom_get 1 2 (eeprom s)) <> SIZEOF_MACROS \/
  le_value (eeprom_get (snd (get_slots 5 3 (eeprom s))) 4 (eeprom s))
    <> adler32 (macros_image (fst (get_slots 5 3 (eeprom s)))) ->
  loadMacrosFromEEPROM s = Some (false, set_macros zeroMacros s).
Proof.
  intros H. unfold loadMacrosFromEEPROM, bind, get, put, ret. cbv zeta.
  change EEPROM_START_ADDRESS with 0%nat. change SIZEOF_SIZE_T with 2%nat.
  change (Z.to_nat MACRO_SLOTS) with 5%nat. change (S 0 + 2)%nat with 3%nat.
  destruct (Z.eqb_spec (le_value (eeprom_get 0 1 (eeprom s))) MACRO_SAVE_VERSION) as [E1|E1];
    [|reflexivity].
  destruct (Z.eqb_spec (le_value (eeprom_get 1 2 (eeprom s))) SIZEOF_MACROS) as [E2|E2];
    [|reflexivity].
  destruct (get_slots 5 3 (eeprom s)) as [ms a] eqn:G. cbn [fst snd] in H.
  destruct (Z.eqb_spec (le_value (eeprom_get a 4 (eeprom s))) (adler32 (macros_image ms)))
    as [E3|E3]; [|reflexivity].
  exfalso. intuition.
Qed.

Lemma corrupt_image_rejected ms tail p v :
  wf_macros ms = true -> (p < 972)%nat -> 0 <= v < 256 ->
  v <> nth p (eeprom_image ms) 0 ->
  let e := upd (eeprom_image ms ++ tail) p v in
  le_value (eeprom_get 0 1 e) <> MACRO_SAVE_VERSION \/
  le_value (eeprom_get 1 2 e) <> SIZEOF_MACROS \/
  le_value (eeprom_get (snd (get_slots 5 3 e)) 4 e)
    <> adler32 (macros_image (fst (get_slots 5 3 e))).
Proof.
  intros Hw Hp Hv Hne e. unfold e. clear e.
  pose proof (length_eeprom_image _ Hw) as Lim.
  rewrite upd_app_l by lia.
  apply wf_macros_spec in Hw. destruct Hw as [H5 Hm].
  pose proof (length_macros_image _ Hm) as Li. rewrite H5 in Li.
  pose proof (macros_image_bytes _ Hm) as Ib.
  rewrite eeprom_image_cons in *.
  set (I := macros_image ms) in *. set (C := le_bytes 4 (adler32 I)) in *.
  assert (LC : length C = 4%nat) by apply le_bytes_length.
  assert (CB : Forall (fun b => 0 <= b < 256) C) by apply le_bytes_bytes.
  assert (CV : le_value C = adler32 I).
  { unfold C. rewrite le_value_le_bytes; [reflexivity|]. pose proof (adler32_range I). simpl. lia. }
  destruct p as [|[|[|q]]].
  - left. cbn [nth] in Hne. cbn [upd app eeprom_get firstn skipn le_value].
    unfold MACRO_SAVE_VERSION. lia.
  - right; left. cbn [nth] in Hne. cbn [upd app eeprom_get firstn skipn le_value].
    unfold SIZEOF_MACROS, MACRO_SLOTS, MAX_MACRO_LENGTH. lia.
  - right; left. cbn [nth] in Hne. cbn [upd app eeprom_get firstn skipn le_value].
    unfold SIZEOF_MACROS, MACRO_SLOTS, MAX_MACRO_LENGTH. lia.
  - right; right. cbn [nth] in Hne. cbn [upd]. rewrite get_slots_eq. cbn [fst snd].
    cbn [app skipn].
    destruct (Nat.lt_ge_cases q (193 * 5)) as [Hq|Hq].
    + rewrite app_nth1 in Hne by lia.
      rewrite upd_app_l by lia. rewrite <- app_assoc.
      assert (Ub : Forall (fun b => 0 <= b < 256) (upd I q v)) by (apply Forall_upd; assumption).
      assert (Ul : length (upd I q v) = (193 * 5)%nat) by (rewrite length_upd; exact Li).
      rewrite image_decode_slots by assumption.
      assert (Eg : eeprom_get (3 + 193 * 5) 4 (4 :: 197 :: 3 :: upd I q v ++ C ++ tail) = C).
      { unfold eeprom_get. rewrite <- Ul. cbn [skipn Nat.add].
        rewrite skipn_app_l by reflexivity. apply firstn_app_l. exact LC. }
      rewrite Eg, CV.
      apply not_eq_sym. apply adler32_upd; [lia | exact Hv | | exact Hne].
      rewrite Forall_forall in Ib. apply Ib. apply nth_In. lia.
    + rewrite app_nth2 in Hne by lia. rewrite Li in Hne.
      replace q with (length I + (q - 193 * 5))%nat by lia. rewrite upd_app_r.
      set (r := (q - 193 * 5)%nat) in *.
      assert (Hr : (r < 4)%nat) by (unfold r; lia).
      rewrite <- app_assoc.
      assert (Ed : decode_slots 5 (I ++ upd C r v ++ tail) = ms).
      { rewrite <- H5. apply decode_slots_image. exact Hm. }
      rewrite Ed.
      assert (Eg : eeprom_get (3 + 193 * 5) 4 (4 :: 197 :: 3 :: I ++ upd C r v ++ tail)
                   = upd C r v).
      { unfold eeprom_get. rewrite <- Li. cbn [skipn Nat.add].
        rewrite skipn_app_l by reflexivity. apply firstn_app_l. rewrite length_upd. exact LC. }
      rewrite Eg. fold I. rewrite <- CV. intros Heq.
      apply le_value_inj in Heq;
        [| apply Forall_upd; assumption | exact CB | rewrite length_upd; reflexivity].
      apply (f_equal (fun l => nth r l 0)) in Heq. rewrite nth_upd_same in Heq by lia.
      apply Hne. exact Heq.
Qed.

(** * The claims *)

(** ** C1 *)

(** C1 (as stated, refuted): "for every 8-bit key code k" the decoder
    accumulates exactly k.  Only bits 6..0 of the code travel on the wire, so
    for k = 0x80 the decoder hands on key code 0, not 0x80. *)
Lemma C1_counterexample :
  kb_run decoder_at_handshake (handshake_polls 1 100 ++ wire_polls 128 true)
  = (mkDecoder HANDSHAKE 0 0 255 false, [KeyMessage 0 true]) /\
  snd (kb_run decoder_at_handshake (handshake_polls 1 100 ++ wire_polls 128 true))
  <> [KeyMessage 128 true].
Proof. vm_compute. split; [reflexivity | discriminate]. Qed.

(** C1 (amended): for every 7-bit key code k (0 <= k < 128) and every
    press flag f, starting a handshake (timer cleared), a handshake whose two
    polls are more than 65 us apart followed by the eight bits 6,5,4,3,2,1,0
    and the up/down flag (data line inverted) leaves exactly k in
    currentKeyCode, takes the eighth sample as the press flag, emits exactly
    one key message (k, f) and returns to HANDSHAKE. *)
Theorem handleKeyboard_decodes_message d k f t1 t2 :
  keyboardState d = HANDSHAKE -> handshakeTimer d = 0 ->
  0 < t1 -> MIN_HANDSHAKE_WAIT_TIME < u32 (t2 - t1) ->
  0 <= k < 128 ->
  kb_run d (handshake_polls t1 t2 ++ wire_polls k f) =
  (mkDecoder HANDSHAKE 0 k 255 false, [KeyMessage k f]).
Proof.
  intros Hs Ht Ht1 Ht2 Hk.
  rewrite kb_run_handshake by assumption.
  apply kb_run_message_7bit; exact Hk.
Qed.

Lemma handleKeyboard_decodes_message_witness :
  kb_run decoder_at_handshake (handshake_polls 1 100 ++ wire_polls 0x45 false) =
  (mkDecoder HANDSHAKE 0 0x45 255 false, [KeyMessage 0x45 false]).
Proof.
  apply (handleKeyboard_decodes_message decoder_at_handshake 0x45 false 1 100);
    [reflexivity | reflexivity | lia | vm_compute; reflexivity | lia].
Defined.

(** ** C2 *)

(** C2: a key code at or above AMIGA_KEY_COUNT makes processKeyCode return at
    once with every global unchanged; and along any sequence of decoded
    events (bytes), no call reads keyTable out of its bounds (the run never
    fails). *)
Theorem processKeyCode_keyTable_in_bounds :
  (forall k p s, AMIGA_KEY_COUNT <= k -> processKeyCode k p s = Some (tt, s)) /\
  (forall evs s, Forall (fun e => 0 <= fst e < 256) evs ->
     exists s', run_events evs s = Some (tt, s')).
Proof.
  split.
  - intros k p s Hk. unfold processKeyCode.
    replace (k <? AMIGA_KEY_COUNT) with false by (symmetry; apply Z.ltb_ge; lia).
    reflexivity.
  - induction evs as [|[k p] evs IH]; intros s Hall.
    + exists s. reflexivity.
    + inversion Hall as [|? ? Hk Hrest]; subst. simpl in Hk.
      destruct (total_processKeyCode k p ltac:(lia) s) as ([] & s1 & E).
      destruct (IH s1 Hrest) as (s2 & E2).
      exists s2. simpl. unfold bind. rewrite E. exact E2.
Qed.

Lemma processKeyCode_keyTable_in_bounds_witness :
  processKeyCode 0x70 true boot_state = Some (tt, boot_state) /\
  exists s', run_events [(0x70, true); (0x20, true); (0x20, false)] boot_state = Some (tt, s').
Proof.
  split.
  - apply (proj1 processKeyCode_keyTable_in_bounds). vm_compute. discriminate.
  - apply (proj2 processKeyCode_keyTable_in_bounds).
    repeat constructor; simpl; lia.
Defined.

(** ** C10 *)

(** C10: for every key code, also below AMIGA_KEY_F6 where the uint8_t
    subtraction wraps, macroSlotFromKeyCode returns a slot below
    MACRO_SLOTS. *)
Theorem macroSlotFromKeyCode_in_range k :
  0 <= macroSlotFromKeyCode k < MACRO_SLOTS.
Proof.
  unfold macroSlotFromKeyCode, u8.
  pose proof (Z.mod_pos_bound (k - AMIGA_KEY_F6) 256 ltac:(lia)).
  destruct (_ >=? MACRO_SLOTS) eqn:E.
  - unfold MACRO_SLOTS. lia.
  - rewrite Z.geb_leb in E. apply Z.leb_gt in E. lia.
Qed.

(** ** C5 *)

(** C5 (as stated, refuted): from a report that already holds the HID code of
    key A (0x20 -> 0x04), keyPress(A) then keyRelease(A) empties the slot
    instead of restoring the report. *)
Lemma C5_counterexample :
  let s := set_keyReport (mkKeyReport 0 [4;0;0;0;0;0])
             (set_prevkeyReport (mkKeyReport 0 [4;0;0;0;0;0]) boot_state) in
  option_map (fun r => keyReport (snd r)) ((keyPress 0x20 ;;; keyRelease 0x20) s)
    = Some emptyReport /\
  keyReport s <> emptyReport.
Proof. vm_compute. split; [reflexivity | discriminate]. Qed.

(** C5 (amended): for every valid key code k and every report in which k's
    HID code is not already held (modifier bits clear, or for other keys no
    slot holds the code), keyPress(k) then keyRelease(k) restores the live
    report exactly. *)
Theorem keyPress_keyRelease_restores_report k s :
  0 <= k < AMIGA_KEY_COUNT -> not_held (keyReport s) k ->
  exists s', (keyPress k ;;; keyRelease k) s = Some (tt, s') /\ keyReport s' = keyReport s.
Proof.
  intros Hk Hn.
  destruct (keyPress_report k s Hk) as (s1 & E1 & R1).
  destruct (keyRelease_report k s1 Hk) as (s2 & E2 & R2).
  exists s2. split.
  - unfold bind. rewrite E1. exact E2.
  - rewrite R2, R1. apply release_press_report. exact Hn.
Qed.

Lemma keyPress_keyRelease_restores_report_witness :
  exists s', (keyPress 0x20 ;;; keyRelease 0x20) boot_state = Some (tt, s') /\
             keyReport s' = keyReport boot_state.
Proof.
  apply keyPress_keyRelease_restores_report.
  - unfold AMIGA_KEY_COUNT. lia.
  - vm_compute. right. intros H. intuition discriminate.
Defined.

(** ** C6 *)

(** C6 (as stated, refuted): from the all-zero report, pressing key A twice
    without a release puts its HID code in two slots. *)
Lemma C6_counterexample :
  keyReport boot_state = emptyReport /\
  option_map (fun r => keys (keyReport (snd r))) ((keyPress 0x20 ;;; keyPress 0x20) boot_state)
    = Some [4;4;0;0;0;0] /\
  ~ NoDup (nonzero_keys [4;4;0;0;0;0]).
Proof.
  split; [reflexivity|]. split; [vm_compute; reflexivity|].
  vm_compute. intros H. inversion H as [|? ? Hn _]. apply Hn. left. reflexivity.
Qed.

(** C6 (amended): keyPress does not check for a held code, so duplicates
    arise only by pressing a key whose HID code is already in a slot: in every
    report reached from the all-zero report by keyPress/keyRelease calls that
    never press a non-modifier key while its code is held, no non-zero code
    occupies two slots.  In every state, keyRelease(k) zeroes exactly the
    slots equal to k's HID code (for a non-modifier key), leaves every other
    slot as it was, and clears only k's modifier bits (for a modifier key),
    leaving all other modifier bits unchanged. *)
Theorem keyRelease_frame_and_no_duplicates :
  (forall s, guarded_reach s -> NoDup (nonzero_keys (keys (keyReport s)))) /\
  (forall k s, 0 <= k < AMIGA_KEY_COUNT ->
     exists s', keyRelease k s = Some (tt, s') /\
       length (keys (keyReport s')) = length (keys (keyReport s)) /\
       (forall i, nth i (keys (keyReport s')) 0 =
          if isAmigaModifierKey k then nth i (keys (keyReport s)) 0
          else if nth i (keys (keyReport s)) 0 =? hid_of k then 0
               else nth i (keys (keyReport s)) 0) /\
       (forall j, 0 <= j -> Z.testbit (modifiers (keyReport s')) j =
          if isAmigaModifierKey k
          then Z.testbit (modifiers (keyReport s)) j && negb (Z.testbit (hid_of k) j)
          else Z.testbit (modifiers (keyReport s)) j)).
Proof.
  split; [exact guarded_reach_nodup|].
  intros k s Hk. destruct (keyRelease_report k s Hk) as (s1 & E1 & R1).
  exists s1. split; [exact E1|]. rewrite R1. unfold release_report.
  destruct (isAmigaModifierKey k); simpl.
  - split; [reflexivity|]. split; [reflexivity|].
    intros j Hj. rewrite Z.land_spec, Z.lnot_spec by exact Hj. reflexivity.
  - unfold release_slots. rewrite length_map. split; [reflexivity|]. split; [|reflexivity].
    intros i. set (f := fun x => if x =? hid_of k then 0 else x).
    transitivity (nth i (map f (keys (keyReport s))) (f 0)).
    + f_equal. unfold f. destruct (0 =? hid_of k); reflexivity.
    + rewrite map_nth. reflexivity.
Qed.

Lemma keyRelease_frame_and_no_duplicates_witness :
  NoDup (nonzero_keys (keys (keyReport after_press_A))) /\
  exists s', keyRelease 0x20 after_press_A = Some (tt, s') /\
    length (keys (keyReport s')) = length (keys (keyReport after_press_A)) /\
    (forall i, nth i (keys (keyReport s')) 0 =
       if isAmigaModifierKey 0x20 then nth i (keys (keyReport after_press_A)) 0
       else if nth i (keys (keyReport after_press_A)) 0 =? hid_of 0x20 then 0
            else nth i (keys (keyReport after_press_A)) 0) /\
    (forall j, 0 <= j -> Z.testbit (modifiers (keyReport s')) j =
       if isAmigaModifierKey 0x20
       then Z.testbit (modifiers (keyReport after_press_A)) j && negb (Z.testbit (hid_of 0x20) j)
       else Z.testbit (modifiers (keyReport after_press_A)) j).
Proof.
  split.
  - apply (proj1 keyRelease_frame_and_no_duplicates).
    apply (gr_press boot_state 0x20 after_press_A).
    + apply gr_init. reflexivity.
    + unfold AMIGA_KEY_COUNT. lia.
    + right. right. vm_compute. intros H. intuition discriminate.
    + vm_compute. reflexivity.
  - apply (proj2 keyRelease_frame_and_no_duplicates). unfold AMIGA_KEY_COUNT. lia.
Defined.

(** ** C7 *)

(** C7 (as stated, fails): with slots 0 and 1 playing and a macro key held
    in the macro report, playMacroSlot(2) leaves slot 2 stopped but is not a
    no-op: slots 0 and 1 keep playing while the macro report, which holds
    their key, is cleared. *)
Lemma C7_counterexample :
  nMacrosPlaying two_playing_state = CONCURENT_MACROS /\
  playing (nth 2 (macroPlayStatus two_playing_state) stoppedPlay) = false /\
  macroKeyReport two_playing_state <> emptyReport /\
  match playMacroSlot 2 two_playing_state with
  | Some (_, s') =>
      playing (nth 0 (macroPlayStatus s') stoppedPlay) = true /\
      playing (nth 1 (macroPlayStatus s') stoppedPlay) = true /\
      playing (nth 2 (macroPlayStatus s') stoppedPlay) = false /\
      macroKeyReport s' = emptyReport
  | None => False
  end.
Proof.
  split; [vm_compute; reflexivity|]. split; [vm_compute; reflexivity|].
  split; [vm_compute; discriminate|]. vm_compute. repeat split.
Qed.

(** C7 (what the code does): for every slot n that is not playing, playMacroSlot(n) while
    CONCURENT_MACROS slots already play does not start n: slot n's status is
    reset to stopped (playing flag false), every other slot's status is
    unchanged, the live report and the macros are unchanged, and, because
    the full case shares the stop branch, every macro-held key is released
    (the macro report becomes the all-zero report). *)
Theorem playMacroSlot_at_capacity n s :
  playing (nth (Z.to_nat n) (macroPlayStatus s) stoppedPlay) = false ->
  nMacrosPlaying s = CONCURENT_MACROS ->
  exists s', playMacroSlot n s = Some (tt, s') /\
    playing (nth (Z.to_nat n) (macroPlayStatus s') stoppedPlay) = false /\
    (forall i, i <> Z.to_nat n ->
       nth i (macroPlayStatus s') stoppedPlay = nth i (macroPlayStatus s) stoppedPlay) /\
    macroKeyReport s' = emptyReport /\
    keyReport s' = keyReport s /\
    macros s' = macros s.
Proof.
  intros _ Hc. rewrite (playMacroSlot_full_branch n s Hc).
  unfold sendReportMacro, modify, bind, get, put.
  set (s1 := set_macroKeyReport emptyReport
               (set_macroPlayStatus (upd (macroPlayStatus s) (Z.to_nat n) stoppedPlay) s)).
  assert (Hp : macroPlayStatus s1 = upd (macroPlayStatus s) (Z.to_nat n) stoppedPlay)
    by reflexivity.
  eexists. split; [reflexivity|].
  destruct (report_eqb (macroKeyReport s1) (macroPrevkeyReport s1)); cbn [macroPlayStatus
    macroKeyReport keyReport macros set_macroPrevkeyReport set_hidLog]; rewrite ?Hp;
    (split; [|split; [intros i Hi; apply nth_upd_other; exact Hi | repeat split]]);
    (destruct (Nat.lt_ge_cases (Z.to_nat n) (length (macroPlayStatus s))) as [Hl|Hl];
      [rewrite nth_upd_same by exact Hl | rewrite nth_upd_default by exact Hl]; reflexivity).
Qed.

Lemma playMacroSlot_at_capacity_witness :
  exists s', playMacroSlot 2 two_playing_state = Some (tt, s') /\
    playing (nth 2 (macroPlayStatus s') stoppedPlay) = false /\
    (forall i, i <> 2%nat ->
       nth i (macroPlayStatus s') stoppedPlay = nth i (macroPlayStatus two_playing_state) stoppedPlay) /\
    macroKeyReport s' = emptyReport /\
    keyReport s' = keyReport two_playing_state /\
    macros s' = macros two_playing_state.
Proof. apply (playMacroSlot_at_capacity 2); vm_compute; reflexivity. Defined.

(** ** C8 *)

(** C8: for every key code c of the function layer, the sequence press of
    'Help', press of c, release of c runs as follows: the 'Help' press only
    turns function mode on; the press of c is handed to
    handleFunctionModeKey (its alternate function); the release of c only
    clears ignoreNextRelease, so the live report and the HID output are left
    exactly as the press left them. *)
Theorem help_layer_release_consumed c s :
  In c function_layer_codes ->
  exists s2,
    processKeyCode AMIGA_KEY_HELP true s = Some (tt, set_functionMode true s) /\
    processKeyCode c true (set_functionMode true s)
      = handleFunctionModeKey c (set_functionMode true s) /\
    handleFunctionModeKey c (set_functionMode true s) = Some (tt, s2) /\
    processKeyCode c false s2 = Some (tt, set_ignoreNextRelease 0 s2) /\
    keyReport (set_ignoreNextRelease 0 s2) = keyReport s2 /\
    hidLog (set_ignoreNextRelease 0 s2) = hidLog s2.
Proof.
  intros Hin.
  assert (Hc : 0 < c < AMIGA_KEY_COUNT /\ c <> AMIGA_KEY_HELP /\ c <> AMIGA_KEY_CAPS_LOCK /\
               c <> AMIGA_KEY_NUMPAD_NUMLOCK_LPAREN /\ c <> AMIGA_KEY_NUMPAD_SCRLOCK_RPAREN).
  { unfold function_layer_codes, AMIGA_KEY_F1, AMIGA_KEY_F2, AMIGA_KEY_NUMPAD_ASTERISK_PTRSCR,
      AMIGA_KEY_NUMPAD_0, AMIGA_KEY_F3, AMIGA_KEY_F4, AMIGA_KEY_F5, AMIGA_KEY_BACKSPACE,
      AMIGA_KEY_DELETE, AMIGA_KEY_R, AMIGA_KEY_F6, AMIGA_KEY_F7, AMIGA_KEY_F8, AMIGA_KEY_F9,
      AMIGA_KEY_F10, AMIGA_KEY_ARROW_UP, AMIGA_KEY_ARROW_DOWN, AMIGA_KEY_ARROW_RIGHT,
      AMIGA_KEY_ARROW_LEFT, AMIGA_KEY_RETURN, AMIGA_KEY_SPACE, AMIGA_KEY_M in Hin.
    unfold AMIGA_KEY_COUNT, AMIGA_KEY_HELP, AMIGA_KEY_CAPS_LOCK,
      AMIGA_KEY_NUMPAD_NUMLOCK_LPAREN, AMIGA_KEY_NUMPAD_SCRLOCK_RPAREN.
    simpl in Hin. repeat destruct Hin as [<-|Hin]; [lia ..|contradiction]. }
  destruct Hc as (Hr & Hh & Hcl & Hnl & Hsl).
  destruct (total_handleFunctionModeKey c (set_functionMode true s)) as ([] & s2 & E2).
  exists s2.
  pose proof (handleFunctionModeKey_ignoreNextRelease _ _ _ _ E2) as Hi.
  assert (Hlt : (c <? AMIGA_KEY_COUNT) = true) by (apply Z.ltb_lt; lia).
  split; [|split; [|split; [exact E2 | split; [|split; reflexivity]]]].
  - unfold processKeyCode, bind, get, put. cbn beta iota delta [negb AMIGA_KEY_HELP AMIGA_KEY_COUNT Z.ltb Z.compare Pos.compare Pos.compare_cont].
    rewrite andb_false_r. reflexivity.
  - unfold processKeyCode, bind, get. rewrite Hlt. cbn [negb]. rewrite andb_false_r.
    apply Z.eqb_neq in Hh, Hcl, Hnl, Hsl. rewrite Hh, Hcl, Hnl, Hsl. reflexivity.
  - unfold processKeyCode, bind, get, put. rewrite Hlt. cbn [negb]. rewrite Hi.
    replace (c >? 0) with true by (symmetry; apply Z.gtb_lt; lia).
    rewrite Z.eqb_refl. reflexivity.
Qed.

Lemma help_layer_release_consumed_witness :
  exists s2,
    processKeyCode AMIGA_KEY_HELP true boot_state = Some (tt, set_functionMode true boot_state) /\
    processKeyCode AMIGA_KEY_F1 true (set_functionMode true boot_state)
      = handleFunctionModeKey AMIGA_KEY_F1 (set_functionMode true boot_state) /\
    handleFunctionModeKey AMIGA_KEY_F1 (set_functionMode true boot_state) = Some (tt, s2) /\
    processKeyCode AMIGA_KEY_F1 false s2 = Some (tt, set_ignoreNextRelease 0 s2) /\
    keyReport (set_ignoreNextRelease 0 s2) = keyReport s2 /\
    hidLog (set_ignoreNextRelease 0 s2) = hidLog s2.
Proof. apply help_layer_release_consumed. simpl. left. reflexivity. Defined.

(** ** C9 *)

(** C9 (as stated, fails): with macro slots 0 and 1 playing and a key held
    in the macro report, the poll that sees the reset line low moves the
    decoder to WAIT_RES and sends the reset chord, but slot 0 keeps playing
    and the macro-held key is not released. *)
Lemma C9_counterexample :
  match handleKeyboard decoder_at_handshake 0 0 two_playing_state with
  | Some (d', s') =>
      keyboardState d' = WAIT_RES /\
      hidLog s' <> hidLog two_playing_state /\
      playing (nth 0 (macroPlayStatus s') stoppedPlay) = true /\
      macroKeyReport s' = macroKeyReport two_playing_state /\
      macroKeyReport s' <> emptyReport
  | None => False
  end.
Proof.
  vm_compute. split; [reflexivity|]. split; [discriminate|].
  split; [reflexivity|]. split; [reflexivity | discriminate].
Qed.

(** C9 (what the code does): at a poll that sees the reset line low in any
    decoder state other than WAIT_RES, the decoder moves to WAIT_RES in that
    poll and function mode is cleared, but the macro play status, the macro
    report and its last sent copy are left as they were: no slot stops and
    no macro-held key is released.  In WAIT_RES, every poll with the reset
    line low does nothing, and the first poll with the line high moves the
    decoder to SYNCH_HI and changes nothing else. *)
Theorem reset_poll_keeps_macro_playback :
  (forall d pinb micros s,
     is_WAIT_RES (keyboardState d) = false ->
     Z.land pinb BITMASK_A500RES = 0 ->
     exists s', handleKeyboard d pinb micros s =
         Some (mkDecoder WAIT_RES (handshakeTimer d) (currentKeyCode d) (bitIndex d)
                 (spOutput d), s') /\
       functionMode s' = false /\
       macroPlayStatus s' = macroPlayStatus s /\
       macroKeyReport s' = macroKeyReport s /\
       macroPrevkeyReport s' = macroPrevkeyReport s) /\
  (forall d pinb micros s,
     keyboardState d = WAIT_RES -> Z.land pinb BITMASK_A500RES = 0 ->
     handleKeyboard d pinb micros s = Some (d, s)) /\
  (forall d pinb micros s,
     keyboardState d = WAIT_RES -> Z.land pinb BITMASK_A500RES <> 0 ->
     handleKeyboard d pinb micros s =
       Some (mkDecoder SYNCH_HI (handshakeTimer d) (currentKeyCode d) (bitIndex d)
               (spOutput d), s)).
Proof.
  split; [|split].
  - intros d pinb micros s Hw Hr. unfold handleKeyboard.
    rewrite (reset_branch d pinb micros Hw Hr).
    unfold keystroke, sendReport, delay, modify, bind, get, put, ret.
    destruct (first_free (keys (keyReport s))) as [i|].
    + cbn beta iota.
      match goal with |- context [report_eqb ?a ?b] => destruct (report_eqb a b) end;
      cbn beta iota;
      match goal with |- context [report_eqb ?a ?b] => destruct (report_eqb a b) end;
      eexists; (split; [reflexivity|]); cbn; repeat split.
    + eexists. split; [reflexivity|]. cbn. repeat split.
  - intros [st ht ck bi sp] pinb micros s Hk Hr. simpl in Hk. subst st.
    unfold handleKeyboard, kb_step. rewrite Hr. reflexivity.
  - intros [st ht ck bi sp] pinb micros s Hk Hr. simpl in Hk. subst st.
    unfold handleKeyboard, kb_step. apply Z.eqb_neq in Hr. rewrite Hr. reflexivity.
Qed.

Lemma reset_poll_keeps_macro_playback_witness :
  (exists s', handleKeyboard decoder_at_handshake 0 0 two_playing_state =
       Some (mkDecoder WAIT_RES 0 0 255 false, s') /\
     functionMode s' = false /\
     macroPlayStatus s' = macroPlayStatus two_playing_state /\
     macroKeyReport s' = macroKeyReport two_playing_state /\
     macroPrevkeyReport s' = macroPrevkeyReport two_playing_state) /\
  handleKeyboard (mkDecoder WAIT_RES 0 0 255 false) 0 0 two_playing_state
    = Some (mkDecoder WAIT_RES 0 0 255 false, two_playing_state) /\
  handleKeyboard (mkDecoder WAIT_RES 0 0 255 false) BITMASK_A500RES 0 two_playing_state
    = Some (mkDecoder SYNCH_HI 0 0 255 false, two_playing_state).
Proof.
  split; [|split].
  - apply (proj1 reset_poll_keeps_macro_playback); reflexivity.
  - apply (proj1 (proj2 reset_poll_keeps_macro_playback)); reflexivity.
  - apply (proj2 (proj2 reset_poll_keeps_macro_playback)); [reflexivity | vm_compute; discriminate].
Defined.

(** ** C3 *)

(** C3: for every content of the five macro slots that the C types allow
    (byte fields, 32-bit delays, 32 events and a length byte per slot) and a
    1 KiB EEPROM, saveMacrosToEEPROM followed by loadMacrosFromEEPROM into a
    zeroed macros array returns true and restores every slot exactly. *)
Theorem save_then_load_roundtrip s :
  wf_macros (macros s) = true -> length (eeprom s) = Z.to_nat SIZE_OF_EEPROM ->
  exists s1, saveMacrosToEEPROM s = Some (tt, s1) /\
    loadMacrosFromEEPROM (set_macros zeroMacros s1)
      = Some (true, set_macros (macros s) (set_macros zeroMacros s1)).
Proof.
  intros Hw Hl. change (Z.to_nat SIZE_OF_EEPROM) with 1024%nat in Hl.
  eexists. split; [apply saveMacrosToEEPROM_image; assumption|].
  apply (loadMacrosFromEEPROM_image _ _ (skipn 972 (eeprom s)) Hw). reflexivity.
Qed.

Lemma save_then_load_roundtrip_witness :
  exists s1, saveMacrosToEEPROM sample_state = Some (tt, s1) /\
    loadMacrosFromEEPROM (set_macros zeroMacros s1)
      = Some (true, set_macros (macros sample_state) (set_macros zeroMacros s1)).
Proof. apply save_then_load_roundtrip; vm_compute; reflexivity. Defined.

(** ** C4 *)

(** C4: whatever the EEPROM holds, when the version byte (address 0) is not
    MACRO_SAVE_VERSION, or the two-byte size (addresses 1-2) is not
    sizeof(macros), or the four-byte checksum stored after the slots differs
    from the Adler-32 of the slots read back from address 3, loadMacrosFromEEPROM
    returns false and leaves every macro slot zeroed, nothing else changed.  In
    particular, after a save, replacing any one of the 972 bytes it wrote by a
    different byte makes the next load fail that way. *)
Theorem load_rejects_corrupt_store :
  (forall s,
     le_value (eeprom_get 0 1 (eeprom s)) <> MACRO_SAVE_VERSION \/
     le_value (eeprom_get 1 2 (eeprom s)) <> SIZEOF_MACROS \/
     le_value (eeprom_get (snd (get_slots 5 3 (eeprom s))) 4 (eeprom s))
       <> adler32 (macros_image (fst (get_slots 5 3 (eeprom s)))) ->
     loadMacrosFromEEPROM s = Some (false, set_macros zeroMacros s)) /\
  (forall s, wf_macros (macros s) = true -> length (eeprom s) = Z.to_nat SIZE_OF_EEPROM ->
     exists s1, saveMacrosToEEPROM s = Some (tt, s1) /\
       forall p v s2, (p < 972)%nat -> 0 <= v < 256 -> v <> nth p (eeprom s1) 0 ->
         eeprom s2 = upd (eeprom s1) p v ->
         loadMacrosFromEEPROM s2 = Some (false, set_macros zeroMacros s2)).
Proof.
  split; [exact load_mismatch_clears|].
  intros s Hw Hl. change (Z.to_nat SIZE_OF_EEPROM) with 1024%nat in Hl.
  eexists. split; [apply saveMacrosToEEPROM_image; assumption|].
  intros p v s2 Hp Hv Hne Hs2. cbn [eeprom set_eeprom] in Hne, Hs2.
  pose proof (length_eeprom_image _ Hw) as Lim.
  rewrite app_nth1 in Hne by lia.
  apply load_mismatch_clears. rewrite Hs2.
  exact (corrupt_image_rejected (macros s) (skipn 972 (eeprom s)) p v Hw Hp Hv Hne).
Qed.

Lemma load_rejects_corrupt_store_witness :
  loadMacrosFromEEPROM boot_state = Some (false, set_macros zeroMacros boot_state) /\
  exists s1, saveMacrosToEEPROM sample_state = Some (tt, s1) /\
    nth 0 (eeprom s1) 0 = MACRO_SAVE_VERSION /\
    loadMacrosFromEEPROM (set_eeprom (upd (eeprom s1) 0 0) s1)
      = Some (false, set_macros zeroMacros (set_eeprom (upd (eeprom s1) 0 0) s1)).
Proof.
  split.
  - apply (proj1 load_rejects_corrupt_store). left. vm_compute. discriminate.
  - destruct (proj2 load_rejects_corrupt_store sample_state) as (s1 & E & H);
      [vm_compute; reflexivity | vm_compute; reflexivity |].
    assert (H0 : nth 0 (eeprom s1) 0 = MACRO_SAVE_VERSION).
    { vm_compute in E. injection E as <-. vm_compute. reflexivity. }
    exists s1. split; [exact E|]. split; [exact H0|].
    apply (H 0%nat 0); [lia | lia | rewrite H0; unfold MACRO_SAVE_VERSION; lia | reflexivity].
Defined.

(** * Further properties of the sketch *)


(** X1: with a free key slot and the previous report sent, [keystroke k m] sends the report with [k] in the first free slot and modifiers [m], then the unchanged report again, and advances the clock by [PROGRAMMATIC_KEYS_RELEASE]; nothing else changes. *)
Theorem keystroke_taps_key k m s i :
  first_free (keys (keyReport s)) = Some i -> prevkeyReport s = keyReport s -> k <> 0 ->
  keystroke k m s =
    Some (tt, set_now (u32 (now s + PROGRAMMATIC_KEYS_RELEASE))
           (set_hidLog (hidLog s ++
              [KbdOut HID_ID_KEYBOARD (mkKeyReport m (upd (keys (keyReport s)) i k));
               KbdOut HID_ID_KEYBOARD (keyReport s)]) s)).
Proof.
  intros Hf Hp Hk. destruct (first_free_spec _ _ Hf) as [Hi H0].
  assert (Hne : mkKeyReport m (upd (keys (keyReport s)) i k) <> keyReport s).
  { intros E. apply Hk. rewrite <- H0, <- E. simpl. symmetry. apply nth_upd_same. exact Hi. }
  unfold keystroke, sendReport, delay, bind, get, put, ret, modify. rewrite Hf.
  cbn [keyReport prevkeyReport set_keyReport set_prevkeyReport set_hidLog hidLog set_now now keys modifiers].
  rewrite Hp, (report_eqb_false _ _ Hne).
  cbn [keyReport prevkeyReport set_keyReport set_prevkeyReport set_hidLog hidLog set_now now keys modifiers].
  pose proof (upd_nth_same (keys (keyReport s)) i 0) as Hu. rewrite H0 in Hu.
  rewrite upd_upd_same, Hu.
  replace (mkKeyReport (modifiers (keyReport s)) (keys (keyReport s))) with (keyReport s)
    by (destruct (keyReport s); reflexivity).
  rewrite (report_eqb_false _ _ (not_eq_sym Hne)).
  destruct s as [kr pk mk mp mm hl ms mps r rs ml rms rmi rm fm inr ee nw]; simpl in *.
  subst pk. rewrite <- app_assoc. reflexivity.
Qed.

Lemma first_free_none ks : Forall (fun x => x <> 0) ks -> first_free ks = None.
Proof.
  induction 1 as [|x t Hx _ IH]; [reflexivity|]. simpl.
  rewrite (proj2 (Z.eqb_neq x 0) Hx), IH. reflexivity.
Qed.

(** X2: when all six key slots hold a key, [keystroke] changes nothing and sends nothing. *)
Theorem keystroke_full_report_dropped k m s :
  Forall (fun x => x <> 0) (keys (keyReport s)) -> keystroke k m s = Some (tt, s).
Proof.
  intros H. unfold keystroke, bind, get, ret. rewrite (first_free_none _ H). reflexivity.
Qed.

(** X3: for bits not yet set in [mmKeys], [multimediaKeystroke b] sends the multimedia report with [b] set and then the original one again, and advances the clock; [mmKeys] itself ends unchanged. *)
Theorem multimediaKeystroke_pulse b s :
  Z.land (mmKeys s) b = 0 ->
  multimediaKeystroke b s =
    Some (tt, set_now (u32 (now s + PROGRAMMATIC_KEYS_RELEASE))
           (set_hidLog (hidLog s ++ [MmOut HID_ID_MULTIMEDIA (Z.lor (mmKeys s) b);
                                     MmOut HID_ID_MULTIMEDIA (mmKeys s)]) s)).
Proof.
  intros H. unfold multimediaKeystroke, sendMultimediaKey, releaseMultimediaKey, delay,
    bind, modify. cbn [set_now set_hidLog set_mmKeys hidLog mmKeys now].
  rewrite (lor_land_lnot _ _ H), <- app_assoc.
  destruct s; reflexivity.
Qed.

Lemma report_eqb_refl r : report_eqb r r = true.
Proof. apply report_eqb_true_iff. reflexivity. Qed.

(** X17: sending the keyboard report (or the macro report) twice has the same effect as sending it once. *)
Theorem sendReport_idempotent s :
  (sendReport ;;; sendReport) s = sendReport s /\
  (sendReportMacro ;;; sendReportMacro) s = sendReportMacro s.
Proof.
  unfold sendReport, sendReportMacro, bind, modify. split.
  - destruct (report_eqb (keyReport s) (prevkeyReport s)) eqn:E; [rewrite E; reflexivity|].
    cbn [keyReport prevkeyReport set_prevkeyReport set_hidLog]. rewrite report_eqb_refl. reflexivity.
  - destruct (report_eqb (macroKeyReport s) (macroPrevkeyReport s)) eqn:E; [rewrite E; reflexivity|].
    cbn [macroKeyReport macroPrevkeyReport set_macroPrevkeyReport set_hidLog]. rewrite report_eqb_refl. reflexivity.
Qed.

Lemma nMacrosPlaying_none s :
  Forall (fun p => playing p = false) (macroPlayStatus s) -> nMacrosPlaying s = 0.
Proof.
  unfold nMacrosPlaying. generalize (Z.to_nat MACRO_SLOTS). intros n H.
  enough (E : filter playing (firstn n (macroPlayStatus s)) = []) by (rewrite E; reflexivity).
  revert n. induction H as [|p t Hp _ IH]; intros n; [destruct n; reflexivity|].
  destruct n; [reflexivity|]. simpl. rewrite Hp. apply IH.
Qed.

Lemma stopAllMacros_spec s :
  exists s', stopAllMacros s = Some (tt, s') /\
    nMacrosPlaying s' = 0 /\ macroKeyReport s' = emptyReport /\
    macroPrevkeyReport s' = emptyReport /\
    hidLog s' = hidLog s ++ (if report_eqb emptyReport (macroPrevkeyReport s) then []
                             else [KbdOut HID_ID_MACROVKEYS emptyReport]) /\
    keyReport s' = keyReport s /\ macros s' = macros s /\ eeprom s' = eeprom s.
Proof.
  unfold stopAllMacros, releaseAllMacro, resetReportMacro, sendReportMacro, bind, modify.
  cbn [macroKeyReport macroPrevkeyReport set_macroKeyReport set_macroPlayStatus].
  assert (Hn : forall s0, macroPlayStatus s0 =
                 map (fun p => if playing p then stoppedPlay else p) (macroPlayStatus s) ->
                 nMacrosPlaying s0 = 0).
  { intros s0 E. apply nMacrosPlaying_none. rewrite E. apply Forall_forall.
    intros p Hp. apply in_map_iff in Hp. destruct Hp as (q & <- & _).
    destruct (playing q) eqn:Q; [reflexivity | exact Q]. }
  destruct (report_eqb emptyReport (macroPrevkeyReport s)) eqn:E.
  - apply report_eqb_true_iff in E.
    eexists. split; [reflexivity|]. rewrite app_nil_r.
    repeat split; [apply Hn; reflexivity | symmetry; exact E].
  - eexists. split; [reflexivity|].
    repeat split. apply Hn. reflexivity.
Qed.

(** X9: [stopAllMacros] stops every slot and releases all macro keys, sending the empty macro report unless it was the last one sent; the main report and the macros are unchanged. *)
Theorem stopAllMacros_releases s :
  exists s', stopAllMacros s = Some (tt, s') /\
    nMacrosPlaying s' = 0 /\ macroKeyReport s' = emptyReport /\
    macroPrevkeyReport s' = emptyReport /\
    hidLog s' = hidLog s ++ (if report_eqb emptyReport (macroPrevkeyReport s) then []
                             else [KbdOut HID_ID_MACROVKEYS emptyReport]) /\
    keyReport s' = keyReport s /\ macros s' = macros s.
Proof.
  destruct (stopAllMacros_spec s) as (s' & E & A & B & C & D & F & G & _).
  exists s'. repeat split; assumption.
Qed.

(** X10: [startRecording] when not recording enters recording mode waiting for a slot key, with index 0, after stopping all macros and releasing the macro report; the main report and macros are unchanged. *)
Theorem startRecording_arms s :
  recording s = false ->
  exists s', startRecording s = Some (tt, s') /\
    recording s' = true /\ recordingSlot s' = false /\ recordingMacroIndex s' = 0 /\
    nMacrosPlaying s' = 0 /\ macroKeyReport s' = emptyReport /\
    keyReport s' = keyReport s /\ macros s' = macros s.
Proof.
  intros Hr. destruct (stopAllMacros_spec s) as (s1 & E1 & H1 & H2 & _ & _ & H5 & H6 & _).
  exists (set_recording true (set_recordingSlot false
            (set_recordingMacroSlot 0 (set_recordingMacroIndex 0 s1)))).
  split.
  - unfold startRecording, bind at 1, get. rewrite Hr. unfold bind. rewrite E1. reflexivity.
  - repeat split; try assumption.
Qed.



Lemma keyPressMacro_eq k s :
  0 <= k < AMIGA_KEY_COUNT ->
  keyPressMacro k s = sendReportMacro (set_macroKeyReport (press_report (macroKeyReport s) k) s).
Proof.
  intros Hk. unfold keyPressMacro, bind at 1. rewrite keyTable_at_in by exact Hk.
  unfold bind, modify, press_report. destruct (isAmigaModifierKey k); reflexivity.
Qed.

Lemma keyReleaseMacro_eq k s :
  0 <= k < AMIGA_KEY_COUNT ->
  keyReleaseMacro k s = sendReportMacro (set_macroKeyReport (release_report (macroKeyReport s) k) s).
Proof.
  intros Hk. unfold keyReleaseMacro, bind at 1. rewrite keyTable_at_in by exact Hk.
  unfold bind, modify, release_report. destruct (isAmigaModifierKey k); reflexivity.
Qed.

Lemma sendReportMacro_out s :
  exists s', sendReportMacro s = Some (tt, s') /\
    macroKeyReport s' = macroKeyReport s /\ keyReport s' = keyReport s /\
    prevkeyReport s' = prevkeyReport s /\ macroPrevkeyReport s' = macroKeyReport s.
Proof.
  unfold sendReportMacro, modify.
  destruct (report_eqb (macroKeyReport s) (macroPrevkeyReport s)) eqn:E.
  - apply report_eqb_true_iff in E. eexists. split; [reflexivity|]. repeat split. symmetry; exact E.
  - eexists. split; [reflexivity|]. repeat split.
Qed.

(** X4: pressing then releasing a valid key on the macro virtual keyboard, when that key is not already held there, returns the macro report to what it was, and leaves the main keyboard's report and its last sent copy alone. *)
Theorem macro_press_release_restores k s :
  0 <= k < AMIGA_KEY_COUNT -> not_held (macroKeyReport s) k ->
  exists s1 s2, keyPressMacro k s = Some (tt, s1) /\ keyReleaseMacro k s1 = Some (tt, s2) /\
    macroKeyReport s1 = press_report (macroKeyReport s) k /\
    macroKeyReport s2 = macroKeyReport s /\
    keyReport s2 = keyReport s /\ prevkeyReport s2 = prevkeyReport s.
Proof.
  intros Hk Hn.
  destruct (sendReportMacro_out (set_macroKeyReport (press_report (macroKeyReport s) k) s))
    as (s1 & E1 & A1 & B1 & C1 & _).
  destruct (sendReportMacro_out (set_macroKeyReport (release_report (macroKeyReport s1) k) s1))
    as (s2 & E2 & A2 & B2 & C2 & _).
  exists s1, s2. rewrite keyPressMacro_eq, keyReleaseMacro_eq by exact Hk.
  split; [exact E1|]. split; [exact E2|]. split; [exact A1|].
  rewrite A2, B2, C2. cbn [macroKeyReport keyReport prevkeyReport set_macroKeyReport].
  rewrite A1, B1, C1. split; [apply release_press_report; exact Hn | split; reflexivity].
Qed.

(** ** Frame of macro playback *)

Lemma macro_frame_refl s : macro_frame s s.
Proof.
  repeat split; auto. exists []. split; [symmetry; apply app_nil_r | constructor].
Qed.

Lemma macro_frame_trans s1 s2 s3 : macro_frame s1 s2 -> macro_frame s2 s3 -> macro_frame s1 s3.
Proof.
  intros (A1 & B1 & C1 & D1 & E1 & F1 & G1 & H1 & I1 & J1 & o1 & K1 & L1)
         (A2 & B2 & C2 & D2 & E2 & F2 & G2 & H2 & I2 & J2 & o2 & K2 & L2).
  repeat split; try congruence; auto.
  exists (o1 ++ o2). split; [rewrite K2, K1, app_assoc; reflexivity | apply Forall_app; auto].
Qed.

Lemma pres_at_bind {A B} s (m : M A) (f : A -> M B) :
  pres_at s m -> (forall a s1, m s = Some (a, s1) -> pres_at s1 (f a)) -> pres_at s (bind m f).
Proof.
  intros Hm Hf b s2. unfold bind. destruct (m s) as [[a s1]|] eqn:E; [|discriminate].
  intros H. apply (macro_frame_trans _ s1); [exact (Hm _ _ E) | exact (Hf _ _ eq_refl _ _ H)].
Qed.

Lemma pres_at_get {A} s (k : State -> M A) : pres_at s (k s) -> pres_at s (bind get k).
Proof. intros H. exact H. Qed.

Lemma pres_at_ret {A} s (a : A) : pres_at s (ret a).
Proof. intros b s' H. injection H as _ <-. apply macro_frame_refl. Qed.

Lemma pres_at_event_at s slot i : pres_at s (event_at slot i).
Proof.
  intros a s'. unfold event_at. destruct (nth_error _ _); [|discriminate].
  intros H. injection H as _ <-. apply macro_frame_refl.
Qed.

Lemma status_of_set_status i slot p s :
  status_of i (set_status slot p s) =
  if Nat.eqb i slot then (if Nat.ltb slot (length (macroPlayStatus s)) then p else stoppedPlay)
  else status_of i s.
Proof.
  unfold status_of, set_status. cbn [macroPlayStatus set_macroPlayStatus].
  destruct (Nat.eqb_spec i slot) as [->|Hne].
  - destruct (Nat.ltb_spec slot (length (macroPlayStatus s))).
    + apply nth_upd_same. exact H.
    + apply nth_upd_default. exact H.
  - apply nth_upd_other. exact Hne.
Qed.

Lemma pres_at_set_status s slot p :
  (playing p = true -> playing (status_of slot s) = true) -> pres_at s (put (set_status slot p s)).
Proof.
  intros Hp a s' H. injection H as _ <-.
  repeat split; try reflexivity.
  - unfold set_status. cbn [macroPlayStatus set_macroPlayStatus]. apply length_upd.
  - intros i. rewrite status_of_set_status.
    destruct (Nat.eqb_spec i slot) as [->|_]; [|auto].
    destruct (Nat.ltb slot _); [exact Hp | discriminate].
  - exists []. split; [symmetry; apply app_nil_r | constructor].
Qed.

Lemma pres_at_sendReportMacro s : pres_at s sendReportMacro.
Proof.
  intros a s' H. unfold sendReportMacro, modify in H. injection H as _ <-.
  destruct (report_eqb _ _); [apply macro_frame_refl|].
  repeat split; try reflexivity; auto.
  exists [KbdOut HID_ID_MACROVKEYS (macroKeyReport s)]. split; [reflexivity|].
  constructor; [eexists; reflexivity | constructor].
Qed.

Lemma pres_at_macroKeyReport s r (m : M unit) :
  pres_at (set_macroKeyReport r s) m -> pres_at s (modify (set_macroKeyReport r) ;;; m).
Proof.
  intros H. apply pres_at_bind.
  - intros a s' E. injection E as _ <-. repeat split; try reflexivity; auto.
    exists []. split; [symmetry; apply app_nil_r | constructor].
  - intros a s1 E. injection E as _ <-. exact H.
Qed.

Lemma pres_at_keyPressMacro s k : pres_at s (keyPressMacro k).
Proof.
  unfold keyPressMacro. apply pres_at_bind.
  - intros a s' E. unfold keyTable_at in E. destruct (_ && _); [|discriminate].
    injection E as _ <-. apply macro_frame_refl.
  - intros a s1 _. destruct (isAmigaModifierKey k).
    + apply (pres_at_macroKeyReport s1 (mkKeyReport (Z.lor (modifiers (macroKeyReport s1)) a) (keys (macroKeyReport s1)))).
      apply pres_at_sendReportMacro.
    + apply (pres_at_macroKeyReport s1 (mkKeyReport (modifiers (macroKeyReport s1)) (press_slot (keys (macroKeyReport s1)) a))).
      apply pres_at_sendReportMacro.
Qed.

Lemma pres_at_keyReleaseMacro s k : pres_at s (keyReleaseMacro k).
Proof.
  unfold keyReleaseMacro. apply pres_at_bind.
  - intros a s' E. unfold keyTable_at in E. destruct (_ && _); [|discriminate].
    injection E as _ <-. apply macro_frame_refl.
  - intros a s1 _. destruct (isAmigaModifierKey k).
    + apply (pres_at_macroKeyReport s1 (mkKeyReport (Z.land (modifiers (macroKeyReport s1)) (Z.lnot a)) (keys (macroKeyReport s1)))).
      apply pres_at_sendReportMacro.
    + apply (pres_at_macroKeyReport s1 (mkKeyReport (modifiers (macroKeyReport s1)) (release_slots (keys (macroKeyReport s1)) a))).
      apply pres_at_sendReportMacro.
Qed.

Lemma pres_at_play_events fuel slot ct nd s : pres_at s (play_events fuel slot ct nd).
Proof.
  revert nd s. induction fuel as [|fuel IH]; intros nd s; [apply pres_at_ret|].
  cbn [play_events]. apply pres_at_get.
  destruct (_ && _); [|apply pres_at_ret].
  apply pres_at_bind; [apply pres_at_event_at|]. intros ev s1 _.
  apply pres_at_bind; [destruct (negb _); [apply pres_at_keyPressMacro | apply pres_at_keyReleaseMacro]|].
  intros [] s2 _. apply pres_at_get.
  apply pres_at_bind; [apply pres_at_set_status; cbn [playing]; auto|].
  intros [] s3 _. apply pres_at_get.
  destruct (_ <? _); [destruct (robotMacroMode s3)|]; [apply IH| |apply IH].
  apply pres_at_bind; [apply pres_at_event_at|]. intros ev' s4 _. apply IH.
Qed.

Lemma pres_at_play_slot slot ct s : pres_at s (play_slot slot ct).
Proof.
  unfold play_slot. apply pres_at_get.
  destruct (playing (status_of slot s)); [|apply pres_at_ret].
  apply pres_at_bind; [apply pres_at_event_at|]. intros ev s1 _.
  apply pres_at_bind; [apply pres_at_play_events|]. intros [] s2 _. apply pres_at_get.
  destruct (_ >=? _); [|apply pres_at_ret].
  destruct (loop (status_of slot s2)); apply pres_at_set_status; cbn [playing]; [auto | discriminate].
Qed.

Lemma pres_at_play_slots slots ct s : pres_at s (play_slots slots ct).
Proof.
  revert s. induction slots as [|i t IH]; intros s; [apply pres_at_ret|].
  cbn [play_slots]. apply pres_at_bind; [apply pres_at_play_slot|]. intros [] s1 _. apply IH.
Qed.

Lemma playMacro_frame lm s lm' s' : playMacro lm s = Some (lm', s') -> macro_frame s s'.
Proof.
  revert lm' s'. change (pres_at s (playMacro lm)). unfold playMacro. apply pres_at_get.
  destruct (recording s); [apply pres_at_ret|].
  destruct (_ >=? _); [|apply pres_at_ret].
  apply pres_at_bind; [apply pres_at_play_slots|]. intros [] s1 _. apply pres_at_ret.
Qed.


Lemma sendReportMacro_fields s :
  exists s', sendReportMacro s = Some (tt, s') /\
    macroKeyReport s' = macroKeyReport s /\ macroPlayStatus s' = macroPlayStatus s /\
    macros s' = macros s /\ robotMacroMode s' = robotMacroMode s /\ now s' = now s /\
    recording s' = recording s.
Proof.
  unfold sendReportMacro, modify. destruct (report_eqb _ _).
  - exists s. repeat split.
  - eexists. split; [reflexivity|]. repeat split.
Qed.

Lemma macro_event_step ev s :
  0 <= ev_keyCode ev < AMIGA_KEY_COUNT ->
  exists s', (if negb (ev_isPressed ev =? 0) then keyPressMacro (ev_keyCode ev)
              else keyReleaseMacro (ev_keyCode ev)) s = Some (tt, s') /\
    macroKeyReport s' = apply_event (macroKeyReport s) ev /\
    macroPlayStatus s' = macroPlayStatus s /\ macros s' = macros s /\
    robotMacroMode s' = robotMacroMode s /\ now s' = now s /\ recording s' = recording s.
Proof.
  intros Hk. unfold apply_event. destruct (negb _).
  - rewrite keyPressMacro_eq by exact Hk.
    destruct (sendReportMacro_fields (set_macroKeyReport (press_report (macroKeyReport s) (ev_keyCode ev)) s))
      as (s' & E & H). exists s'. split; [exact E | exact H].
  - rewrite keyReleaseMacro_eq by exact Hk.
    destruct (sendReportMacro_fields (set_macroKeyReport (release_report (macroKeyReport s) (ev_keyCode ev)) s))
      as (s' & E & H). exists s'. split; [exact E | exact H].
Qed.

Lemma event_at_in slot i s :
  0 <= i -> (Z.to_nat i < length (keyEvents (nth slot (macros s) zeroMacro)))%nat ->
  event_at slot i s = Some (nth (Z.to_nat i) (keyEvents (nth slot (macros s) zeroMacro)) zeroEvent, s).
Proof.
  intros _ Hi. unfold event_at.
  destruct (nth_error _ _) eqn:E.
  - rewrite (nth_error_nth _ _ _ E). reflexivity.
  - apply nth_error_None in E. lia.
Qed.

Lemma skipn_nth_cons {A} (l : list A) i d :
  (i < length l)%nat -> skipn i l = nth i l d :: skipn (S i) l.
Proof.
  revert i; induction l as [|x t IH]; intros i Hi; [simpl in Hi; lia|].
  destruct i; [reflexivity|]. simpl. apply IH. simpl in Hi. lia.
Qed.

Lemma play_events_run fuel slot ct : forall nd s k,
  let ps := status_of slot s in
  let evs := keyEvents (nth slot (macros s) zeroMacro) in
  let len := macro_length (nth slot (macros s) zeroMacro) in
  let i := Z.to_nat (macroIndex ps) in
  let el := u32 (ct - playStartTime ps) in
  (slot < length (macroPlayStatus s))%nat ->
  0 <= macroIndex ps -> 0 <= len <= 32 -> length evs = 32%nat ->
  (i <= k <= Z.to_nat len)%nat -> (k - i < fuel)%nat ->
  ((i < Z.to_nat len)%nat -> nd = threshold (robotMacroMode s) evs i) ->
  (forall jj, (i <= jj < k)%nat ->
     threshold (robotMacroMode s) evs jj <= el /\
     0 <= ev_keyCode (nth jj evs zeroEvent) < AMIGA_KEY_COUNT) ->
  ((k < Z.to_nat len)%nat -> el < threshold (robotMacroMode s) evs k) ->
  exists s', play_events fuel slot ct nd s = Some (tt, s') /\
    macroKeyReport s' = fold_left apply_event (firstn (k - i) (skipn i evs)) (macroKeyReport s) /\
    status_of slot s' = mkPlay (playing ps) (loop ps) (Z.of_nat k) (playStartTime ps) /\
    macros s' = macros s /\ robotMacroMode s' = robotMacroMode s /\ now s' = now s /\
    recording s' = recording s /\ length (macroPlayStatus s') = length (macroPlayStatus s) /\
    (forall i', i' <> slot -> status_of i' s' = status_of i' s).
Proof.
  induction fuel as [|fuel IH]; intros nd s k ps evs len i el Hs Hi0 Hlen Hevs Hk Hf Hnd Hdue Hnot;
    [lia|].
  cbn [play_events]. unfold bind at 1, get at 1. cbv beta iota.
  fold ps. change (nth slot (macros s) zeroMacro) with (nth slot (macros s) zeroMacro).
  destruct (Nat.eq_dec i k) as [<-|Hik].
  - (* nothing due: the loop exits at once *)
    replace ((macroIndex ps <? macro_length (nth slot (macros s) zeroMacro)) &&
             (nd <=? u32 (ct - playStartTime ps))) with false.
    + exists s. split; [reflexivity|].
      rewrite Nat.sub_diag. split; [reflexivity|].
      split; [|repeat split; auto].
      unfold i. rewrite Z2Nat.id by exact Hi0. unfold ps. destruct (status_of slot s); reflexivity.
    + symmetry. destruct (Nat.lt_ge_cases i (Z.to_nat len)) as [Hlt|Hge].
      * rewrite (Hnd Hlt). apply andb_false_intro2. apply Z.leb_gt. apply Hnot. exact Hlt.
      * apply andb_false_intro1. apply Z.ltb_ge. fold len. lia.
  - (* event i is due: it is played and the loop goes on from i + 1 *)
    assert (Hlt : (i < k)%nat) by lia.
    destruct (Hdue i ltac:(lia)) as [Hd Hkc].
    replace ((macroIndex ps <? macro_length (nth slot (macros s) zeroMacro)) &&
             (nd <=? u32 (ct - playStartTime ps))) with true.
    2:{ symmetry. apply andb_true_intro. split.
        - apply Z.ltb_lt. fold len. lia.
        - apply Z.leb_le. rewrite Hnd by lia. exact Hd. }
    unfold bind at 1. rewrite event_at_in by (fold evs; lia).
    fold evs. fold i.
    destruct (macro_event_step (nth i evs zeroEvent) s Hkc) as (s1 & E1 & K1 & P1 & M1 & R1 & N1 & C1).
    unfold bind at 1. rewrite E1. unfold bind at 1, get at 1. cbv beta iota.
    assert (Ps1 : status_of slot s1 = ps) by (unfold status_of; rewrite P1; reflexivity).
    rewrite Ps1.
    assert (Hidx : u8 (macroIndex ps + 1) = Z.of_nat (S i)).
    { unfold u8, i. rewrite Nat2Z.inj_succ, Z2Nat.id by exact Hi0. apply Z.mod_small. lia. }
    rewrite Hidx.
    set (s2 := set_status slot (mkPlay (playing ps) (loop ps) (Z.of_nat (S i)) (playStartTime ps)) s1).
    unfold bind at 1, put at 1. cbv beta iota. unfold bind at 1, get at 1. cbv beta iota.
    assert (Ps2 : status_of slot s2 = mkPlay (playing ps) (loop ps) (Z.of_nat (S i)) (playStartTime ps)).
    { unfold s2. rewrite status_of_set_status, Nat.eqb_refl, P1.
      replace (Nat.ltb slot (length (macroPlayStatus s))) with true by (symmetry; apply Nat.ltb_lt; exact Hs).
      reflexivity. }
    assert (M2 : macros s2 = macros s) by exact M1.
    assert (R2 : robotMacroMode s2 = robotMacroMode s) by exact R1.
    assert (L2 : length (macroPlayStatus s2) = length (macroPlayStatus s)).
    { unfold s2, set_status. cbn [macroPlayStatus set_macroPlayStatus]. rewrite length_upd, P1. reflexivity. }
    assert (O2 : forall i', i' <> slot -> status_of i' s2 = status_of i' s).
    { intros i' Hne. unfold s2. rewrite status_of_set_status.
      destruct (Nat.eqb_spec i' slot); [contradiction|]. unfold status_of. rewrite P1. reflexivity. }
    assert (Hfold : firstn (k - i) (skipn i evs) =
                    nth i evs zeroEvent :: firstn (k - S i) (skipn (S i) evs)).
    { rewrite (skipn_nth_cons evs i zeroEvent) by lia.
      replace (k - i)%nat with (S (k - S i)) by lia. reflexivity. }
    (* the hypotheses of the induction, at s2 *)
    assert (IHs2 : forall nd',
      ((S i < Z.to_nat len)%nat -> nd' = threshold (robotMacroMode s) evs (S i)) ->
      exists s', play_events fuel slot ct nd' s2 = Some (tt, s') /\
        macroKeyReport s' = fold_left apply_event (firstn (k - S i) (skipn (S i) evs)) (macroKeyReport s2) /\
        status_of slot s' = mkPlay (playing ps) (loop ps) (Z.of_nat k) (playStartTime ps) /\
        macros s' = macros s /\ robotMacroMode s' = robotMacroMode s /\ now s' = now s /\
        recording s' = recording s /\ length (macroPlayStatus s') = length (macroPlayStatus s) /\
        (forall i', i' <> slot -> status_of i' s' = status_of i' s)).
    { intros nd' Hnd'.
      destruct (IH nd' s2 k) as (s' & E & K & P & M & R & N & C & L & O);
        rewrite ?Ps2, ?M2, ?R2, ?L2; cbn [macroIndex playStartTime playing loop];
        rewrite ?Nat2Z.id; fold evs len.
      - lia.
      - lia.
      - exact Hlen.
      - exact Hevs.
      - lia.
      - lia.
      - exact Hnd'.
      - intros jj Hjj. apply Hdue. lia.
      - exact Hnot.
      - exists s'. rewrite Ps2, M2, R2, L2 in *. cbn [playing loop playStartTime] in P.
        repeat split; try assumption; try congruence.
        + cbn [macroIndex] in K. rewrite Nat2Z.id in K. exact K.
        + rewrite N. exact N1.
        + rewrite C. exact C1.
        + intros i' Hne. rewrite O by exact Hne. apply O2. exact Hne. }
    destruct (Z.ltb_spec (Z.of_nat (S i)) (macro_length (nth slot (macros s2) zeroMacro))) as [Hn|Hn].
    + rewrite M2 in Hn. fold len in Hn. rewrite R2.
      destruct (robotMacroMode s) eqn:Rb.
      * destruct (IHs2 (Z.of_nat (S i) * MACRO_DELAY)) as (s' & IHs).
        { intros _. unfold threshold. try rewrite Rb. reflexivity. }
        exists s'. destruct IHs as (E & K & rest). split; [exact E|]. split; [|exact rest].
        rewrite K, Hfold. cbn [fold_left]. unfold s2, set_status.
        cbn [macroKeyReport set_macroPlayStatus]. rewrite K1. reflexivity.
      * unfold bind at 1. rewrite event_at_in; [ | lia | rewrite Nat2Z.id; unfold s2, set_status; cbn [macros set_macroPlayStatus]; rewrite M1; fold evs; lia].
        rewrite M2. fold evs. rewrite Nat2Z.id.
        destruct (IHs2 (ev_delay (nth (S i) evs zeroEvent))) as (s' & IHs).
        { intros _. unfold threshold. try rewrite Rb. reflexivity. }
        exists s'. destruct IHs as (E & K & rest). split; [exact E|]. split; [|exact rest].
        rewrite K, Hfold. cbn [fold_left]. unfold s2, set_status.
        cbn [macroKeyReport set_macroPlayStatus]. rewrite K1. reflexivity.
    + destruct (IHs2 nd) as (s' & IHs).
      { intros Hc. rewrite M2 in Hn. fold len in Hn. lia. }
      exists s'. destruct IHs as (E & K & rest). split; [exact E|]. split; [|exact rest].
      rewrite K, Hfold. cbn [fold_left]. unfold s2, set_status.
      cbn [macroKeyReport set_macroPlayStatus]. rewrite K1. reflexivity.
Qed.


Lemma play_slot_idle slot ct s :
  playing (status_of slot s) = false -> play_slot slot ct s = Some (tt, s).
Proof.
  intros H. unfold play_slot, bind at 1, get at 1. cbv beta iota. rewrite H. reflexivity.
Qed.

Lemma play_slots_idle ct : forall l s,
  (forall x, In x l -> playing (status_of x s) = false) -> play_slots l ct s = Some (tt, s).
Proof.
  induction l as [|x t IH]; intros s H; [reflexivity|].
  cbn [play_slots]. unfold bind at 1. rewrite play_slot_idle by (apply H; left; reflexivity).
  apply IH. intros y Hy. apply H. right. exact Hy.
Qed.

Lemma play_slots_one ct j s s' : forall l1 l2,
  (forall x, In x l1 -> playing (status_of x s) = false) ->
  play_slot j ct s = Some (tt, s') ->
  (forall x, In x l2 -> playing (status_of x s') = false) ->
  play_slots (l1 ++ j :: l2) ct s = Some (tt, s').
Proof.
  induction l1 as [|x t IH]; intros l2 H1 Hj H2.
  - cbn [app play_slots]. unfold bind at 1. rewrite Hj. apply play_slots_idle. exact H2.
  - cbn [app play_slots]. unfold bind at 1. rewrite play_slot_idle by (apply H1; left; reflexivity).
    apply IH; [|exact Hj|exact H2]. intros y Hy. apply H1. right. exact Hy.
Qed.

Lemma play_slot_run slot ct s k :
  let ps := status_of slot s in
  let evs := keyEvents (nth slot (macros s) zeroMacro) in
  let len := macro_length (nth slot (macros s) zeroMacro) in
  let i := Z.to_nat (macroIndex ps) in
  let el := u32 (ct - playStartTime ps) in
  (slot < length (macroPlayStatus s))%nat -> playing ps = true ->
  0 <= macroIndex ps < 32 -> 0 <= len <= 32 -> length evs = 32%nat ->
  (i <= k <= Z.to_nat len)%nat ->
  (forall jj, (i <= jj < k)%nat ->
     threshold (robotMacroMode s) evs jj <= el /\
     0 <= ev_keyCode (nth jj evs zeroEvent) < AMIGA_KEY_COUNT) ->
  ((k < Z.to_nat len)%nat -> el < threshold (robotMacroMode s) evs k) ->
  exists s', play_slot slot ct s = Some (tt, s') /\
    macroKeyReport s' = fold_left apply_event (firstn (k - i) (skipn i evs)) (macroKeyReport s) /\
    status_of slot s' = (if (k <? Z.to_nat len)%nat then mkPlay true (loop ps) (Z.of_nat k) (playStartTime ps)
                         else if loop ps then mkPlay true true 0 (now s) else mkPlay false false 0 0) /\
    macros s' = macros s /\ robotMacroMode s' = robotMacroMode s /\ now s' = now s /\
    recording s' = recording s /\ length (macroPlayStatus s') = length (macroPlayStatus s) /\
    (forall i', i' <> slot -> status_of i' s' = status_of i' s).
Proof.
  intros ps evs len i el Hs Hp Hi Hlen Hevs Hk Hdue Hnot.
  unfold play_slot, bind at 1, get at 1. cbv beta iota. fold ps. rewrite Hp.
  unfold bind at 1. rewrite event_at_in by (fold evs; lia). cbv beta zeta.
  destruct (play_events_run PLAY_FUEL slot ct
              (if robotMacroMode s then macroIndex ps * MACRO_DELAY
               else ev_delay (nth (Z.to_nat (macroIndex ps)) evs zeroEvent)) s k)
    as (s1 & E & K & P & M & R & N & C & L & O);
    fold ps evs len i el; try lia; try assumption.
  { unfold PLAY_FUEL. lia. }
  { intros _. unfold threshold, i. destruct (robotMacroMode s); [|reflexivity].
    rewrite Z2Nat.id by lia. reflexivity. }
  fold evs. fold i in E. fold ps in P. rewrite Hp in P. unfold bind at 1. rewrite E. unfold bind at 1, get at 1. cbv beta iota.
  rewrite P, M. fold len. cbn [macroIndex playing loop playStartTime].
  fold ps.
  destruct (Nat.ltb_spec k (Z.to_nat len)) as [Hlt|Hge].
  - replace (Z.of_nat k >=? len) with false
      by (symmetry; rewrite Z.geb_leb; apply Z.leb_gt; lia).
    exists s1. repeat split; try assumption.
  - replace (Z.of_nat k >=? len) with true
      by (symmetry; rewrite Z.geb_leb; apply Z.leb_le; lia).
    destruct (loop ps); unfold put.
    + eexists. split; [reflexivity|].
      unfold set_status. cbn [macroKeyReport macros robotMacroMode now recording macroPlayStatus set_macroPlayStatus].
      repeat split; try assumption.
      * unfold status_of. cbn [macroPlayStatus set_macroPlayStatus]. rewrite nth_upd_same by lia.
        rewrite N. reflexivity.
      * rewrite length_upd. exact L.
      * intros i' Hne. unfold status_of. cbn [macroPlayStatus set_macroPlayStatus].
        rewrite nth_upd_other by exact Hne. apply O. exact Hne.
    + eexists. split; [reflexivity|].
      unfold set_status. cbn [macroKeyReport macros robotMacroMode now recording macroPlayStatus set_macroPlayStatus].
      repeat split; try assumption.
      * unfold status_of. cbn [macroPlayStatus set_macroPlayStatus]. rewrite nth_upd_same by lia.
        reflexivity.
      * rewrite length_upd. exact L.
      * intros i' Hne. unfold status_of. cbn [macroPlayStatus set_macroPlayStatus].
        rewrite nth_upd_other by exact Hne. apply O. exact Hne.
Qed.

Lemma seq_split j : (j < 5)%nat -> seq 0 (Z.to_nat MACRO_SLOTS) = seq 0 j ++ j :: seq (S j) (4 - j).
Proof.
  intros Hj. change (Z.to_nat MACRO_SLOTS) with 5%nat. replace 5%nat with (j + S (4 - j))%nat by lia.
  rewrite seq_app. reflexivity.
Qed.

(** X8: when one slot plays alone and the interval has elapsed, [playMacro] plays exactly the events of that slot that are due at [now], in order, on the macro report; it then advances the slot's index, or restarts a looping slot, or stops a finished one, and leaves the other slots' status alone. *)
Theorem playMacro_replays_due_events lm s j k :
  let ps := status_of j s in
  let evs := keyEvents (nth j (macros s) zeroMacro) in
  let len := macro_length (nth j (macros s) zeroMacro) in
  let i := Z.to_nat (macroIndex ps) in
  let el := u32 (now s - playStartTime ps) in
  recording s = false -> MACRO_DELAY <= u32 (now s - lm) ->
  (j < 5)%nat -> (j < length (macroPlayStatus s))%nat ->
  playing ps = true ->
  (forall x, (x < 5)%nat -> x <> j -> playing (status_of x s) = false) ->
  0 <= macroIndex ps < 32 -> 0 <= len <= 32 -> length evs = 32%nat ->
  (i <= k <= Z.to_nat len)%nat ->
  (forall jj, (i <= jj < k)%nat ->
     threshold (robotMacroMode s) evs jj <= el /\
     0 <= ev_keyCode (nth jj evs zeroEvent) < AMIGA_KEY_COUNT) ->
  ((k < Z.to_nat len)%nat -> el < threshold (robotMacroMode s) evs k) ->
  exists s', playMacro lm s = Some (now s, s') /\
    macroKeyReport s' = fold_left apply_event (firstn (k - i) (skipn i evs)) (macroKeyReport s) /\
    status_of j s' = (if (k <? Z.to_nat len)%nat then mkPlay true (loop ps) (Z.of_nat k) (playStartTime ps)
                      else if loop ps then mkPlay true true 0 (now s) else mkPlay false false 0 0) /\
    (forall x, x <> j -> status_of x s' = status_of x s).
Proof.
  intros ps evs len i el Hrec Hdel Hj5 Hj Hp Hother Hi Hlen Hevs Hk Hdue Hnot.
  destruct (play_slot_run j (now s) s k) as (s1 & E & K & P & M & R & N & C & L & O);
    fold ps evs len i; try assumption.
  unfold playMacro, bind at 1, get at 1. cbv beta iota. rewrite Hrec.
  replace (u32 (now s - lm) >=? MACRO_DELAY) with true
    by (symmetry; rewrite Z.geb_leb; apply Z.leb_le; exact Hdel).
  rewrite (seq_split j Hj5).
  unfold bind at 1.
  rewrite (play_slots_one (now s) j s s1 (seq 0 j) (seq (S j) (4 - j))); [| | exact E |].
  - unfold bind, get, ret. exists s1. rewrite N. repeat split; assumption.
  - intros x Hx. apply in_seq in Hx. apply Hother; lia.
  - intros x Hx. apply in_seq in Hx. rewrite O by lia. apply Hother; lia.
Qed.



Lemma count_playing_none : forall n l,
  (forall i, playing (nth i l stoppedPlay) = false) -> count_playing n l = 0%nat.
Proof.
  unfold count_playing.
  induction n as [|n IH]; intros l H; [reflexivity|].
  destruct l as [|p t]; [reflexivity|].
  cbn [firstn filter]. pose proof (H 0%nat) as H0. cbn [nth] in H0. rewrite H0.
  apply IH. intros i. exact (H (S i)).
Qed.

Lemma count_playing_mono : forall n l l',
  (forall i, playing (nth i l' stoppedPlay) = true -> playing (nth i l stoppedPlay) = true) ->
  (count_playing n l' <= count_playing n l)%nat.
Proof.
  induction n as [|n IH]; intros l l' H; [unfold count_playing; simpl; lia|].
  destruct l as [|p t].
  - rewrite count_playing_none; [lia|].
    intros i. specialize (H i). assert (Hd : nth i [] stoppedPlay = stoppedPlay) by (destruct i; reflexivity).
    rewrite Hd in H. cbn [playing stoppedPlay] in H. destruct (playing (nth i l' stoppedPlay)); [discriminate (H eq_refl) | reflexivity].
  - destruct l' as [|p' t']; [unfold count_playing; simpl; lia|].
    unfold count_playing. cbn [firstn filter].
    assert (Ht : (count_playing n t' <= count_playing n t)%nat)
      by (apply IH; intros i; exact (H (S i))).
    unfold count_playing in Ht.
    specialize (H 0%nat). cbn [nth] in H.
    destruct (playing p'), (playing p); cbn [length]; try lia.
Qed.

Lemma count_playing_upd : forall n l i p,
  (count_playing n (upd l i p) <= count_playing n l + (if playing p then 1 else 0))%nat.
Proof.
  unfold count_playing.
  induction n as [|n IH]; intros l i p; [simpl; lia|].
  destruct l as [|x t]; [simpl; lia|].
  destruct i as [|i].
  - cbn [upd firstn filter].
    destruct (playing p), (playing x); cbn [length]; lia.
  - cbn [upd firstn filter]. specialize (IH t i p).
    destruct (playing x); cbn [length]; lia.
Qed.

Lemma nMacrosPlaying_count s :
  nMacrosPlaying s = Z.of_nat (count_playing 5 (macroPlayStatus s)).
Proof. reflexivity. Qed.

Lemma releaseAllMacro_status s :
  exists s', releaseAllMacro s = Some (tt, s') /\ macroPlayStatus s' = macroPlayStatus s.
Proof.
  unfold releaseAllMacro, resetReportMacro, sendReportMacro, bind, modify, get.
  destruct (report_eqb _ _); eexists; split; reflexivity.
Qed.

(** X5: a run of [playMacro] never touches the main keyboard report, its last sent copy, the multimedia keys, the macros or the EEPROM, never starts a slot, and only appends macro-keyboard reports to the HID output. *)
Theorem playMacro_isolated lm s lm' s' :
  playMacro lm s = Some (lm', s') ->
  keyReport s' = keyReport s /\ prevkeyReport s' = prevkeyReport s /\ mmKeys s' = mmKeys s /\
  macros s' = macros s /\ eeprom s' = eeprom s /\
  (forall i, playing (status_of i s') = true -> playing (status_of i s) = true) /\
  exists out, hidLog s' = hidLog s ++ out /\ Forall (fun o => exists r, o = KbdOut HID_ID_MACROVKEYS r) out.
Proof.
  intros H. destruct (playMacro_frame _ _ _ _ H) as (A & B & C & D & E & _ & _ & _ & _ & J & K).
  repeat split; assumption.
Qed.

(** X6: a run of [playMacro] never increases the number of playing macro slots. *)
Theorem playMacro_count_nonincreasing lm s lm' s' :
  playMacro lm s = Some (lm', s') -> nMacrosPlaying s' <= nMacrosPlaying s.
Proof.
  intros H. destruct (playMacro_frame _ _ _ _ H) as (_ & _ & _ & _ & _ & _ & _ & _ & _ & J & _).
  rewrite !nMacrosPlaying_count. apply Nat2Z.inj_le. apply count_playing_mono. exact J.
Qed.

(** X7: [playMacroSlot] keeps the number of playing slots within [CONCURENT_MACROS] when it was within it before. *)
Theorem playMacroSlot_within_capacity slot s s' :
  nMacrosPlaying s <= CONCURENT_MACROS -> playMacroSlot slot s = Some (tt, s') ->
  nMacrosPlaying s' <= CONCURENT_MACROS.
Proof.
  intros Hc. unfold playMacroSlot, bind at 1, get at 1. cbv beta iota zeta.
  destruct (negb (recording s) && negb (playing (nth (Z.to_nat slot) (macroPlayStatus s) stoppedPlay))
            && (nMacrosPlaying s <? CONCURENT_MACROS)) eqn:G.
  - intros E. injection E as <-. apply andb_true_iff in G as [_ G]. apply Z.ltb_lt in G.
    rewrite nMacrosPlaying_count in *. cbn [macroPlayStatus set_macroPlayStatus].
    pose proof (count_playing_upd 5 (macroPlayStatus s) (Z.to_nat slot)
                  (mkPlay true (macro_looping s) 0 (now s))) as U. cbn [playing] in U.
    unfold CONCURENT_MACROS in *. lia.
  - unfold bind at 1, put at 1. cbv beta iota.
    destruct (releaseAllMacro_status (set_macroPlayStatus (upd (macroPlayStatus s) (Z.to_nat slot) stoppedPlay) s))
      as (s1 & E1 & P1).
    rewrite E1. intros E. injection E as <-.
    rewrite nMacrosPlaying_count in *. rewrite P1. cbn [macroPlayStatus set_macroPlayStatus].
    pose proof (count_playing_upd 5 (macroPlayStatus s) (Z.to_nat slot) stoppedPlay) as U.
    cbn [playing stoppedPlay] in U. lia.
Qed.




Lemma lor_below_128 a b : 0 <= a < 128 -> 0 <= b < 128 -> 0 <= Z.lor a b < 128.
Proof.
  intros Ha Hb. split; [apply Z.lor_nonneg; lia|].
  destruct (Z.eq_dec (Z.lor a b) 0) as [->|Hne]; [lia|].
  assert (Hp : 0 < Z.lor a b) by (pose proof (Z.lor_nonneg a b); lia).
  change 128 with (2 ^ 7). apply (Z.log2_lt_pow2 _ 7 Hp).
  rewrite Z.log2_lor by lia.
  apply Z.max_lub_lt.
  - destruct (Z.eq_dec a 0) as [->|]; [simpl; lia|]. apply Z.log2_lt_pow2; lia.
  - destruct (Z.eq_dec b 0) as [->|]; [simpl; lia|]. apply Z.log2_lt_pow2; lia.
Qed.

Lemma kb_step_inv d pinb us :
  decoder_inv d -> decoder_inv (fst (kb_step d pinb us)) /\ code7 (snd (kb_step d pinb us)).
Proof.
  unfold decoder_inv, kb_step. intros H.
  destruct ((Z.land pinb BITMASK_A500RES =? 0) && negb (is_WAIT_RES (keyboardState d))).
  { cbn. auto. }
  destruct (keyboardState d) eqn:K; cbn [fst snd code7].
  - destruct (negb _); cbn; rewrite ?K; auto.
  - destruct (negb _); cbn; rewrite ?K; auto.
  - destruct (handshakeTimer d =? 0); [cbn; auto|].
    destruct (_ >? _); cbn; [lia | rewrite K; auto].
  - destruct (negb (Z.land pinb BITMASK_A500CLK =? 0)); [|cbn; rewrite K; auto].
    destruct (negb (bitIndex d =? 0)) eqn:B; cbn [fst snd keyboardState bitIndex currentKeyCode].
    + apply negb_true_iff, Z.eqb_neq in B.
      assert (Hbi : u8 (bitIndex d - 1) = bitIndex d - 1) by (unfold u8; apply Z.mod_small; lia).
      rewrite Hbi. split; [|exact I].
      assert (Hb : 0 <= Z.shiftl (if negb (Z.land pinb BITMASK_A500SP =? 0) then 0 else 1) (bitIndex d - 1) < 128).
      { rewrite Z.shiftl_mul_pow2 by lia.
        destruct (negb _); [lia|].
        assert (2 ^ (bitIndex d - 1) <= 2 ^ 6) by (apply Z.pow_le_mono_r; lia).
        pose proof (Z.pow_pos_nonneg 2 (bitIndex d - 1) ltac:(lia) ltac:(lia)). change (2 ^ 6) with 64 in *. lia. }
      pose proof (lor_below_128 _ _ (proj2 H) Hb) as Hl.
      split; [lia|]. unfold u8. rewrite Z.mod_small by lia. exact Hl.
    + split; [exact I | cbn; lia].
  - destruct (negb _); cbn; rewrite ?K; auto.
  - destruct (negb _); cbn; rewrite ?K; auto.
Qed.

Lemma kb_run_inv : forall polls d,
  decoder_inv d -> decoder_inv (fst (kb_run d polls)) /\ Forall code7 (snd (kb_run d polls)).
Proof.
  induction polls as [|[pinb us] t IH]; intros d H; [cbn; auto|].
  cbn [kb_run]. destruct (kb_step_inv d pinb us H) as [H1 A1].
  destruct (kb_step d pinb us) as [d1 a] eqn:E. cbn [fst snd] in H1, A1.
  destruct (IH d1 H1) as [H2 A2].
  destruct (kb_run d1 t) as [d2 acts]. cbn [fst snd] in *.
  split; [exact H2|]. destruct a; [exact A2 | constructor; assumption | constructor; assumption].
Qed.

(** X20: every key code the Amiga keyboard decoder reports from power-up is a 7-bit value. *)
Theorem kb_run_codes_7bit polls :
  Forall (fun a => match a with KeyMessage k _ => 0 <= k < 128 | _ => True end)
         (snd (kb_run initial_decoder polls)).
Proof. exact (proj2 (kb_run_inv polls initial_decoder I)). Qed.


Lemma set_macros_same s : set_macros (macros s) s = s.
Proof. destruct s; reflexivity. Qed.

Lemma set_macros_eq ms s : macros s = ms -> set_macros ms s = s.
Proof. intros <-. apply set_macros_same. Qed.

Lemma length_map_prefix {A} (f : A -> A) : forall n l, length (map_prefix f n l) = length l.
Proof. induction n as [|n IH]; intros [|x t]; simpl; try rewrite IH; reflexivity. Qed.

Lemma nth_map_prefix {A} (f : A -> A) d : forall n l j, (j < length l)%nat ->
  nth j (map_prefix f n l) d = if (j <? n)%nat then f (nth j l d) else nth j l d.
Proof.
  induction n as [|n IH]; intros [|x t] j Hj; simpl in Hj; try lia.
  - destruct j; reflexivity.
  - destruct j; [reflexivity|]. simpl. rewrite IH by lia. reflexivity.
Qed.

Lemma forallb_map_prefix {A} (p : A -> bool) (f : A -> A) :
  (forall x, p x = true -> p (f x) = true) ->
  forall n l, forallb p l = true -> forallb p (map_prefix f n l) = true.
Proof.
  intros Hf. induction n as [|n IH]; intros [|x t] H; simpl; try exact H.
  simpl in H. apply andb_true_iff in H as [H1 H2]. rewrite Hf, IH by assumption. reflexivity.
Qed.

Lemma forallb_upd {A} (p : A -> bool) x : forall l i,
  forallb p l = true -> p x = true -> forallb p (upd l i x) = true.
Proof.
  induction l as [|y t IH]; intros i Hl Hx; [reflexivity|].
  simpl in Hl. apply andb_true_iff in Hl as [H1 H2].
  destruct i; simpl; rewrite ?Hx, ?H1, ?H2, ?IH by assumption; reflexivity.
Qed.

Lemma wf_macros_upd ms i m :
  wf_macros ms = true -> wf_macro m = true -> wf_macros (upd ms i m) = true.
Proof.
  unfold wf_macros. intros H Hm. apply andb_true_iff in H as [H1 H2].
  rewrite length_upd, H1. apply forallb_upd; assumption.
Qed.

Lemma wf_macros_nth ms i : wf_macros ms = true -> (i < 5)%nat -> wf_macro (nth i ms zeroMacro) = true.
Proof.
  unfold wf_macros. intros H Hi. apply andb_true_iff in H as [H1 H2].
  apply Nat.eqb_eq in H1. rewrite forallb_forall in H2. apply H2. apply nth_In. lia.
Qed.


Lemma wf_event_rebase d0 ev : wf_event ev = true -> wf_event (rebase d0 ev) = true.
Proof.
  unfold wf_event, rebase, u32. cbn [ev_keyCode ev_isPressed ev_delay].
  intros H. apply andb_true_iff in H as [H _]. apply andb_true_iff in H as [H _]. rewrite H. cbn [andb].
  pose proof (Z.mod_pos_bound (ev_delay ev - d0) 4294967296 ltac:(lia)).
  apply andb_true_iff; split; [apply Z.leb_le | apply Z.ltb_lt]; lia.
Qed.

Lemma stopRecording_eq s :
  recording s = true -> wf_macros (macros s) = true -> length (eeprom s) = 1024%nat ->
  (Z.to_nat (recordingMacroSlot s) < 5)%nat ->
  let slot := Z.to_nat (recordingMacroSlot s) in
  let m := nth slot (macros s) zeroMacro in
  let d0 := ev_delay (nth 0 (keyEvents m) zeroEvent) in
  let s1 := set_functionMode false
              (set_macros (upd (macros s) slot
                             (mkMacro (map_prefix (rebase d0) (Z.to_nat (macro_length m)) (keyEvents m))
                                      (macro_length m)))
                 (set_recordingSlot false (set_recording false s))) in
  stopRecording s = Some (tt, set_eeprom (eeprom_image (macros s1) ++ skipn 972 (eeprom s1)) s1) /\
  wf_macros (macros s1) = true.
Proof.
  intros Hr Hw He Hs slot m d0 s1.
  assert (Hw1 : wf_macros (macros s1) = true).
  { unfold s1. cbn [macros set_functionMode set_macros set_recordingSlot set_recording].
    apply wf_macros_upd; [exact Hw|].
    pose proof (wf_macros_nth _ _ Hw Hs) as Hm. fold slot m in Hm.
    unfold wf_macro in *. cbn [keyEvents macro_length].
    apply andb_true_iff in Hm as [Hm Hb]. apply andb_true_iff in Hm as [Hl Hf].
    rewrite length_map_prefix, Hl, Hb. cbn [andb].
    rewrite forallb_map_prefix; [reflexivity | apply wf_event_rebase | exact Hf]. }
  split; [|exact Hw1].
  unfold stopRecording, bind at 1, get at 1. cbv beta iota. rewrite Hr. cbn [negb].
  unfold bind at 1, put at 1. cbv beta iota zeta.
  apply saveMacrosToEEPROM_image; [exact Hw1|]. exact He.
Qed.

Lemma load_after_save s1 r s' :
  wf_macros (macros s1) = true -> s' = set_eeprom (eeprom_image (macros s1) ++ r) s1 ->
  loadMacrosFromEEPROM s' = Some (true, s').
Proof.
  intros Hw ->. rewrite (loadMacrosFromEEPROM_image (set_eeprom (eeprom_image (macros s1) ++ r) s1) (macros s1) r Hw eq_refl).
  rewrite set_macros_eq; reflexivity.
Qed.

Lemma stopRecording_loadable s s' :
  recording s = true -> wf_macros (macros s) = true -> length (eeprom s) = 1024%nat ->
  (Z.to_nat (recordingMacroSlot s) < 5)%nat ->
  stopRecording s = Some (tt, s') -> loadMacrosFromEEPROM s' = Some (true, s').
Proof.
  intros Hr Hw He Hs E'.
  destruct (stopRecording_eq s Hr Hw He Hs) as [E Hw1]. rewrite E' in E.
  pose proof (f_equal (fun o => match o with Some p => snd p | None => s' end) E) as Es.
  cbv beta iota in Es. cbn [snd] in Es.
  eapply load_after_save; [exact Hw1|]. exact Es.
Qed.



Lemma firstn_S_upd {A} (l : list A) i x :
  (i < length l)%nat -> firstn (S i) (upd l i x) = firstn i l ++ [x].
Proof.
  intros H. rewrite upd_split by exact H.
  replace (S i) with (length (firstn i l) + 1)%nat by (rewrite length_firstn; lia).
  rewrite firstn_app_2. reflexivity.
Qed.

Lemma skipn_upd_after {A} (l : list A) i x n :
  (i < length l)%nat -> skipn (S i + n) (upd l i x) = skipn (S i + n) l.
Proof.
  intros H. rewrite upd_split by exact H.
  replace (S i + n)%nat with (length (firstn i l) + S n)%nat by (rewrite length_firstn; lia).
  rewrite skipn_app_add. change (skipn (S n) (x :: skipn (S i) l)) with (skipn n (skipn (S i) l)). rewrite skipn_skipn.
  f_equal. rewrite length_firstn. lia.
Qed.

Lemma record_key_append k p s :
  let slot := Z.to_nat (recordingMacroSlot s) in
  let i0 := recordingMacroIndex s in
  recording s = true -> recordingSlot s = true -> 0 <= i0 -> i0 + 1 < MAX_MACRO_LENGTH ->
  record_key k p s =
    Some (tt, set_macros (upd (macros s) slot
                            (mkMacro (upd (keyEvents (nth slot (macros s) zeroMacro)) (Z.to_nat i0)
                                        (mkEvent k (if p then 1 else 0) (now s))) (i0 + 1)))
                (set_recordingMacroIndex (i0 + 1) s)).
Proof.
  intros slot i0 Hr Hs Hi0 Hlt. unfold record_key, bind, get, put, ret. cbv beta iota zeta.
  rewrite Hr, Hs. fold i0 slot.
  replace (i0 <? MAX_MACRO_LENGTH) with true by (symmetry; apply Z.ltb_lt; lia).
  assert (Hu : u8 (i0 + 1) = i0 + 1) by (unfold u8; apply Z.mod_small; unfold MAX_MACRO_LENGTH in Hlt; lia).
  rewrite Hu. cbn [andb].
  replace (i0 + 1 >=? MAX_MACRO_LENGTH) with false
    by (symmetry; rewrite Z.geb_leb; apply Z.leb_gt; lia).
  reflexivity.
Qed.

(** X13: a sequence of key events recorded into a slot with room for all of them is stored after the slot's current events, with their times, and nothing else of the slot, the other slots, the main report or the play status changes. *)
Theorem record_run_appends evs : forall s,
  let slot := Z.to_nat (recordingMacroSlot s) in
  let m := nth slot (macros s) zeroMacro in
  let i0 := recordingMacroIndex s in
  recording s = true -> recordingSlot s = true ->
  0 <= i0 -> i0 + Z.of_nat (length evs) < MAX_MACRO_LENGTH -> macro_length m = i0 ->
  (slot < length (macros s))%nat -> length (keyEvents m) = 32%nat ->
  exists s', record_run evs s = Some (tt, s') /\
    recording s' = true /\ recordingSlot s' = true /\
    recordingMacroIndex s' = i0 + Z.of_nat (length evs) /\
    nth slot (macros s') zeroMacro =
      mkMacro (firstn (Z.to_nat i0) (keyEvents m) ++ map recorded_event evs
               ++ skipn (Z.to_nat i0 + length evs) (keyEvents m))
              (i0 + Z.of_nat (length evs)) /\
    (forall i, i <> slot -> nth i (macros s') zeroMacro = nth i (macros s) zeroMacro) /\
    keyReport s' = keyReport s /\ macroPlayStatus s' = macroPlayStatus s.
Proof.
  induction evs as [|[[k p] t] r IH]; intros s slot m i0 Hr Hs Hi0 Hlen Hml Hsl Hev.
  - exists s. cbn [length]. rewrite Z.add_0_r, Nat.add_0_r, app_nil_l, firstn_skipn.
    repeat split; try assumption; try reflexivity.
    rewrite <- Hml. unfold m. destruct (nth slot (macros s) zeroMacro); reflexivity.
  - cbn [length] in Hlen |- *. rewrite Nat2Z.inj_succ in Hlen |- *.
    cbn [record_run]. unfold bind at 1, modify at 1. cbv beta iota.
    unfold bind at 1.
    rewrite record_key_append by (cbn [recording recordingSlot recordingMacroIndex set_now]; lia || assumption).
    cbn [recordingMacroIndex recordingMacroSlot macros now set_now]. fold i0 slot.
    set (ev := mkEvent k (if p then 1 else 0) t).
    set (s1 := set_macros (upd (macros s) slot (mkMacro (upd (keyEvents (nth slot (macros s) zeroMacro)) (Z.to_nat i0) ev) (i0 + 1)))
                 (set_recordingMacroIndex (i0 + 1) (set_now t s))).
    assert (Hn1 : nth slot (macros s1) zeroMacro = mkMacro (upd (keyEvents m) (Z.to_nat i0) ev) (i0 + 1)).
    { unfold s1. cbn [macros set_macros]. apply nth_upd_same. exact Hsl. }
    assert (Ri : recordingMacroIndex s1 = i0 + 1) by reflexivity.
    assert (Rs : Z.to_nat (recordingMacroSlot s1) = slot) by reflexivity.
    assert (Ln : length (macros s1) = length (macros s)) by apply length_upd.
    destruct (IH s1) as (s' & E & R & RS & I & N & O & K & P);
      rewrite ?Ri, ?Rs, ?Ln, ?Hn1; cbn [keyEvents macro_length];
      try rewrite length_upd; try assumption; try lia; try reflexivity.
    exists s'. rewrite Rs, Ri in *. rewrite Hn1 in N. cbn [keyEvents] in N. unfold MAX_MACRO_LENGTH in Hlen.
      repeat split; try assumption.
      + rewrite I. lia.
      + rewrite N. f_equal; [|lia].
        replace (Z.to_nat (i0 + 1)) with (S (Z.to_nat i0)) by lia.
        rewrite firstn_S_upd by lia.
        replace (Z.to_nat i0 + S (length r))%nat with (S (Z.to_nat i0) + length r)%nat by lia.
        rewrite skipn_upd_after by lia.
        rewrite <- app_assoc. reflexivity.
      + intros i Hne. rewrite O by exact Hne. cbn [macros set_macros]. apply nth_upd_other. exact Hne.
Qed.

(** X15: [stopRecording] rewrites the delays of the recorded events relative to the first one (modulo 2^32), keeps the other events and slots, leaves recording and function mode, and saves macros that load back unchanged. *)
Theorem stopRecording_rebases_and_saves s :
  let slot := Z.to_nat (recordingMacroSlot s) in
  let m := nth slot (macros s) zeroMacro in
  let d0 := ev_delay (nth 0 (keyEvents m) zeroEvent) in
  recording s = true -> wf_macros (macros s) = true -> length (eeprom s) = 1024%nat ->
  (slot < 5)%nat ->
  exists s', stopRecording s = Some (tt, s') /\
    recording s' = false /\ recordingSlot s' = false /\ functionMode s' = false /\
    macro_length (nth slot (macros s') zeroMacro) = macro_length m /\
    (forall j, (j < 32)%nat ->
       let e := nth j (keyEvents m) zeroEvent in
       nth j (keyEvents (nth slot (macros s') zeroMacro)) zeroEvent =
         if (j <? Z.to_nat (macro_length m))%nat
         then mkEvent (ev_keyCode e) (ev_isPressed e) (u32 (ev_delay e - d0)) else e) /\
    (forall i, i <> slot -> nth i (macros s') zeroMacro = nth i (macros s) zeroMacro) /\
    loadMacrosFromEEPROM s' = Some (true, s').
Proof.
  intros slot m d0 Hr Hw He Hs.
  destruct (stopRecording_eq s Hr Hw He Hs) as [E Hw1]. fold slot m d0 in E, Hw1.
  pose proof (stopRecording_loadable s _ Hr Hw He Hs E) as Ld.
  eexists. split; [exact E|].
  assert (Hlm : length (macros s) = 5%nat).
  { unfold wf_macros in Hw. apply andb_true_iff in Hw as [Hw _]. apply Nat.eqb_eq. exact Hw. }
  assert (Hm32 : length (keyEvents m) = 32%nat).
  { pose proof (wf_macros_nth _ _ Hw Hs) as Hm. fold slot m in Hm. unfold wf_macro in Hm.
    apply andb_true_iff in Hm as [Hm _]. apply andb_true_iff in Hm as [Hm _]. apply Nat.eqb_eq. exact Hm. }
  cbn [recording recordingSlot functionMode macros set_eeprom set_functionMode set_macros
       set_recordingSlot set_recording].
  rewrite nth_upd_same by lia. cbn [keyEvents macro_length].
  repeat split.
  - intros j Hj. rewrite nth_map_prefix by lia. reflexivity.
  - intros i Hne. apply nth_upd_other. exact Hne.
  - exact Ld.
Qed.

(** X14: the event recorded at index 31 fills the slot: recording stops with 32 events, the last being the recorded key, and the macros saved to EEPROM load back unchanged. *)
Theorem record_key_fills_and_stops k p s :
  let slot := Z.to_nat (recordingMacroSlot s) in
  recording s = true -> recordingSlot s = true -> recordingMacroIndex s = 31 ->
  wf_macros (macros s) = true -> length (eeprom s) = 1024%nat -> (slot < 5)%nat ->
  0 <= k < 256 -> 0 <= now s < 4294967296 ->
  exists s', record_key k p s = Some (tt, s') /\
    recording s' = false /\ recordingSlot s' = false /\ recordingMacroIndex s' = 32 /\
    macro_length (nth slot (macros s') zeroMacro) = 32 /\
    ev_keyCode (nth 31 (keyEvents (nth slot (macros s') zeroMacro)) zeroEvent) = k /\
    ev_isPressed (nth 31 (keyEvents (nth slot (macros s') zeroMacro)) zeroEvent) = (if p then 1 else 0) /\
    loadMacrosFromEEPROM s' = Some (true, s').
Proof.
  intros slot Hr Hs Hi Hw He Hsl Hk Hn.
  set (ev := mkEvent k (if p then 1 else 0) (now s)).
  set (m := nth slot (macros s) zeroMacro).
  set (s1 := set_macros (upd (macros s) slot (mkMacro (upd (keyEvents m) 31 ev) 32))
               (set_recordingMacroIndex 32 s)).
  assert (Hm : wf_macro m = true) by exact (wf_macros_nth _ _ Hw Hsl).
  assert (Hm32 : length (keyEvents m) = 32%nat).
  { unfold wf_macro in Hm. apply andb_true_iff in Hm as [Hm' _]. apply andb_true_iff in Hm' as [Hm' _].
    apply Nat.eqb_eq. exact Hm'. }
  assert (Hlm : length (macros s) = 5%nat).
  { unfold wf_macros in Hw. apply andb_true_iff in Hw as [Hw' _]. apply Nat.eqb_eq. exact Hw'. }
  assert (Hw1 : wf_macros (macros s1) = true).
  { unfold s1. cbn [macros set_macros set_recordingMacroIndex]. apply wf_macros_upd; [exact Hw|].
    unfold wf_macro in *. cbn [keyEvents macro_length]. rewrite length_upd, Hm32.
    apply andb_true_iff in Hm as [Hm _]. apply andb_true_iff in Hm as [_ Hf].
    rewrite forallb_upd; [reflexivity | exact Hf |].
    unfold wf_event, ev, is_byte. cbn [ev_keyCode ev_isPressed ev_delay].
    rewrite !andb_true_iff, !Z.leb_le, !Z.ltb_lt. destruct p; lia. }
  assert (E1 : record_key k p s = stopRecording s1).
  { unfold record_key, bind, get, put. cbv beta iota zeta. rewrite Hr, Hs, Hi. reflexivity. }
  assert (Hn1 : nth slot (macros s1) zeroMacro = mkMacro (upd (keyEvents m) 31 ev) 32).
  { unfold s1. cbn [macros set_macros set_recordingMacroIndex]. apply nth_upd_same. lia. }
  assert (Hl1 : (slot < length (macros s1))%nat).
  { unfold s1. cbn [macros set_macros set_recordingMacroIndex]. rewrite length_upd. lia. }
  assert (Hs1 : (Z.to_nat (recordingMacroSlot s1) < 5)%nat) by exact Hsl.
  destruct (stopRecording_eq s1 Hr Hw1 He Hs1) as [E _].
  pose proof (stopRecording_loadable s1 _ Hr Hw1 He Hs1 E) as Ld.
  rewrite E1, E. eexists. split; [reflexivity|].
  refine (conj _ (conj _ (conj _ (conj _ (conj _ (conj _ Ld)))))).
  all: cbn [recording recordingSlot recordingMacroIndex macros set_eeprom set_functionMode set_macros
       set_recordingSlot set_recording set_recordingMacroIndex].
  all: change (Z.to_nat (recordingMacroSlot s1)) with slot.
  all: try reflexivity.
  all: rewrite Hn1, nth_upd_same by exact Hl1; cbn [keyEvents macro_length]; try reflexivity.
  all: rewrite nth_map_prefix by (rewrite length_upd; lia).
  all: change (31 <? Z.to_nat 32)%nat with true; cbn [rebase ev_keyCode ev_isPressed].
  all: rewrite nth_upd_same by lia; reflexivity.
Qed.



Lemma wf_zeroMacros : wf_macros zeroMacros = true.
Proof. vm_compute. reflexivity. Qed.

(** X16: [resetMacros] stops all macros, empties every slot and saves the empty macros so that loading them back changes nothing. *)
Theorem resetMacros_clears_and_saves s :
  length (eeprom s) = 1024%nat ->
  exists s', resetMacros s = Some (tt, s') /\
    macros s' = zeroMacros /\ nMacrosPlaying s' = 0 /\ macroKeyReport s' = emptyReport /\
    keyReport s' = keyReport s /\ loadMacrosFromEEPROM s' = Some (true, s').
Proof.
  intros He.
  destruct (stopAllMacros_spec s) as (s1 & E1 & N1 & K1 & _ & _ & R1 & _ & P1).
  set (s2 := set_macros zeroMacros s1).
  assert (E2 : saveMacrosToEEPROM s2 = Some (tt, set_eeprom (eeprom_image (macros s2) ++ skipn 972 (eeprom s2)) s2)).
  { apply saveMacrosToEEPROM_image; [exact wf_zeroMacros | unfold s2; cbn [eeprom set_macros]; rewrite P1; exact He]. }
  eexists. split.
  - unfold resetMacros, bind at 1. rewrite E1. unfold bind at 1, cleanMacros, modify at 1.
    fold s2. exact E2.
  - refine (conj eq_refl (conj _ (conj _ (conj _ _)))).
    + exact N1.
    + exact K1.
    + exact R1.
    + apply (load_after_save s2 (skipn 972 (eeprom s2))); [exact wf_zeroMacros | reflexivity].
Qed.

(** X12: while recording into a slot with room for more than one event, [keyPress k] both types [k] on the main report and appends the event (k, pressed, now) to the slot, advancing the index by one. *)
Theorem keyPress_records_and_types k s :
  let slot := Z.to_nat (recordingMacroSlot s) in
  let i0 := recordingMacroIndex s in
  recording s = true -> recordingSlot s = true -> 0 <= i0 -> i0 + 1 < MAX_MACRO_LENGTH ->
  0 <= k < AMIGA_KEY_COUNT ->
  exists s', keyPress k s = Some (tt, s') /\
    keyReport s' = press_report (keyReport s) k /\
    macros s' = upd (macros s) slot
                  (mkMacro (upd (keyEvents (nth slot (macros s) zeroMacro)) (Z.to_nat i0)
                              (mkEvent k 1 (now s))) (i0 + 1)) /\
    recordingMacroIndex s' = i0 + 1 /\ recording s' = true.
Proof.
  intros slot i0 Hr Hs Hi0 Hlt Hk.
  unfold keyPress, bind at 1. rewrite record_key_append by assumption.
  fold slot i0. unfold bind at 1. rewrite keyTable_at_in by exact Hk.
  unfold bind, modify, sendReport. cbv beta iota.
  eexists. split; [reflexivity|].
  destruct (isAmigaModifierKey k) eqn:M;
    (destruct (report_eqb _ _); cbn; unfold press_report; rewrite M; repeat split; exact Hr).
Qed.

Lemma existsb_count (l : list MacroPlayStatus) :
  existsb playing l = (0 <? length (filter playing l))%nat.
Proof.
  induction l as [|p t IH]; [reflexivity|].
  cbn [existsb filter]. destruct (playing p); [reflexivity|]. exact IH.
Qed.

(** X19: [isMacroPlaying] holds exactly when [nMacrosPlaying] is positive. *)
Theorem isMacroPlaying_iff_count s : isMacroPlaying s = (0 <? nMacrosPlaying s).
Proof.
  unfold isMacroPlaying, nMacrosPlaying. rewrite existsb_count.
  destruct (length _) as [|n]; reflexivity.
Qed.

(** X18: [releaseAll] empties the main report and sends it unless the empty report was the last sent; the macro keyboard is untouched. *)
Theorem releaseAll_sends_empty s :
  exists s', releaseAll s = Some (tt, s') /\
    keyReport s' = emptyReport /\ prevkeyReport s' = emptyReport /\
    hidLog s' = hidLog s ++ (if report_eqb emptyReport (prevkeyReport s) then []
                             else [KbdOut HID_ID_KEYBOARD emptyReport]) /\
    macroKeyReport s' = macroKeyReport s /\ macroPlayStatus s' = macroPlayStatus s.
Proof.
  unfold releaseAll, resetReport, sendReport, bind, modify.
  cbn [keyReport prevkeyReport set_keyReport].
  destruct (report_eqb emptyReport (prevkeyReport s)) eqn:E.
  - apply report_eqb_true_iff in E. eexists. split; [reflexivity|].
    rewrite app_nil_r. repeat split. symmetry. exact E.
  - eexists. split; [reflexivity|]. repeat split.
Qed.

(** X21: [setup] on an EEPROM holding a valid saved image restores those macros, empties both reports and marks their last sent copies as 0xFF, so that the first [sendReport] sends the empty report. *)
Theorem setup_restores_saved_macros s ms rest :
  wf_macros ms = true -> eeprom s = eeprom_image ms ++ rest ->
  exists s', setup s = Some (tt, s') /\
    macros s' = ms /\ keyReport s' = emptyReport /\ prevkeyReport s' = ffReport /\
    macroKeyReport s' = emptyReport /\ macroPrevkeyReport s' = ffReport /\
    exists s'', sendReport s' = Some (tt, s'') /\
      hidLog s'' = hidLog s ++ [KbdOut HID_ID_KEYBOARD emptyReport].
Proof.
  intros Hw He. unfold setup, bind at 1. rewrite (loadMacrosFromEEPROM_image s ms rest Hw He).
  unfold modify. eexists. split; [reflexivity|].
  cbn. repeat split. eexists. split; [reflexivity|]. reflexivity.
Qed.

(** ** Witnesses of the further properties *)

Lemma keystroke_taps_key_witness :
  keystroke 0x4C 0x05 synced_boot_state =
    Some (tt, set_now (u32 (now synced_boot_state + PROGRAMMATIC_KEYS_RELEASE))
           (set_hidLog (hidLog synced_boot_state ++
              [KbdOut HID_ID_KEYBOARD (mkKeyReport 0x05 (upd (keys (keyReport synced_boot_state)) 0 0x4C));
               KbdOut HID_ID_KEYBOARD (keyReport synced_boot_state)]) synced_boot_state)).
Proof. apply keystroke_taps_key; [reflexivity | reflexivity | discriminate]. Defined.

Lemma keystroke_full_report_dropped_witness :
  keystroke 0x4C 0x05 full_report_state = Some (tt, full_report_state).
Proof.
  apply keystroke_full_report_dropped.
  repeat constructor; discriminate.
Defined.

Lemma multimediaKeystroke_pulse_witness :
  multimediaKeystroke MMKEY_MUTE boot_state =
    Some (tt, set_now (u32 (now boot_state + PROGRAMMATIC_KEYS_RELEASE))
           (set_hidLog (hidLog boot_state ++ [MmOut HID_ID_MULTIMEDIA (Z.lor (mmKeys boot_state) MMKEY_MUTE);
                                              MmOut HID_ID_MULTIMEDIA (mmKeys boot_state)]) boot_state)).
Proof. apply multimediaKeystroke_pulse. reflexivity. Defined.

Lemma macro_press_release_restores_witness :
  exists s1 s2, keyPressMacro 0x20 boot_state = Some (tt, s1) /\ keyReleaseMacro 0x20 s1 = Some (tt, s2) /\
    macroKeyReport s1 = press_report (macroKeyReport boot_state) 0x20 /\
    macroKeyReport s2 = macroKeyReport boot_state /\
    keyReport s2 = keyReport boot_state /\ prevkeyReport s2 = prevkeyReport boot_state.
Proof.
  apply macro_press_release_restores.
  - unfold AMIGA_KEY_COUNT; lia.
  - vm_compute. right. intros H. repeat (destruct H as [H|H]; [discriminate|]). exact H.
Defined.

Lemma playMacro_isolated_witness :
  exists lm' s', playMacro 0 sample_playing_state = Some (lm', s') /\
    keyReport s' = keyReport sample_playing_state /\
    prevkeyReport s' = prevkeyReport sample_playing_state /\
    mmKeys s' = mmKeys sample_playing_state /\
    macros s' = macros sample_playing_state /\ eeprom s' = eeprom sample_playing_state /\
    (forall i, playing (status_of i s') = true -> playing (status_of i sample_playing_state) = true) /\
    exists out, hidLog s' = hidLog sample_playing_state ++ out /\
                Forall (fun o => exists r, o = KbdOut HID_ID_MACROVKEYS r) out.
Proof.
  do 2 eexists. split; [vm_compute; reflexivity|].
  eapply (playMacro_isolated 0 sample_playing_state). vm_compute. reflexivity.
Defined.

Lemma playMacro_count_nonincreasing_witness :
  exists lm' s', playMacro 0 sample_playing_state = Some (lm', s') /\
    nMacrosPlaying s' <= nMacrosPlaying sample_playing_state.
Proof.
  do 2 eexists. split; [vm_compute; reflexivity|].
  eapply (playMacro_count_nonincreasing 0 sample_playing_state). vm_compute. reflexivity.
Defined.

Lemma playMacroSlot_within_capacity_witness :
  exists s', playMacroSlot 1 sample_playing_state = Some (tt, s') /\
    nMacrosPlaying s' <= CONCURENT_MACROS.
Proof.
  eexists. split; [vm_compute; reflexivity|].
  apply (playMacroSlot_within_capacity 1 sample_playing_state).
  - apply Z.leb_le. vm_compute. reflexivity.
  - vm_compute. reflexivity.
Defined.

Lemma playMacro_replays_due_events_witness :
  exists s', playMacro 0 sample_playing_state = Some (100, s') /\
    macroKeyReport s' = press_report emptyReport 0x20 /\
    status_of 0 s' = mkPlay false false 0 0 /\
    (forall x, x <> 0%nat -> status_of x s' = status_of x sample_playing_state).
Proof.
  destruct (playMacro_replays_due_events 0 sample_playing_state 0 1) as (s' & E & K & P & O).
  - reflexivity.
  - apply Z.leb_le. vm_compute. reflexivity.
  - lia.
  - vm_compute. lia.
  - reflexivity.
  - intros x Hx Hne. destruct x as [|[|[|[|[|x]]]]]; [lia|reflexivity|reflexivity|reflexivity|reflexivity|lia].
  - vm_compute. split; [discriminate | reflexivity].
  - vm_compute. split; discriminate.
  - reflexivity.
  - vm_compute. lia.
  - intros jj Hjj. assert (jj = 0%nat) as -> by lia. vm_compute. split; [discriminate|split; [discriminate|reflexivity]].
  - vm_compute. lia.
  - exists s'. split; [exact E|]. split; [rewrite K; vm_compute; reflexivity|].
    split; [rewrite P; reflexivity|exact O].
Defined.

Lemma startRecording_arms_witness :
  exists s', startRecording boot_state = Some (tt, s') /\
    recording s' = true /\ recordingSlot s' = false /\ recordingMacroIndex s' = 0 /\
    nMacrosPlaying s' = 0 /\ macroKeyReport s' = emptyReport /\
    keyReport s' = keyReport boot_state /\ macros s' = macros boot_state.
Proof. apply startRecording_arms. reflexivity. Defined.


Lemma keyPress_records_and_types_witness :
  let s := recording_state in
  let slot := Z.to_nat (recordingMacroSlot s) in
  let i0 := recordingMacroIndex s in
  exists s', keyPress 0x20 s = Some (tt, s') /\
    keyReport s' = press_report (keyReport s) 0x20 /\
    macros s' = upd (macros s) slot
                  (mkMacro (upd (keyEvents (nth slot (macros s) zeroMacro)) (Z.to_nat i0)
                              (mkEvent 0x20 1 (now s))) (i0 + 1)) /\
    recordingMacroIndex s' = i0 + 1 /\ recording s' = true.
Proof.
  apply (keyPress_records_and_types 0x20 recording_state).
  - reflexivity.
  - reflexivity.
  - vm_compute. discriminate.
  - vm_compute. reflexivity.
  - unfold AMIGA_KEY_COUNT; lia.
Defined.

Lemma record_run_appends_witness :
  let evs := [(0x20, true, 5); (0x20, false, 9)] in
  let s := recording_state in
  let slot := Z.to_nat (recordingMacroSlot s) in
  let m := nth slot (macros s) zeroMacro in
  let i0 := recordingMacroIndex s in
  exists s', record_run evs s = Some (tt, s') /\
    recording s' = true /\ recordingSlot s' = true /\
    recordingMacroIndex s' = i0 + Z.of_nat (length evs) /\
    nth slot (macros s') zeroMacro =
      mkMacro (firstn (Z.to_nat i0) (keyEvents m) ++ map recorded_event evs
               ++ skipn (Z.to_nat i0 + length evs) (keyEvents m))
              (i0 + Z.of_nat (length evs)) /\
    (forall i, i <> slot -> nth i (macros s') zeroMacro = nth i (macros s) zeroMacro) /\
    keyReport s' = keyReport s /\ macroPlayStatus s' = macroPlayStatus s.
Proof.
  apply (record_run_appends [(0x20, true, 5); (0x20, false, 9)] recording_state).
  - reflexivity.
  - reflexivity.
  - vm_compute. discriminate.
  - vm_compute. reflexivity.
  - reflexivity.
  - vm_compute. lia.
  - reflexivity.
Defined.

Lemma record_key_fills_and_stops_witness :
  let s := set_recordingMacroIndex 31 recording_state in
  let slot := Z.to_nat (recordingMacroSlot s) in
  exists s', record_key 0x20 true s = Some (tt, s') /\
    recording s' = false /\ recordingSlot s' = false /\ recordingMacroIndex s' = 32 /\
    macro_length (nth slot (macros s') zeroMacro) = 32 /\
    ev_keyCode (nth 31 (keyEvents (nth slot (macros s') zeroMacro)) zeroEvent) = 0x20 /\
    ev_isPressed (nth 31 (keyEvents (nth slot (macros s') zeroMacro)) zeroEvent) = 1 /\
    loadMacrosFromEEPROM s' = Some (true, s').
Proof.
  apply (record_key_fills_and_stops 0x20 true (set_recordingMacroIndex 31 recording_state)).
  - reflexivity.
  - reflexivity.
  - reflexivity.
  - vm_compute. reflexivity.
  - vm_compute. reflexivity.
  - vm_compute. lia.
  - lia.
  - vm_compute. split; [discriminate|reflexivity].
Defined.

Lemma stopRecording_rebases_and_saves_witness :
  let s := set_recording true sample_state in
  let slot := Z.to_nat (recordingMacroSlot s) in
  let m := nth slot (macros s) zeroMacro in
  let d0 := ev_delay (nth 0 (keyEvents m) zeroEvent) in
  exists s', stopRecording s = Some (tt, s') /\
    recording s' = false /\ recordingSlot s' = false /\ functionMode s' = false /\
    macro_length (nth slot (macros s') zeroMacro) = macro_length m /\
    (forall j, (j < 32)%nat ->
       let e := nth j (keyEvents m) zeroEvent in
       nth j (keyEvents (nth slot (macros s') zeroMacro)) zeroEvent =
         if (j <? Z.to_nat (macro_length m))%nat
         then mkEvent (ev_keyCode e) (ev_isPressed e) (u32 (ev_delay e - d0)) else e) /\
    (forall i, i <> slot -> nth i (macros s') zeroMacro = nth i (macros s) zeroMacro) /\
    loadMacrosFromEEPROM s' = Some (true, s').
Proof.
  apply (stopRecording_rebases_and_saves (set_recording true sample_state)).
  - reflexivity.
  - vm_compute. reflexivity.
  - vm_compute. reflexivity.
  - vm_compute. lia.
Defined.

Lemma resetMacros_clears_and_saves_witness :
  exists s', resetMacros sample_state = Some (tt, s') /\
    macros s' = zeroMacros /\ nMacrosPlaying s' = 0 /\ macroKeyReport s' = emptyReport /\
    keyReport s' = keyReport sample_state /\ loadMacrosFromEEPROM s' = Some (true, s').
Proof. apply resetMacros_clears_and_saves. vm_compute. reflexivity. Defined.

Lemma setup_restores_saved_macros_witness :
  exists s', setup saved_state = Some (tt, s') /\
    macros s' = sample_macros /\ keyReport s' = emptyReport /\ prevkeyReport s' = ffReport /\
    macroKeyReport s' = emptyReport /\ macroPrevkeyReport s' = ffReport /\
    exists s'', sendReport s' = Some (tt, s'') /\
      hidLog s'' = hidLog saved_state ++ [KbdOut HID_ID_KEYBOARD emptyReport].
Proof.
  apply (setup_restores_saved_macros saved_state sample_macros (skipn 972 (eeprom boot_state))).
  - vm_compute. reflexivity.
  - reflexivity.
Defined.
